(** * PackStream: the Packer and Unpacker of [src/v1/internal/packstream.js]

    A shallow embedding of the two classes of the PackStream codec of the
    Neo4j JavaScript driver, and theorems about the bytes they produce and
    consume.

    Conventions of the embedding.
    - A JavaScript value is a term of [value].  A string is represented by
      the sequence of its UTF-8 bytes (a [string] whose characters are
      bytes); a number by its IEEE-754 binary64 image; an [Integer] by its
      two signed 32-bit halves; a plain object by the association list of
      its own enumerable properties, in [Object.keys] order.  The prototype
      of an object is not part of its value; the object that [unpackMap]
      builds records whether it still inherits the [__proto__] accessor of
      [Object.prototype], which decides what an assignment to that name
      does.
    - The channel, the buffer, the UTF-8 helper and [Integer] live in
      modules that are imported by packstream.js; they are modelled from
      their documented contracts.
    - Methods are computations in a state-and-exception monad.  [this] is
      modelled by open recursion: a method body takes the methods it calls
      on [this] as arguments, and the knot is tied with a fuel counter. *)

From Stdlib Require Import ZArith String Ascii List Bool Lia Permutation.
From Stdlib Require Import DecimalString HexadecimalString.
From Stdlib Require Import FunctionalExtensionality.
Import ListNotations.
Local Open Scope Z_scope.

Set Warnings "-register-all,-notation-for-abbreviation".

(** ** Exceptions and the computation monad *)

(** [Neo4jError] is what [newError(message)] builds; the two others are
    raised by the host (calling something that is not a function) and by
    the byte source (reading past the end). *)
Inductive exn : Type :=
| Neo4jError (message : string)
| TypeError (message : string)
| RangeError (message : string).

Definition newError (message : string) : exn := Neo4jError message.

Inductive outcome (S A : Type) : Type :=
| Ok (a : A) (s : S)
| Throw (e : exn) (s : S)
| OutOfFuel.

Arguments Ok {S A} a s.
Arguments Throw {S A} e s.
Arguments OutOfFuel {S A}.

Definition M (S A : Type) : Type := S -> outcome S A.

Definition ret {S A} (a : A) : M S A := fun s => Ok a s.

Definition bind {S A B} (m : M S A) (k : A -> M S B) : M S B :=
  fun s =>
    match m s with
    | Ok a s' => k a s'
    | Throw e s' => Throw e s'
    | OutOfFuel => OutOfFuel
    end.

Definition throw {S A} (e : exn) : M S A := fun s => Throw e s.

Definition out_of_fuel {S A} : M S A := fun _ => OutOfFuel.

(** A host operation that returns or throws without touching the state. *)
Definition lift {S A} (r : exn + A) : M S A :=
  match r with
  | inl e => throw e
  | inr a => ret a
  end.

Declare Scope js_scope.
Delimit Scope js_scope with js.
Notation "x <- m ;; k" := (bind m (fun x => k))
  (at level 61, m at next level, right associativity) : js_scope.
Notation "m ;; k" := (bind m (fun _ => k))
  (at level 61, right associativity) : js_scope.
Local Open Scope js_scope.

(** [for (let i = start; i < start + count; i++) acc = body(i, acc)]: the
    loops of the source, with the variables they update threaded as [acc]. *)
Fixpoint for_fold {S A} (start : nat) (count : nat)
    (body : nat -> A -> M S A) (acc : A) : M S A :=
  match count with
  | O => ret acc
  | Datatypes.S c => acc' <- body start acc ;; for_fold (Datatypes.S start) c body acc'
  end.

Definition for_loop {S} (count : nat) (body : nat -> M S unit) : M S unit :=
  for_fold 0 count (fun i _ => body i) tt.

(** ** Host arithmetic *)

(** [x | 0] and [x >> 0]: ToInt32. *)
Definition toInt32 (z : Z) : Z := (z + 2 ^ 31) mod 2 ^ 32 - 2 ^ 31.

(** [a / b >> 0] on integral doubles: the quotient truncated toward zero,
    then ToInt32. *)
Definition div_shr0 (a b : Z) : Z := toInt32 (Z.quot a b).

(** [a % b] takes the sign of the dividend. *)
Definition js_rem (a b : Z) : Z := Z.rem a b.

(** [n.toString(16)] and [String(n)] for an integral number.  The host
    prints the exact digits of an integer up to 2^53 - 1; above, a number
    is printed with rounded digits or with an exponent, so [toString10]
    stands for [String(n)] on the integers up to 2^53 - 1 only. *)
Definition toString16 (n : Z) : string :=
  HexadecimalString.NilZero.string_of_int (Z.to_hex_int n).

Definition toString10 (n : Z) : string :=
  DecimalString.NilZero.string_of_int (Z.to_int n).

(** ** Markers *)

Definition TINY_STRING := 0x80.
Definition TINY_LIST := 0x90.
Definition TINY_MAP := 0xA0.
Definition TINY_STRUCT := 0xB0.
Definition NULL := 0xC0.
Definition FLOAT_64 := 0xC1.
Definition FALSE := 0xC2.
Definition TRUE := 0xC3.
Definition INT_8 := 0xC8.
Definition INT_16 := 0xC9.
Definition INT_32 := 0xCA.
Definition INT_64 := 0xCB.
Definition STRING_8 := 0xD0.
Definition STRING_16 := 0xD1.
Definition STRING_32 := 0xD2.
Definition LIST_8 := 0xD4.
Definition LIST_16 := 0xD5.
Definition LIST_32 := 0xD6.
Definition MAP_8 := 0xD8.
Definition MAP_16 := 0xD9.
Definition MAP_32 := 0xDA.
Definition STRUCT_8 := 0xDC.
Definition STRUCT_16 := 0xDD.

(** ** Values *)

(** Modelled from the spec: the [Integer] class of [../integer] is not in
    the source tree.  It carries [(high: int32, low: int32)] and
    "represents exactly the mathematical integer
    [high * 2^32 + (low & 0xFFFFFFFF)]"; its comparisons "agree with that
    integer value across the full 64-bit signed range". *)
Record Integer : Type := mkInteger { low : Z; high : Z }.

Definition Integer_toZ (x : Integer) : Z :=
  high x * 2 ^ 32 + Z.land (low x) 0xFFFFFFFF.

Definition greaterThanOrEqual (x : Integer) (other : Z) : bool :=
  other <=? Integer_toZ x.

Definition lessThan (x : Integer) (other : Z) : bool :=
  Integer_toZ x <? other.

(** Modelled from the spec: [int(n)], "construction from a native 32-bit
    signed value" (the two's-complement split of [n]). *)
Definition int (n : Z) : Integer :=
  mkInteger (toInt32 n) (toInt32 (n / 2 ^ 32)).

(** An [Integer] as the constructor leaves it: both halves are int32. *)
Definition int32 (z : Z) : Prop := - 2 ^ 31 <= z < 2 ^ 31.

Definition Integer_wf (x : Integer) : Prop := int32 (low x) /\ int32 (high x).

Inductive value : Type :=
| VUndefined
| VNull
| VBool (b : bool)
| VNumber (bits : Z)
| VString (s : string)
| VInteger (x : Integer)
| VArray (elems : list value)
| VStructure (signature : Z) (fields : list value)
| VObject (props : list (string * value)).

Definition is_undefined (v : value) : bool :=
  match v with VUndefined => true | _ => false end.

(** [Object.keys(x)] and [x[key]] on a plain object. *)
Definition Object_keys (props : list (string * value)) : list string :=
  map fst props.

Fixpoint get_prop (props : list (string * value)) (key : string) : value :=
  match props with
  | [] => VUndefined
  | (k, v) :: rest => if String.eqb k key then v else get_prop rest key
  end.

(** An array index is the decimal numeral, without a leading zero, of an
    integer below 2^32 - 1.  The own properties of an object are listed
    with the array indices first, in ascending order, and then the other
    names in the order in which they were created. *)
Definition digit_value (c : ascii) : option Z :=
  let n := Z.of_N (N_of_ascii c) in
  if (48 <=? n) && (n <=? 57) then Some (n - 48) else None.

Fixpoint digits_value (s : string) (acc : Z) : option Z :=
  match s with
  | EmptyString => Some acc
  | String c rest =>
      match digit_value c with
      | Some d => digits_value rest (10 * acc + d)
      | None => None
      end
  end.

Definition array_index (key : string) : option Z :=
  match key with
  | EmptyString => None
  | String c rest =>
      if Ascii.eqb c "0" && negb (String.eqb rest EmptyString) then None
      else match digits_value key 0 with
           | Some n => if n <? 2 ^ 32 - 1 then Some n else None
           | None => None
           end
  end.

(** Whether a new property [key] is listed before the property [k]. *)
Definition listed_before (key k : string) : bool :=
  match array_index key, array_index k with
  | Some i, Some j => i <? j
  | Some _, None => true
  | None, _ => false
  end.

Definition has_own_property (props : list (string * value)) (key : string)
    : bool :=
  existsb (String.eqb key) (Object_keys props).

Fixpoint replace_prop (props : list (string * value)) (key : string)
    (v : value) : list (string * value) :=
  match props with
  | [] => []
  | (k, w) :: rest =>
      if String.eqb k key then (k, v) :: rest
      else (k, w) :: replace_prop rest key v
  end.

Fixpoint insert_prop (props : list (string * value)) (key : string)
    (v : value) : list (string * value) :=
  match props with
  | [] => [(key, v)]
  | (k, w) :: rest =>
      if listed_before key k then (key, v) :: (k, w) :: rest
      else (k, w) :: insert_prop rest key v
  end.

(** The own data property [key] is given the value [v]: an existing
    property keeps its place, a new one takes its place in the listing. *)
Definition define_prop (props : list (string * value)) (key : string)
    (v : value) : list (string * value) :=
  if has_own_property props key then replace_prop props key v
  else insert_prop props key v.

(** An object made by [{}], while it is filled: its own properties, and
    whether [Object.prototype] is still on its prototype chain, so that
    it inherits the accessor [__proto__]. *)
Record object : Type :=
  mkObject { own : list (string * value); inherits_proto : bool }.

Definition empty_object : object := mkObject [] true.

(** [o[key] = v].  The name [__proto__] is inherited from
    [Object.prototype] as an accessor, so that assigning to it creates no
    own property: the setter replaces the prototype of [o] when [v] is an
    object or null, and ignores any other value.  A null prototype takes
    the accessor away, and [__proto__] is an ordinary name from then on.
    Every other assignment defines an own property.  (The values of the
    model do not record their prototype: an object that becomes the
    prototype of [o] is taken to have [Object.prototype] on its own
    chain.) *)
Definition set_prop (o : object) (key : string) (v : value) : object :=
  if String.eqb key "__proto__" && inherits_proto o then
    match v with
    | VNull => mkObject (own o) false
    | _ => o
    end
  else mkObject (define_prop (own o) key v) (inherits_proto o).

(** Modelled from the spec: the UTF-8 helper of [./utf8] is not in the
    source tree.  "[encode(string) -> byteSequence]"; a string value is
    its "UTF-8 byte sequence", so encoding lists the bytes. *)
Definition utf8_encode (s : string) : list Z :=
  map (fun c => Z.of_N (N_of_ascii c)) (list_ascii_of_string s).

Definition utf8_decode_bytes (bytes : list Z) : string :=
  string_of_list_ascii (map (fun b => ascii_of_N (Z.to_N b)) bytes).

(** ** The channel (byte sink) *)

(** Modelled from the spec: the channel of [./buf] / the chunking layer is
    not in the source tree.  The byte sink's operations each write
    "big-endian where applicable and advanc[e] an internal cursor".  The
    state also records what was handed to a recording [onError]. *)
Record sink : Type := mkSink { written : list Z; reported : list exn }.

Definition emit (bytes : list Z) : M sink unit :=
  fun s => Ok tt (mkSink (written s ++ bytes) (reported s)).

Fixpoint be_bytes (n : nat) (v : Z) : list Z :=
  match n with
  | O => []
  | Datatypes.S k => (v / 256 ^ Z.of_nat k) mod 256 :: be_bytes k v
  end.

Definition writeUInt8 (v : Z) : M sink unit := emit (be_bytes 1 v).
Definition writeInt8 (v : Z) : M sink unit := emit (be_bytes 1 v).
Definition writeInt16 (v : Z) : M sink unit := emit (be_bytes 2 v).
Definition writeInt32 (v : Z) : M sink unit := emit (be_bytes 4 v).
Definition writeFloat64 (bits : Z) : M sink unit := emit (be_bytes 8 bits).
Definition writeBytes (bytes : list Z) : M sink unit := emit bytes.

(** The [onError] argument: a function of the caller, or [undefined]. *)
Definition callback : Type := exn -> M sink unit.

(** A callback that records the error it is given. *)
Definition record_error : callback :=
  fun e s => Ok tt (mkSink (written s) (reported s ++ [e])).

(** [onError(e)]: calling [undefined] raises a TypeError. *)
Definition call (onError : option callback) (e : exn) : M sink unit :=
  match onError with
  | Some f => f e
  | None => throw (TypeError "onError is not a function")
  end.

(** ** Packer *)

Definition packInteger (x : Integer) : M sink unit :=
  if greaterThanOrEqual x (-0x10) && lessThan x 0x80 then
    writeInt8 (low x)
  else if greaterThanOrEqual x (-0x80) && lessThan x (-0x10) then
    writeUInt8 INT_8 ;;
    writeInt8 (low x)
  else if greaterThanOrEqual x (-0x8000) && lessThan x 0x8000 then
    writeUInt8 INT_16 ;;
    writeInt16 (low x)
  else if greaterThanOrEqual x (-0x80000000) && lessThan x 0x80000000 then
    writeUInt8 INT_32 ;;
    writeInt32 (low x)
  else
    writeUInt8 INT_64 ;;
    writeInt32 (high x) ;;
    writeInt32 (low x).

Definition packFloat (bits : Z) : M sink unit :=
  writeUInt8 FLOAT_64 ;;
  writeFloat64 bits.

Definition not_supported (what : string) (size : Z) : exn :=
  newError (what ++ " of size " ++ toString10 size ++ " are not supported")%string.

Definition packString (x : string) (onError : option callback) : M sink unit :=
  let bytes := utf8_encode x in
  let size := Z.of_nat (length bytes) in
  if size <? 0x10 then
    writeUInt8 (Z.lor TINY_STRING size) ;;
    writeBytes bytes
  else if size <? 0x100 then
    writeUInt8 STRING_8 ;;
    writeUInt8 size ;;
    writeBytes bytes
  else if size <? 0x10000 then
    writeUInt8 STRING_16 ;;
    writeUInt8 (div_shr0 size 256) ;;
    writeUInt8 (js_rem size 256) ;;
    writeBytes bytes
  else if size <? 0x100000000 then
    writeUInt8 STRING_32 ;;
    writeUInt8 (js_rem (div_shr0 size 16777216) 256) ;;
    writeUInt8 (js_rem (div_shr0 size 65536) 256) ;;
    writeUInt8 (js_rem (div_shr0 size 256) 256) ;;
    writeUInt8 (js_rem size 256) ;;
    writeBytes bytes
  else
    call onError (not_supported "UTF-8 strings" size).

Definition packListHeader (size : Z) (onError : option callback) : M sink unit :=
  if size <? 0x10 then
    writeUInt8 (Z.lor TINY_LIST size)
  else if size <? 0x100 then
    writeUInt8 LIST_8 ;;
    writeUInt8 size
  else if size <? 0x10000 then
    writeUInt8 LIST_16 ;;
    writeUInt8 (js_rem (div_shr0 size 256) 256) ;;
    writeUInt8 (js_rem size 256)
  else if size <? 0x100000000 then
    writeUInt8 LIST_32 ;;
    writeUInt8 (js_rem (div_shr0 size 16777216) 256) ;;
    writeUInt8 (js_rem (div_shr0 size 65536) 256) ;;
    writeUInt8 (js_rem (div_shr0 size 256) 256) ;;
    writeUInt8 (js_rem size 256)
  else
    call onError (not_supported "Lists" size).

Definition packMapHeader (size : Z) (onError : option callback) : M sink unit :=
  if size <? 0x10 then
    writeUInt8 (Z.lor TINY_MAP size)
  else if size <? 0x100 then
    writeUInt8 MAP_8 ;;
    writeUInt8 size
  else if size <? 0x10000 then
    writeUInt8 MAP_16 ;;
    writeUInt8 (div_shr0 size 256) ;;
    writeUInt8 (js_rem size 256)
  else if size <? 0x100000000 then
    writeUInt8 MAP_32 ;;
    writeUInt8 (js_rem (div_shr0 size 16777216) 256) ;;
    writeUInt8 (js_rem (div_shr0 size 65536) 256) ;;
    writeUInt8 (js_rem (div_shr0 size 256) 256) ;;
    writeUInt8 (js_rem size 256)
  else
    call onError (not_supported "Maps" size).

Definition packStructHeader (size : Z) (signature : Z)
    (onError : option callback) : M sink unit :=
  if size <? 0x10 then
    writeUInt8 (Z.lor TINY_STRUCT size) ;;
    writeUInt8 signature
  else if size <? 0x100 then
    writeUInt8 STRUCT_8 ;;
    writeUInt8 size ;;
    writeUInt8 signature
  else if size <? 0x10000 then
    writeUInt8 STRUCT_16 ;;
    writeUInt8 (div_shr0 size 256) ;;
    writeUInt8 (js_rem size 256)
  else
    call onError (not_supported "Structures" size).

(** What [packable] returns: a function of no argument. *)
Definition thunk : Type := M sink unit.

(** [f()] where [f] was read from an array: a hole is not callable. *)
Definition not_callable : thunk :=
  throw (TypeError "packableFields[i] is not a function").

Definition packStruct (signature : Z) (packableFields : list thunk)
    (onError : option callback) : M sink unit :=
  packStructHeader (Z.of_nat (length packableFields)) signature onError ;;
  for_loop (length packableFields) (fun i => nth i packableFields not_callable).

(** The body of [packable]; [this_packable] is [this.packable].  The
    branches follow the source's ladder: [VUndefined] is the one value of
    the model that reaches the final [else]. *)
Definition packable_body
    (this_packable : value -> option callback -> M sink thunk)
    (x : value) (onError : option callback) : M sink thunk :=
  match x with
  | VNull => ret (writeUInt8 NULL)
  | VBool true => ret (writeUInt8 TRUE)
  | VBool false => ret (writeUInt8 FALSE)
  | VNumber bits => ret (packFloat bits)
  | VString s => ret (packString s onError)
  | VInteger i => ret (packInteger i)
  | VArray elems =>
      ret (packListHeader (Z.of_nat (length elems)) onError ;;
           for_loop (length elems) (fun i =>
             let xi := nth i elems VUndefined in
             f <- this_packable (if is_undefined xi then VNull else xi) onError ;;
             f))
  | VStructure signature fields =>
      packableFields <-
        for_fold 0 (length fields) (fun i packableFields =>
          f <- this_packable (nth i fields VUndefined) onError ;;
          ret (packableFields ++ [f])) [] ;;
      ret (packStruct signature packableFields None)
  | VObject props =>
      ret (let keys := Object_keys props in
           count <-
             for_fold 0 (length keys) (fun i count =>
               ret (if is_undefined (get_prop props (nth i keys ""%string))
                    then count else count + 1)) 0 ;;
           packMapHeader count onError ;;
           for_loop (length keys) (fun i =>
             let key := nth i keys ""%string in
             if is_undefined (get_prop props key) then ret tt
             else
               packString key None ;;
               f <- this_packable (get_prop props key) onError ;;
               f))
  | VUndefined =>
      match onError with
      | Some f => f (newError "Cannot pack this value: undefined")
      | None => ret tt
      end ;;
      ret (ret tt)
  end.

Fixpoint packable (fuel : nat) (x : value) (onError : option callback)
    : M sink thunk :=
  match fuel with
  | O => out_of_fuel
  | Datatypes.S n => packable_body (packable n) x onError
  end.

(** The nesting depth of a value: fuel [height x + 1] lets [packable]
    reach every leaf of [x]. *)
Fixpoint height (v : value) : nat :=
  match v with
  | VArray elems => Datatypes.S (list_max (map height elems))
  | VStructure _ fields => Datatypes.S (list_max (map height fields))
  | VObject props => Datatypes.S (list_max (map (fun p => height (snd p)) props))
  | _ => O
  end.

(** [packer.packable(x, onError)()]. *)
Definition pack (x : value) (onError : option callback) : M sink unit :=
  f <- packable (Datatypes.S (height x)) x onError ;;
  f.

Definition empty_sink : sink := mkSink [] [].

(** The bytes written by a run that started on an empty channel. *)
Definition bytes_of (r : outcome sink unit) : option (list Z) :=
  match r with
  | Ok _ s => Some (written s)
  | _ => None
  end.

(** ** The buffer (byte source) *)

(** Modelled from the spec: the buffer of [./buf] is not in the source
    tree.  The byte source's operations each read "big-endian and advanc[e]
    the cursor"; truncated input is a failure of the byte source.  The
    state is the sequence of bytes that are still unread. *)
Definition source : Type := list Z.

Definition readBytes (n : nat) : M source (list Z) :=
  fun s =>
    if (n <=? length s)%nat then Ok (firstn n s) (skipn n s)
    else Throw (RangeError "Index out of range") s.

Definition be_value (bytes : list Z) : Z :=
  fold_left (fun acc b => acc * 256 + b) bytes 0.

Definition signed (width : Z) (v : Z) : Z :=
  if v <? 2 ^ (width - 1) then v else v - 2 ^ width.

Definition readUnsigned (n : nat) : M source Z :=
  bytes <- readBytes n ;; ret (be_value bytes).

Definition readSigned (n : nat) : M source Z :=
  bytes <- readBytes n ;; ret (signed (8 * Z.of_nat n) (be_value bytes)).

Definition readUInt8 : M source Z := readUnsigned 1.
Definition readInt8 : M source Z := readSigned 1.
Definition readUInt16 : M source Z := readUnsigned 2.
Definition readInt16 : M source Z := readSigned 2.
Definition readUInt32 : M source Z := readUnsigned 4.
Definition readInt32 : M source Z := readSigned 4.
Definition readFloat64 : M source Z := readUnsigned 8.

(** Modelled from the spec: "[decode(source, byteCount) -> string]
    (consumes exactly [byteCount] bytes)". *)
Definition utf8_decode (byteCount : Z) : M source value :=
  bytes <- readBytes (Z.to_nat byteCount) ;; ret (VString (utf8_decode_bytes bytes)).

(** ** Unpacker *)

(** A struct mapper is called as [mapper(unpacker, buffer)]; the unpacker
    is represented by its [unpack] method. *)
Definition mapper : Type := M source value -> M source value.

Section Unpacker.

(** The host's conversion of a value that is not a string to a property
    key (what [value[key]] does to [key]): it returns a string or throws,
    as it does for an object that has no callable [toString] and
    [valueOf]. *)
Variable ToString : value -> exn + string.

(** [this.structMappers], keyed by signature. *)
Variable structMappers : Z -> option mapper.

Definition property_key (key : value) : exn + string :=
  match key with
  | VString s => inr s
  | _ => ToString key
  end.

Definition unpackList (this_unpack : M source value) (size : Z)
    : M source value :=
  value <-
    for_fold 0 (Z.to_nat size) (fun _ value =>
      v <- this_unpack ;;
      ret (value ++ [v])) [] ;;
  ret (VArray value).

(** In [value[key] = this.unpack(buffer)] the right-hand side is evaluated
    before [key] is converted to a property key. *)
Definition unpackMap (this_unpack : M source value) (size : Z)
    : M source value :=
  value <-
    for_fold 0 (Z.to_nat size) (fun _ value =>
      key <- this_unpack ;;
      v <- this_unpack ;;
      name <- lift (property_key key) ;;
      ret (set_prop value name v)) empty_object ;;
  ret (VObject (own value)).

Definition unpackStruct (this_unpack : M source value) (size : Z)
    : M source value :=
  signature <- readUInt8 ;;
  match structMappers signature with
  | Some mapper => mapper this_unpack
  | None =>
      fields <-
        for_fold 0 (Z.to_nat size) (fun _ fields =>
          v <- this_unpack ;;
          ret (fields ++ [v])) [] ;;
      ret (VStructure signature fields)
  end.

Definition unknown_marker_message (marker : Z) : string :=
  ("Unknown packed value with marker " ++ toString16 marker)%string.

(** The body of [unpack]; [this_unpack] is [this.unpack(buffer)]. *)
Definition unpack_body (this_unpack : M source value) : M source value :=
  marker <- readUInt8 ;;
  if marker =? NULL then ret VNull
  else if marker =? TRUE then ret (VBool true)
  else if marker =? FALSE then ret (VBool false)
  else if marker =? FLOAT_64 then
    bits <- readFloat64 ;; ret (VNumber bits)
  else if (0 <=? marker) && (marker <? 128) then
    ret (VInteger (int marker))
  else if (240 <=? marker) && (marker <? 256) then
    ret (VInteger (int (marker - 256)))
  else if marker =? INT_8 then
    b <- readInt8 ;; ret (VInteger (int b))
  else if marker =? INT_16 then
    b <- readInt16 ;; ret (VInteger (int b))
  else if marker =? INT_32 then
    b <- readInt32 ;; ret (VInteger (int b))
  else if marker =? INT_64 then
    high <- readInt32 ;;
    low <- readInt32 ;;
    ret (VInteger (mkInteger low high))
  else if marker =? STRING_8 then
    n <- readUInt8 ;; utf8_decode n
  else if marker =? STRING_16 then
    n <- readUInt16 ;; utf8_decode n
  else if marker =? STRING_32 then
    n <- readUInt32 ;; utf8_decode n
  else if marker =? LIST_8 then
    n <- readUInt8 ;; unpackList this_unpack n
  else if marker =? LIST_16 then
    n <- readUInt16 ;; unpackList this_unpack n
  else if marker =? LIST_32 then
    n <- readUInt32 ;; unpackList this_unpack n
  else if marker =? MAP_8 then
    n <- readUInt8 ;; unpackMap this_unpack n
  else if marker =? MAP_16 then
    n <- readUInt16 ;; unpackMap this_unpack n
  else if marker =? MAP_32 then
    n <- readUInt32 ;; unpackMap this_unpack n
  else if marker =? STRUCT_8 then
    n <- readUInt8 ;; unpackStruct this_unpack n
  else if marker =? STRUCT_16 then
    n <- readUInt16 ;; unpackStruct this_unpack n
  else
    let markerHigh := Z.land marker 0xF0 in
    let markerLow := Z.land marker 0x0F in
    if markerHigh =? 0x80 then utf8_decode markerLow
    else if markerHigh =? 0x90 then unpackList this_unpack markerLow
    else if markerHigh =? 0xA0 then unpackMap this_unpack markerLow
    else if markerHigh =? 0xB0 then unpackStruct this_unpack markerLow
    else throw (newError (unknown_marker_message marker)).

Fixpoint unpack (fuel : nat) : M source value :=
  match fuel with
  | O => out_of_fuel
  | Datatypes.S n => unpack_body (unpack n)
  end.

End Unpacker.

(** A freshly constructed Unpacker: [this.structMappers = {}]. *)
Definition no_mappers : Z -> option mapper := fun _ => None.


(** ** Specification-level definitions *)

(** The integer tiers of the encoding table, as a function of the numeric
    value alone; [be_bytes n v] is the [n]-byte two's-complement big-endian
    image of [v]. *)
Definition integer_tier (v : Z) : list Z :=
  if (-16 <=? v) && (v <? 128) then be_bytes 1 v
  else if (-128 <=? v) && (v <? -16) then 0xC8 :: be_bytes 1 v
  else if (- 2 ^ 15 <=? v) && (v <? 2 ^ 15) then 0xC9 :: be_bytes 2 v
  else if (- 2 ^ 31 <=? v) && (v <? 2 ^ 31) then 0xCA :: be_bytes 4 v
  else 0xCB :: be_bytes 8 v.

(** [m] appends [bytes] to the channel and does nothing else. *)
Definition emits (m : M sink unit) (bytes : list Z) : Prop :=
  forall s, m s = Ok tt (mkSink (written s ++ bytes) (reported s)).

(** A size header of the marker table: the size in the marker's low nibble
    below 16, else a marker and the size as a big-endian unsigned integer
    of 1, 2 or 4 bytes. *)
Definition size_header (tiny m8 m16 m32 : Z) (size : Z) : list Z :=
  if size <? 0x10 then [tiny + size]
  else if size <? 0x100 then [m8; size]
  else if size <? 0x10000 then m16 :: be_bytes 2 size
  else m32 :: be_bytes 4 size.

Definition string_header : Z -> list Z :=
  size_header TINY_STRING STRING_8 STRING_16 STRING_32.
Definition list_header : Z -> list Z :=
  size_header TINY_LIST LIST_8 LIST_16 LIST_32.
Definition map_header : Z -> list Z :=
  size_header TINY_MAP MAP_8 MAP_16 MAP_32.

(** Iteration over a list, the specification-level counterpart of the
    index loops of the source. *)
Fixpoint foldM {S A B} (body : B -> A -> M S A) (l : list B) (acc : A)
    : M S A :=
  match l with
  | [] => ret acc
  | b :: l' => acc' <- body b acc ;; foldM body l' acc'
  end.

Definition each {S B} (f : B -> M S unit) (l : list B) : M S unit :=
  foldM (fun b _ => f b) l tt.

(** [x === undefined ? null : x]. *)
Definition undefined_to_null (x : value) : value :=
  if is_undefined x then VNull else x.

(** An entry of a map input survives when its value is not [undefined]. *)
Definition defined (p : string * value) : bool := negb (is_undefined (snd p)).

(** What the Packer writes for one surviving entry: the key as a String,
    then the packed value. *)
Definition pack_entry (onError : option callback) (p : string * value)
    : M sink unit :=
  packString (fst p) None ;; pack (snd p) onError.

(** [unpacks u n buf vs buf']: [n] successive calls of [u], started on
    [buf], return the values [vs] in this order and leave [buf']. *)
Inductive unpacks (u : M source value)
    : nat -> source -> list value -> source -> Prop :=
| unpacks_nil (buf : source) : unpacks u 0 buf [] buf
| unpacks_cons (n : nat) (buf buf1 buf' : source) (v : value)
    (vs : list value) :
    u buf = Ok v buf1 ->
    unpacks u n buf1 vs buf' ->
    unpacks u (S n) buf (v :: vs) buf'.

(** The same for the entries of a map: a key, then its value. *)
Inductive unpacks_entries (u : M source value)
    : nat -> source -> list (value * value) -> source -> Prop :=
| unpacks_entries_nil (buf : source) : unpacks_entries u 0 buf [] buf
| unpacks_entries_cons (n : nat) (buf buf1 buf2 buf' : source)
    (key v : value) (entries : list (value * value)) :
    u buf = Ok key buf1 ->
    u buf1 = Ok v buf2 ->
    unpacks_entries u n buf2 entries buf' ->
    unpacks_entries u (S n) buf ((key, v) :: entries) buf'.

(** The headers that announce a structure of [size] fields. *)
Inductive struct_header : Z -> list Z -> Prop :=
| struct_header_tiny (size : Z) :
    0 <= size < 16 -> struct_header size [TINY_STRUCT + size]
| struct_header_8 (size : Z) :
    0 <= size < 256 -> struct_header size [STRUCT_8; size]
| struct_header_16 (hi lo : Z) :
    0 <= hi < 256 -> 0 <= lo < 256 ->
    struct_header (hi * 256 + lo) [STRUCT_16; hi; lo].

(** The markers that are not part of the grammar. *)
Definition unknown_markers : list Z :=
  [0xC4; 0xC5; 0xC6; 0xC7; 0xCC; 0xCD; 0xCE; 0xCF; 0xD3; 0xD7; 0xDB; 0xDE;
   0xDF; 0xE0; 0xE1; 0xE2; 0xE3; 0xE4; 0xE5; 0xE6; 0xE7; 0xE8; 0xE9; 0xEA;
   0xEB; 0xEC; 0xED; 0xEE; 0xEF].

(** Lower-case hexadecimal digits. *)
Definition hex_digit (d : Z) : ascii :=
  nth (Z.to_nat d)
      ["0"; "1"; "2"; "3"; "4"; "5"; "6"; "7"; "8"; "9";
       "a"; "b"; "c"; "d"; "e"; "f"]%char "0"%char.

(** The two-digit lower-case hexadecimal numeral of a byte. *)
Definition hex2 (b : Z) : string :=
  String (hex_digit (b / 16)) (String (hex_digit (b mod 16)) EmptyString).

(** A registry as a higher layer installs it: one mapper, for signature
    0x4E, that reads one value and wraps it. *)
Definition wrap_mapper : mapper :=
  fun this_unpack => v <- this_unpack ;; ret (VArray [v]).

Definition one_mapper : Z -> option mapper :=
  fun signature => if signature =? 0x4E then Some wrap_mapper else None.

(** The object that the assignments [value[key] = v], made in the order of
    [entries], build from [{}]. *)
Definition assign (o : object) (e : string * value) : object :=
  set_prop o (fst e) (snd e).

Definition assign_all (entries : list (string * value)) : object :=
  fold_left assign entries empty_object.

(** The value of the last entry of [entries] whose key is [key]
    ([VUndefined] when there is none). *)
Definition last_value (entries : list (string * value)) (key : string)
    : value :=
  get_prop (rev entries) key.

(** The values of the grammar whose strings, lists, maps and structs are
    within the size limits.  [undefined] is allowed where the Packer has
    a rule for it: as an element of a list and as the value of a map
    entry.  Structs are limited to the tiny and 8-bit tiers. *)
Inductive within_limits : value -> Prop :=
| wl_null : within_limits VNull
| wl_bool (b : bool) : within_limits (VBool b)
| wl_number (bits : Z) : 0 <= bits < 2 ^ 64 -> within_limits (VNumber bits)
| wl_string (s : string) :
    Z.of_nat (length (utf8_encode s)) < 2 ^ 32 -> within_limits (VString s)
| wl_integer (x : Integer) : Integer_wf x -> within_limits (VInteger x)
| wl_array (elems : list value) :
    Z.of_nat (length elems) < 2 ^ 32 ->
    Forall (fun x => x = VUndefined \/ within_limits x) elems ->
    within_limits (VArray elems)
| wl_structure (signature : Z) (fields : list value) :
    0 <= signature < 256 ->
    Z.of_nat (length fields) < 256 ->
    Forall within_limits fields ->
    within_limits (VStructure signature fields)
| wl_object (props : list (string * value)) :
    NoDup (Object_keys props) ->
    Z.of_nat (length props) < 2 ^ 32 ->
    Forall (fun p => Z.of_nat (length (utf8_encode (fst p))) < 2 ^ 32 /\
                     (snd p = VUndefined \/ within_limits (snd p))) props ->
    within_limits (VObject props).

(** What the two rules about [undefined] leave of a value: in a list it
    becomes Null, in a map its entry is dropped. *)
Fixpoint normalize (v : value) : value :=
  match v with
  | VArray elems => VArray (map (fun x => undefined_to_null (normalize x)) elems)
  | VStructure signature fields => VStructure signature (map normalize fields)
  | VObject props =>
      VObject (flat_map (fun p => if defined p
                                  then [(fst p, normalize (snd p))]
                                  else []) props)
  | _ => v
  end.

(** The encoding of the marker table, as a function. *)
Definition encode_string (s : string) : list Z :=
  string_header (Z.of_nat (length (utf8_encode s))) ++ utf8_encode s.

(** An [undefined] element of a list is written as Null. *)
Fixpoint encode (v : value) : list Z :=
  match v with
  | VUndefined => [NULL]
  | VNull => [NULL]
  | VBool true => [TRUE]
  | VBool false => [FALSE]
  | VNumber bits => FLOAT_64 :: be_bytes 8 bits
  | VString s => encode_string s
  | VInteger x => integer_tier (Integer_toZ x)
  | VArray elems =>
      list_header (Z.of_nat (length elems)) ++ concat (map encode elems)
  | VStructure signature fields =>
      (if Z.of_nat (length fields) <? 0x10
       then [TINY_STRUCT + Z.of_nat (length fields); signature]
       else [STRUCT_8; Z.of_nat (length fields); signature])
      ++ concat (map encode fields)
  | VObject props =>
      map_header (Z.of_nat (length (filter defined props)))
      ++ concat (map (fun p => if defined p
                               then encode_string (fst p) ++ encode (snd p)
                               else []) props)
  end.

(** [announces tiny m8 m16 m32 size header]: [header] is one of the
    headers that the Unpacker accepts for [size]. *)
Inductive announces (tiny m8 m16 m32 : Z) : Z -> list Z -> Prop :=
| announces_tiny (size : Z) :
    0 <= size < 16 -> announces tiny m8 m16 m32 size [tiny + size]
| announces_8 (size : Z) :
    0 <= size < 2 ^ 8 -> announces tiny m8 m16 m32 size [m8; size]
| announces_16 (size : Z) :
    0 <= size < 2 ^ 16 ->
    announces tiny m8 m16 m32 size (m16 :: be_bytes 2 size)
| announces_32 (size : Z) :
    0 <= size < 2 ^ 32 ->
    announces tiny m8 m16 m32 size (m32 :: be_bytes 4 size).

(** What a fresh Unpacker reads back from the encoding of a value: the
    two rules about [undefined] apply, and a map is the object that the
    assignments of its written entries build. *)
Fixpoint reread (v : value) : value :=
  match v with
  | VArray elems => VArray (map (fun x => undefined_to_null (reread x)) elems)
  | VStructure signature fields => VStructure signature (map reread fields)
  | VObject props =>
      VObject (own (fold_left
                      (fun o p => if defined p
                                  then set_prop o (fst p) (reread (snd p))
                                  else o)
                      props empty_object))
  | _ => v
  end.

(** The entries that the Unpacker reads from the body of an encoded map. *)
Definition read_entries (props : list (string * value))
    : list (value * value) :=
  flat_map (fun p => if defined p then [(VString (fst p), reread (snd p))]
                     else []) props.

(** [v], if within the limits, is read back from its encoding. *)
Definition reads_back_by (ToString : value -> exn + string)
    (structMappers : Z -> option mapper) (v : value) : Prop :=
  within_limits v ->
  forall fuel rest,
    (height v < fuel)%nat ->
    unpack ToString structMappers fuel (encode v ++ rest)
    = Ok (reread v) rest.

(** The names of own properties as [Object.keys] lists them: array
    indices in ascending order, then the other names; [last] is the
    index before. *)
Fixpoint keys_in_order (last : Z) (keys : list string) : bool :=
  match keys with
  | [] => true
  | key :: rest =>
      match array_index key with
      | Some i => (last <? i) && keys_in_order i rest
      | None => forallb (fun k => match array_index k with
                                  | Some _ => false
                                  | None => true
                                  end) rest
      end
  end.

(** The values all of whose maps can be the result of [unpackMap]: the
    names of their entries are in the order of [Object.keys], and none is
    [__proto__]. *)
Fixpoint plain_keys (v : value) : bool :=
  match v with
  | VArray elems => forallb plain_keys elems
  | VStructure _ fields => forallb plain_keys fields
  | VObject props =>
      keys_in_order (-1) (Object_keys props)
      && forallb (fun p => negb (String.eqb (fst p) "__proto__")
                           && plain_keys (snd p)) props
  | _ => true
  end.

(** [packable] of a value within the limits reports nothing and returns a
    function that writes the encoding of the value. *)
Definition packs_to_encoding (onError : option callback) (v : value) : Prop :=
  within_limits v ->
  exists t : thunk,
    packable (S (height v)) v onError = ret t /\ emits t (encode v).

(** [agree_below k m1 m2]: on every buffer of fewer than [k] bytes, [m1]
    and [m2] have the same outcome, this outcome is not an exhausted fuel
    counter, and a result leaves no more bytes than there were. *)
Definition agree_below {A} (k : nat) (m1 m2 : M source A) : Prop :=
  forall buf,
    (length buf < k)%nat ->
    m1 buf = m2 buf /\
    m1 buf <> OutOfFuel /\
    forall a rest, m1 buf = Ok a rest -> (length rest <= length buf)%nat.

(** The mappers of a registry reach the buffer through the unpacker they
    are given only. *)
Definition mappers_agree (structMappers : Z -> option mapper) : Prop :=
  forall signature mp,
    structMappers signature = Some mp ->
    forall k u1 u2, agree_below k u1 u2 -> agree_below k (mp u1) (mp u2).

(** [extends m]: a result of [m] does not depend on the bytes that follow
    the ones it consumed. *)
Definition extends {A} (m : M source A) : Prop :=
  forall buf a rest more,
    m buf = Ok a rest -> m (buf ++ more) = Ok a (rest ++ more).

Definition mappers_extend (structMappers : Z -> option mapper) : Prop :=
  forall signature mp,
    structMappers signature = Some mp ->
    forall u, extends u -> extends (mp u).

(** The error that [packable] reports for a value it cannot pack. *)
Definition cannot_pack : exn := newError "Cannot pack this value: undefined".

(** The values whose sizes are within the limits, with [undefined] allowed
    everywhere: also as a field of a structure and as the value itself,
    where the Packer cannot pack it. *)
Inductive sized : value -> Prop :=
| sz_undefined : sized VUndefined
| sz_null : sized VNull
| sz_bool (b : bool) : sized (VBool b)
| sz_number (bits : Z) : sized (VNumber bits)
| sz_string (s : string) :
    Z.of_nat (length (utf8_encode s)) < 2 ^ 32 -> sized (VString s)
| sz_integer (x : Integer) : sized (VInteger x)
| sz_array (elems : list value) :
    Z.of_nat (length elems) < 2 ^ 32 ->
    Forall sized elems ->
    sized (VArray elems)
| sz_structure (signature : Z) (fields : list value) :
    Z.of_nat (length fields) < 256 ->
    Forall sized fields ->
    sized (VStructure signature fields)
| sz_object (props : list (string * value)) :
    NoDup (Object_keys props) ->
    Z.of_nat (length props) < 2 ^ 32 ->
    Forall (fun p => Z.of_nat (length (utf8_encode (fst p))) < 2 ^ 32 /\
                     sized (snd p)) props ->
    sized (VObject props).

(** The bytes that reach the channel: nothing for a value that cannot be
    packed. *)
Fixpoint wire (v : value) : list Z :=
  match v with
  | VUndefined => []
  | VNull => [NULL]
  | VBool true => [TRUE]
  | VBool false => [FALSE]
  | VNumber bits => FLOAT_64 :: be_bytes 8 bits
  | VString s => encode_string s
  | VInteger x => integer_tier (Integer_toZ x)
  | VArray elems =>
      list_header (Z.of_nat (length elems))
      ++ concat (map (fun x => if is_undefined x then [NULL] else wire x) elems)
  | VStructure signature fields =>
      (if Z.of_nat (length fields) <? 0x10
       then [TINY_STRUCT + Z.of_nat (length fields); signature mod 256]
       else [STRUCT_8; Z.of_nat (length fields); signature mod 256])
      ++ concat (map wire fields)
  | VObject props =>
      map_header (Z.of_nat (length (filter defined props)))
      ++ concat (map (fun p => if defined p
                               then encode_string (fst p) ++ wire (snd p)
                               else []) props)
  end.

(** The number of errors reported while [packable] builds its result (the
    fields of a structure are visited at that time), and while the result
    runs; [w] is what one value that cannot be packed adds: 1 when an
    [onError] records it, 0 when there is no [onError]. *)
Fixpoint reported_early (w : nat) (v : value) : nat :=
  match v with
  | VUndefined => w
  | VStructure _ fields => list_sum (map (reported_early w) fields)
  | _ => 0
  end.

Fixpoint reported_late (w : nat) (v : value) : nat :=
  match v with
  | VArray elems =>
      list_sum (map (fun x => if is_undefined x then 0%nat
                              else (reported_early w x + reported_late w x)%nat)
                    elems)
  | VStructure _ fields => list_sum (map (reported_late w) fields)
  | VObject props =>
      list_sum (map (fun p => if defined p
                              then (reported_early w (snd p)
                                    + reported_late w (snd p))%nat
                              else 0%nat) props)
  | _ => 0%nat
  end.

(** The occurrences in [v] of a value that cannot be packed. *)
Definition unencodable (v : value) : nat :=
  (reported_early 1 v + reported_late 1 v)%nat.

(** [m] returns [a] after writing [bytes] and reporting [cannot_pack] [n]
    times. *)
Definition logs {A} (m : M sink A) (a : A) (bytes : list Z) (n : nat) : Prop :=
  forall s,
    m s = Ok a (mkSink (written s ++ bytes)
                       (reported s ++ repeat cannot_pack n)).

(** An outcome that is a value or the byte source's failure. *)
Definition value_or_truncated (r : outcome source value) : bool :=
  match r with
  | Ok _ [] => true
  | Throw (RangeError message) [] =>
      String.eqb message "Index out of range"
  | _ => false
  end.

(** The bytes: 0 .. 255. *)
Definition all_bytes : list Z := map Z.of_nat (seq 0 256).

(** A byte. *)
Definition byte (b : Z) : Prop := 0 <= b < 256.

(** The values that a fresh Unpacker can return: [undefined] occurs
    nowhere, the halves of an Integer are 32-bit, a number is a binary64
    image, a signature is a byte and the keys of a map are distinct. *)
Inductive decoded : value -> Prop :=
| dec_null : decoded VNull
| dec_bool (b : bool) : decoded (VBool b)
| dec_number (bits : Z) : 0 <= bits < 2 ^ 64 -> decoded (VNumber bits)
| dec_string (s : string) : decoded (VString s)
| dec_integer (x : Integer) : Integer_wf x -> decoded (VInteger x)
| dec_array (elems : list value) :
    Forall decoded elems -> decoded (VArray elems)
| dec_structure (signature : Z) (fields : list value) :
    byte signature -> Forall decoded fields ->
    decoded (VStructure signature fields)
| dec_object (props : list (string * value)) :
    NoDup (Object_keys props) ->
    Forall (fun p => decoded (snd p)) props ->
    decoded (VObject props).

(** [returns P m]: on a buffer of bytes, what [m] returns satisfies [P]
    and what it leaves is a buffer of bytes. *)
Definition returns {A} (P : A -> Prop) (m : M source A) : Prop :=
  forall buf a rest,
    Forall byte buf -> m buf = Ok a rest -> P a /\ Forall byte rest.

Definition mappers_decode (structMappers : Z -> option mapper) : Prop :=
  forall signature mp,
    structMappers signature = Some mp ->
    forall u, returns decoded u -> returns decoded (mp u).

(** [packable] of a sized value, when one call of [onError] adds [w]
    entries to the log. *)
Definition packs_and_reports (onError : option callback) (w : nat)
    (v : value) : Prop :=
  sized v ->
  exists t : thunk,
    logs (packable (S (height v)) v onError) t [] (reported_early w v) /\
    logs t tt (wire v) (reported_late w v).

(** * Proofs *)

(** ** The monad and the channel *)

Lemma emits_emit (bytes : list Z) : emits (emit bytes) bytes.
Proof. intro s. reflexivity. Qed.

Lemma emits_bind (m k : M sink unit) (a b : list Z) :
  emits m a -> emits k b -> emits (m ;; k) (a ++ b).
Proof.
  intros Hm Hk s. unfold bind. rewrite Hm, Hk. cbn.
  now rewrite app_assoc.
Qed.

Lemma emits_ret : emits (ret tt) [].
Proof. intro s. unfold ret. now rewrite app_nil_r; destruct s. Qed.

Lemma emits_eq (m : M sink unit) (a b : list Z) :
  emits m a -> a = b -> emits m b.
Proof. now intros H <-. Qed.

(** Decompose an [emits] goal along the binds of the computation; what
    is left is the equation between the byte sequences. *)
Ltac emits_step :=
  lazymatch goal with
  | |- emits (bind _ _) ?b =>
      tryif is_evar b then eapply emits_bind
      else (eapply emits_eq; [eapply emits_bind|])
  | |- emits (ret tt) ?b =>
      tryif is_evar b then apply emits_ret
      else (eapply emits_eq; [apply emits_ret|])
  | |- emits (?f _) ?b =>
      unfold f;
      tryif is_evar b then apply emits_emit
      else (eapply emits_eq; [apply emits_emit|])
  end.

(** ** Big-endian images *)

Lemma land_ones32 (z : Z) : Z.land z 0xFFFFFFFF = z mod 2 ^ 32.
Proof. change 0xFFFFFFFF with (Z.ones 32). now rewrite Z.land_ones. Qed.

Lemma Integer_toZ_split (x : Integer) :
  Integer_toZ x = low x mod 2 ^ 32 + high x * 2 ^ 32.
Proof. unfold Integer_toZ. rewrite land_ones32. lia. Qed.

(** The byte of weight [256^j] depends only on the value modulo
    [256^(j+1)]. *)
Lemma byte_mod (v : Z) (j : nat) (m : Z) :
  (exists q, m = 256 ^ Z.of_nat (Datatypes.S j) * q) -> 0 < m ->
  (v mod m / 256 ^ Z.of_nat j) mod 256 = (v / 256 ^ Z.of_nat j) mod 256.
Proof.
  intros [q ->] Hm.
  set (w := 256 ^ Z.of_nat j).
  assert (Hw : 0 < w) by (apply Z.pow_pos_nonneg; lia).
  assert (Hs : 256 ^ Z.of_nat (Datatypes.S j) = w * 256).
  { rewrite Nat2Z.inj_succ, Z.pow_succ_r by lia. unfold w. lia. }
  rewrite Hs in *.
  rewrite (Z.div_mod v (w * 256 * q)) at 2 by lia.
  replace (w * 256 * q * (v / (w * 256 * q)) + v mod (w * 256 * q))
    with (v mod (w * 256 * q) + (256 * q * (v / (w * 256 * q))) * w) by lia.
  rewrite Z.div_add by lia.
  replace (256 * q * (v / (w * 256 * q))) with ((q * (v / (w * 256 * q))) * 256) by lia.
  now rewrite Z.mod_add by lia.
Qed.

Lemma be_bytes_mod (n k : nat) (v : Z) :
  (n <= k)%nat -> be_bytes n (v mod 256 ^ Z.of_nat k) = be_bytes n v.
Proof.
  induction n as [|n IH]; intros Hk; [reflexivity|].
  cbn [be_bytes]. rewrite IH by lia. f_equal.
  apply byte_mod.
  - exists (256 ^ Z.of_nat (k - Datatypes.S n)).
    rewrite <- Z.pow_add_r by lia. f_equal. lia.
  - apply Z.pow_pos_nonneg; lia.
Qed.

Lemma be_bytes_low (n : nat) (x : Integer) :
  (n <= 4)%nat -> be_bytes n (low x) = be_bytes n (Integer_toZ x).
Proof.
  intros Hn.
  rewrite <- (be_bytes_mod n 4 (low x)) by assumption.
  rewrite <- (be_bytes_mod n 4 (Integer_toZ x)) by assumption.
  f_equal. rewrite Integer_toZ_split.
  change (256 ^ Z.of_nat 4) with (2 ^ 32).
  now rewrite Z.mod_add, Z.mod_mod by lia.
Qed.

Lemma be_bytes_app (n k : nat) (v : Z) :
  be_bytes (n + k) v = be_bytes n (v / 256 ^ Z.of_nat k) ++ be_bytes k v.
Proof.
  induction n as [|n IH]; [reflexivity|].
  cbn [Nat.add be_bytes app]. rewrite IH. f_equal.
  rewrite Z.div_div by (try apply Z.pow_pos_nonneg; lia).
  rewrite <- Z.pow_add_r by lia. do 3 f_equal. lia.
Qed.

Lemma be_bytes_high_low (x : Integer) :
  be_bytes 4 (high x) ++ be_bytes 4 (low x) = be_bytes 8 (Integer_toZ x).
Proof.
  rewrite (be_bytes_app 4 4), <- be_bytes_low by lia. f_equal. f_equal.
  rewrite Integer_toZ_split.
  change (256 ^ Z.of_nat 4) with (2 ^ 32).
  rewrite Z.div_add by lia.
  rewrite Z.div_small by (apply Z.mod_pos_bound; lia). lia.
Qed.

(** ** Integers *)

Lemma packInteger_emits (x : Integer) :
  emits (packInteger x) (integer_tier (Integer_toZ x)).
Proof.
  unfold packInteger, integer_tier, greaterThanOrEqual, lessThan.
  change (-0x10) with (-16). change 0x80 with 128. change (-0x80) with (-128).
  change (-0x8000) with (- 2 ^ 15). change 0x8000 with (2 ^ 15).
  change (-0x80000000) with (- 2 ^ 31). change 0x80000000 with (2 ^ 31).
  repeat match goal with
         | |- context [if ?c then _ else _] => destruct c
         end;
    rewrite <- ?be_bytes_high_low, <- ?(be_bytes_low 1 x),
      <- ?(be_bytes_low 2 x), <- ?(be_bytes_low 4 x) by lia.
  all: repeat emits_step; reflexivity.
Qed.

(** ** C2: integer tiers *)

(** C2. For every Int64 value [x], [packInteger] writes exactly the tier
    that the table assigns to the numeric value of [x]: one raw signed
    byte for -16 <= x < 128; 0xC8 and one byte for -128 <= x < -16; 0xC9
    and two bytes for -2^15 <= x < 2^15; 0xCA and four bytes for
    -2^31 <= x < 2^31; 0xCB and eight bytes (high word, then low word)
    otherwise.  The first tier that fits the value is taken, and the
    bytes depend on the numeric value only; the values on both sides of
    every tier boundary are written as the table says. *)
Theorem packInteger_tier (x : Integer) (s : sink) :
  packInteger x s =
    Ok tt (mkSink (written s ++ integer_tier (Integer_toZ x)) (reported s)) /\
  integer_tier (Integer_toZ x)
    = (if (-16 <=? Integer_toZ x) && (Integer_toZ x <? 128) then []
       else if (-128 <=? Integer_toZ x) && (Integer_toZ x <? -16) then [0xC8]
       else if (- 2 ^ 15 <=? Integer_toZ x) && (Integer_toZ x <? 2 ^ 15)
            then [0xC9]
       else if (- 2 ^ 31 <=? Integer_toZ x) && (Integer_toZ x <? 2 ^ 31)
            then [0xCA]
       else 0xCB :: be_bytes 4 (high x))
      ++ be_bytes (if (-16 <=? Integer_toZ x) && (Integer_toZ x <? 128) then 1
                   else if (-128 <=? Integer_toZ x) && (Integer_toZ x <? -16)
                        then 1
                   else if (- 2 ^ 15 <=? Integer_toZ x)
                           && (Integer_toZ x <? 2 ^ 15) then 2
                   else 4) (low x) /\
  map integer_tier [-17; -16; 127; 128; -129; -128]
    = [[0xC8; 0xEF]; [0xF0]; [0x7F]; [0xC9; 0x00; 0x80]; [0xC9; 0xFF; 0x7F];
       [0xC8; 0x80]] /\
  map integer_tier [32767; -32767; 32768; -32768; -32769]
    = [[0xC9; 0x7F; 0xFF]; [0xC9; 0x80; 0x01]; [0xCA; 0x00; 0x00; 0x80; 0x00];
       [0xC9; 0x80; 0x00]; [0xCA; 0xFF; 0xFF; 0x7F; 0xFF]] /\
  map integer_tier [2 ^ 31 - 1; - (2 ^ 31 - 1); 2 ^ 31; - 2 ^ 31; - 2 ^ 31 - 1]
    = [[0xCA; 0x7F; 0xFF; 0xFF; 0xFF]; [0xCA; 0x80; 0x00; 0x00; 0x01];
       [0xCB; 0; 0; 0; 0; 0x80; 0; 0; 0]; [0xCA; 0x80; 0x00; 0x00; 0x00];
       [0xCB; 0xFF; 0xFF; 0xFF; 0xFF; 0x7F; 0xFF; 0xFF; 0xFF]].
Proof.
  split; [apply packInteger_emits|]. split; [|repeat split; reflexivity].
  unfold integer_tier.
  repeat match goal with
         | |- context [if ?c then _ else _] => destruct c
         end;
    cbn [app];
    rewrite <- ?be_bytes_high_low, <- ?(be_bytes_low 1 x),
      <- ?(be_bytes_low 2 x), <- ?(be_bytes_low 4 x) by lia;
    reflexivity.
Qed.

(** ** Size headers *)

Lemma toInt32_small (z : Z) : int32 z -> toInt32 z = z.
Proof.
  unfold int32, toInt32. intros H.
  rewrite Z.mod_small by lia. lia.
Qed.

Lemma div_shr0_small (a b : Z) :
  0 <= a < 2 ^ 32 -> 2 <= b -> div_shr0 a b = a / b.
Proof.
  intros Ha Hb. unfold div_shr0.
  rewrite Z.quot_div_nonneg by lia.
  apply toInt32_small. unfold int32.
  assert (0 <= a / b) by (apply Z.div_pos; lia).
  assert (a / b < 2 ^ 31) by (apply Z.div_lt_upper_bound; lia).
  lia.
Qed.

Lemma js_rem_nonneg (a b : Z) : 0 <= a -> 0 < b -> js_rem a b = a mod b.
Proof. intros. unfold js_rem. now apply Z.rem_mod_nonneg. Qed.

Lemma be_bytes_1 (v : Z) : be_bytes 1 v = [v mod 256].
Proof. cbn. now rewrite Z.div_1_r. Qed.

Lemma be_bytes_2 (v : Z) : be_bytes 2 v = [(v / 256) mod 256; v mod 256].
Proof. cbn. now rewrite Z.div_1_r. Qed.

Lemma be_bytes_4 (v : Z) :
  be_bytes 4 v =
  [(v / 16777216) mod 256; (v / 65536) mod 256; (v / 256) mod 256; v mod 256].
Proof. cbn. now rewrite Z.div_1_r. Qed.

Lemma lor_nibble (tiny size : Z) :
  In tiny [0x80; 0x90; 0xA0; 0xB0] -> 0 <= size < 16 ->
  Z.lor tiny size = tiny + size.
Proof.
  intros Ht Hs.
  assert (Hc : In size [0;1;2;3;4;5;6;7;8;9;10;11;12;13;14;15]).
  { cbn. lia. }
  cbn in Ht, Hc.
  repeat (destruct Ht as [<-|Ht]; [|]); try contradiction;
    repeat (destruct Hc as [<-|Hc]; [reflexivity|]); contradiction.
Qed.

(** The arithmetic that the source uses to cut a size into bytes. *)
Ltac size_bytes :=
  rewrite ?be_bytes_1, ?be_bytes_2, ?be_bytes_4;
  rewrite ?div_shr0_small by lia;
  rewrite ?js_rem_nonneg by (try apply Z.div_pos; lia);
  rewrite ?Z.mod_mod by lia;
  unfold TINY_STRING, TINY_LIST, TINY_MAP, TINY_STRUCT;
  rewrite ?lor_nibble by (cbn; lia);
  cbn [app];
  repeat match goal with |- _ :: _ = _ :: _ => f_equal end;
  try reflexivity;
  try (apply Z.mod_small;
       (lia || (split; [apply Z.div_pos|apply Z.div_lt_upper_bound]; lia))).

Ltac header_cases size :=
  destruct (Z.ltb_spec size 0x10);
  [|destruct (Z.ltb_spec size 0x100);
    [|destruct (Z.ltb_spec size 0x10000);
      [|destruct (Z.ltb_spec size 0x100000000)]]].

Lemma packListHeader_emits (size : Z) (onError : option callback) :
  0 <= size < 2 ^ 32 ->
  emits (packListHeader size onError) (list_header size).
Proof.
  intros Hs. unfold packListHeader, list_header, size_header.
  header_cases size; try lia; repeat emits_step; size_bytes.
Qed.

Lemma packMapHeader_emits (size : Z) (onError : option callback) :
  0 <= size < 2 ^ 32 ->
  emits (packMapHeader size onError) (map_header size).
Proof.
  intros Hs. unfold packMapHeader, map_header, size_header.
  header_cases size; try lia; repeat emits_step; size_bytes.
Qed.

Lemma packString_emits (x : string) (onError : option callback) :
  Z.of_nat (length (utf8_encode x)) < 2 ^ 32 ->
  emits (packString x onError)
        (string_header (Z.of_nat (length (utf8_encode x))) ++ utf8_encode x).
Proof.
  intros Hs. unfold packString, string_header, size_header.
  set (size := Z.of_nat (length (utf8_encode x))) in *.
  assert (0 <= size) by (unfold size; lia).
  header_cases size; try lia; repeat emits_step; size_bytes.
Qed.

(** The struct header as [packStructHeader] writes it. *)
Lemma packStructHeader_emits (size signature : Z) (onError : option callback) :
  0 <= size < 2 ^ 16 ->
  emits (packStructHeader size signature onError)
        (if size <? 0x10 then [TINY_STRUCT + size; signature mod 256]
         else if size <? 0x100 then [STRUCT_8; size; signature mod 256]
         else STRUCT_16 :: be_bytes 2 size).
Proof.
  intros Hs. unfold packStructHeader.
  header_cases size; try lia; repeat emits_step; size_bytes.
Qed.

Lemma be_value_fold (bytes : list Z) (acc : Z) :
  fold_left (fun a b => a * 256 + b) bytes acc =
  acc * 256 ^ Z.of_nat (length bytes) + be_value bytes.
Proof.
  unfold be_value. revert acc.
  induction bytes as [|b bytes IH]; intros acc; cbn [fold_left length].
  - cbn. lia.
  - rewrite IH, (IH (0 * 256 + b)), Nat2Z.inj_succ, Z.pow_succ_r by lia. lia.
Qed.

Lemma be_value_cons (b : Z) (bytes : list Z) :
  be_value (b :: bytes) = b * 256 ^ Z.of_nat (length bytes) + be_value bytes.
Proof.
  unfold be_value at 1. cbn [fold_left]. rewrite be_value_fold. lia.
Qed.

Lemma be_bytes_length (n : nat) (v : Z) : length (be_bytes n v) = n.
Proof. induction n; cbn; congruence. Qed.

(** Reading back a big-endian image gives the value modulo [256^n]. *)
Lemma be_value_be_bytes (n : nat) (v : Z) :
  be_value (be_bytes n v) = v mod 256 ^ Z.of_nat n.
Proof.
  induction n as [|n IH].
  - cbn. now rewrite Z.mod_1_r.
  - cbn [be_bytes]. rewrite be_value_cons, be_bytes_length, IH.
    rewrite Nat2Z.inj_succ, Z.pow_succ_r by lia.
    rewrite (Z.mul_comm 256), Z.rem_mul_r by (try apply Z.pow_nonzero; lia).
    lia.
Qed.

(** ** C9: big-endian length prefixes *)

(** C9. Every multi-byte length prefix that the Packer writes (the 16-bit
    and 32-bit tiers of strings, lists and maps, the 16-bit tier of
    structs) is the big-endian image of the length, most significant byte
    first; the 16-bit length 0x0123 is written as 0x01 then 0x23. *)
Theorem length_prefix_big_endian
    (size : Z) (x : string) (signature : Z) (onError : option callback) :
  0x100 <= size < 0x100000000 ->
  0x100 <= Z.of_nat (length (utf8_encode x)) < 0x100000000 ->
  let width (n : Z) := if n <? 0x10000 then 2%nat else 4%nat in
  let pick (n m16 m32 : Z) := if n <? 0x10000 then m16 else m32 in
  let strlen := Z.of_nat (length (utf8_encode x)) in
  emits (packString x onError)
        (pick strlen STRING_16 STRING_32 :: be_bytes (width strlen) strlen
           ++ utf8_encode x) /\
  emits (packListHeader size onError)
        (pick size LIST_16 LIST_32 :: be_bytes (width size) size) /\
  emits (packMapHeader size onError)
        (pick size MAP_16 MAP_32 :: be_bytes (width size) size) /\
  (size < 0x10000 ->
   emits (packStructHeader size signature onError)
         (STRUCT_16 :: be_bytes 2 size)) /\
  be_value (be_bytes (width size) size) = size /\
  be_bytes 2 0x0123 = [0x01; 0x23].
Proof.
  intros Hsize Hlen width pick strlen.
  repeat split.
  - eapply emits_eq; [apply packString_emits; lia|].
    unfold string_header, size_header, pick, width. fold strlen.
    destruct (Z.ltb_spec strlen 0x10); [lia|].
    destruct (Z.ltb_spec strlen 0x100); [lia|].
    now destruct (Z.ltb_spec strlen 0x10000).
  - eapply emits_eq; [apply packListHeader_emits; lia|].
    unfold list_header, size_header, pick, width.
    destruct (Z.ltb_spec size 0x10); [lia|].
    destruct (Z.ltb_spec size 0x100); [lia|].
    now destruct (Z.ltb_spec size 0x10000).
  - eapply emits_eq; [apply packMapHeader_emits; lia|].
    unfold map_header, size_header, pick, width.
    destruct (Z.ltb_spec size 0x10); [lia|].
    destruct (Z.ltb_spec size 0x100); [lia|].
    now destruct (Z.ltb_spec size 0x10000).
  - intros H16.
    eapply emits_eq; [apply packStructHeader_emits; lia|].
    destruct (Z.ltb_spec size 0x10); [lia|].
    now destruct (Z.ltb_spec size 0x100); [lia|].
  - rewrite be_value_be_bytes. unfold width.
    destruct (Z.ltb_spec size 0x10000); apply Z.mod_small; cbn; lia.
Qed.

Lemma length_prefix_big_endian_witness :
  emits (packListHeader 0x0123 None) [LIST_16; 0x01; 0x23] /\
  emits (packStructHeader 0x0123 0x4E None) [STRUCT_16; 0x01; 0x23].
Proof.
  pose proof (length_prefix_big_endian 0x0123
                (string_of_list_ascii (repeat "a"%char 291)) 0x4E None)
    as H.
  destruct H as (_ & Hl & _ & Hs & _).
  - lia.
  - vm_compute. split; [discriminate|reflexivity].
  - split; [exact Hl|apply Hs; lia].
Defined.

(** ** Loops *)

Lemma bind_ret_l {S A B} (a : A) (k : A -> M S B) : bind (ret a) k = k a.
Proof. reflexivity. Qed.

Lemma bind_ret_r {S A} (m : M S A) : bind m ret = m.
Proof.
  extensionality s. unfold bind, ret. now destruct (m s).
Qed.

Lemma bind_assoc {S A B C} (m : M S A) (k : A -> M S B) (h : B -> M S C) :
  bind (bind m k) h = bind m (fun a => bind (k a) h).
Proof.
  extensionality s. unfold bind. now destruct (m s).
Qed.

Lemma bind_ext {S A B} (m : M S A) (k k' : A -> M S B) :
  (forall a, k a = k' a) -> bind m k = bind m k'.
Proof. intros H. f_equal. now extensionality a. Qed.

(** An index loop over [l] that only reads [l[i]] is an iteration over the
    elements of [l]. *)
Lemma for_fold_nth {S A B} (body : B -> A -> M S A) (d : B)
    (pre l : list B) (acc : A) :
  for_fold (length pre) (length l)
           (fun i acc => body (nth i (pre ++ l) d) acc) acc =
  foldM body l acc.
Proof.
  revert pre acc. induction l as [|b l IH]; intros pre acc; [reflexivity|].
  cbn [length for_fold foldM].
  rewrite nth_middle. apply bind_ext. intros acc'.
  specialize (IH (pre ++ [b]) acc').
  rewrite <- app_assoc, length_app, Nat.add_comm in IH. exact IH.
Qed.

Lemma for_loop_nth {S B} (f : B -> M S unit) (d : B) (l : list B) :
  for_loop (length l) (fun i => f (nth i l d)) = each f l.
Proof. exact (for_fold_nth (fun b _ => f b) d [] l tt). Qed.

(** Two loops whose bodies agree on the indices they visit are equal. *)
Lemma for_fold_ext {S A} (body body' : nat -> A -> M S A)
    (start count : nat) (acc : A) :
  (forall i a, (start <= i < start + count)%nat -> body i a = body' i a) ->
  for_fold start count body acc = for_fold start count body' acc.
Proof.
  revert start acc. induction count as [|c IH]; intros start acc H;
    [reflexivity|].
  cbn [for_fold]. rewrite H by lia. apply bind_ext. intros a.
  apply IH. intros i a' Hi. apply H. lia.
Qed.

(** A loop that ignores its index repeats its body. *)
Lemma for_fold_const {S A} (body : A -> M S A) (start count : nat) (acc : A) :
  for_fold start count (fun _ => body) acc =
  foldM (fun _ => body) (repeat tt count) acc.
Proof.
  revert start acc. induction count as [|c IH]; intros start acc;
    [reflexivity|].
  cbn [for_fold repeat foldM]. apply bind_ext. intros a. apply IH.
Qed.

Lemma foldM_ext {S A B} (f g : B -> A -> M S A) (l : list B) (acc : A) :
  (forall b a, In b l -> f b a = g b a) -> foldM f l acc = foldM g l acc.
Proof.
  revert acc. induction l as [|b l IH]; intros acc H; [reflexivity|].
  cbn [foldM]. rewrite H by now left. apply bind_ext. intros a.
  apply IH. intros b' a' Hb. apply H. now right.
Qed.

Lemma each_ext {S B} (f g : B -> M S unit) (l : list B) :
  (forall b, In b l -> f b = g b) -> each f l = each g l.
Proof. intros H. apply foldM_ext. intros b a Hb. now apply H. Qed.

Lemma each_app {S B} (f : B -> M S unit) (l l' : list B) :
  each f (l ++ l') = (each f l ;; each f l').
Proof.
  unfold each. induction l as [|b l IH]; cbn [app foldM].
  - now rewrite bind_ret_l.
  - rewrite bind_assoc. apply bind_ext. intros []. exact IH.
Qed.

(** ** Fuel *)

Lemma height_nth (elems : list value) (i : nat) :
  (height (nth i elems VUndefined) <= list_max (map height elems))%nat.
Proof.
  revert i. induction elems as [|e elems IH]; intros [|i]; cbn [nth map];
    change (list_max (?a :: ?l)) with (Nat.max a (list_max l));
    cbn [height list_max fold_right]; try lia.
  specialize (IH i). lia.
Qed.

Lemma height_get_prop (props : list (string * value)) (key : string) :
  (height (get_prop props key)
   <= list_max (map (fun p => height (snd p)) props))%nat.
Proof.
  induction props as [|[k v] props IH]; cbn [get_prop map snd];
    change (list_max (?a :: ?l)) with (Nat.max a (list_max l));
    cbn [height list_max fold_right]; [lia|].
  destruct (String.eqb k key); lia.
Qed.

Lemma height_undefined_to_null (x : value) :
  height (undefined_to_null x) = height x.
Proof. now destruct x. Qed.

(** [packable_body] calls [this.packable] only on strictly shallower
    values. *)
Lemma packable_body_ext
    (f g : value -> option callback -> M sink thunk)
    (x : value) (onError : option callback) :
  (forall y oe, (height y < height x)%nat -> f y oe = g y oe) ->
  packable_body f x onError = packable_body g x onError.
Proof.
  intros H. destruct x as [| |b| | | |elems|signature fields|props];
    try reflexivity; cbn [packable_body].
  - f_equal. f_equal. extensionality u. unfold for_loop.
    apply for_fold_ext. intros i _ _.
    rewrite H; [reflexivity|].
    change (if is_undefined ?v then VNull else ?v) with (undefined_to_null v).
    rewrite height_undefined_to_null. cbn [height].
    pose proof (height_nth elems i). lia.
  - f_equal.
    apply for_fold_ext. intros i a _.
    rewrite H; [reflexivity|]. cbn [height].
    pose proof (height_nth fields i). lia.
  - f_equal. apply bind_ext. intros count. apply bind_ext. intros _.
    unfold for_loop. apply for_fold_ext. intros i _ _.
    cbv zeta. rewrite H; [reflexivity|]. cbn [height].
    pose proof (height_get_prop props (nth i (Object_keys props) ""%string)).
    lia.
Qed.

(** Beyond [height x + 1], more fuel changes nothing. *)
Lemma packable_fuel (n m : nat) (x : value) (onError : option callback) :
  (height x < n)%nat -> (height x < m)%nat ->
  packable n x onError = packable m x onError.
Proof.
  revert m x onError. induction n as [|n IH]; intros m x onError Hn Hm;
    [lia|].
  destruct m as [|m]; [lia|]. cbn [packable].
  apply packable_body_ext. intros y oe Hy. apply IH; lia.
Qed.

Lemma pack_fuel (n : nat) (x : value) (onError : option callback) :
  (height x < n)%nat ->
  (f <- packable n x onError ;; f) = pack x onError.
Proof.
  intros Hn. unfold pack. now rewrite (packable_fuel n (S (height x))) by lia.
Qed.

Lemma height_In (x : value) (l : list value) :
  In x l -> (height x <= list_max (map height l))%nat.
Proof.
  induction l as [|y l IH]; [contradiction|].
  cbn [map]. change (list_max (?a :: ?l)) with (Nat.max a (list_max l)).
  intros [<-|H]; [lia|]. specialize (IH H). lia.
Qed.

Lemma height_In_props (p : string * value) (props : list (string * value)) :
  In p props ->
  (height (snd p) <= list_max (map (fun p => height (snd p)) props))%nat.
Proof.
  induction props as [|q props IH]; [contradiction|].
  cbn [map]. change (list_max (?a :: ?l)) with (Nat.max a (list_max l)).
  intros [<-|H]; [lia|]. specialize (IH H). lia.
Qed.

(** ** Packing lists *)

Lemma pack_array (xs : list value) (onError : option callback) :
  pack (VArray xs) onError =
  (packListHeader (Z.of_nat (length xs)) onError ;;
   each (fun x => pack (undefined_to_null x) onError) xs).
Proof.
  unfold pack at 1. cbn [height].
  change (packable (S ?n) ?x ?oe) with (packable_body (packable n) x oe).
  cbn [packable_body]. rewrite bind_ret_l.
  apply bind_ext. intros _.
  rewrite <- (for_loop_nth _ VUndefined).
  unfold for_loop. apply for_fold_ext. intros i _ _. cbv zeta.
  apply pack_fuel. rewrite height_undefined_to_null.
  pose proof (height_nth xs i). lia.
Qed.

Lemma each_repeat_emits {B} (f : B -> M sink unit) (b : B) (bytes : list Z)
    (n : nat) :
  emits (f b) bytes ->
  emits (each f (repeat b n)) (concat (repeat bytes n)).
Proof.
  intros Hf. unfold each. induction n as [|n IH]; cbn [repeat foldM concat].
  - apply emits_ret.
  - rewrite (bind_ext (f b) _
               (fun _ => foldM (fun b _ => f b) (repeat b n) tt))
      by now intros [].
    apply emits_bind; assumption.
Qed.

Lemma pack_null (onError : option callback) : emits (pack VNull onError) [NULL].
Proof. intro s. reflexivity. Qed.

(** ** Packing maps *)

Lemma foldM_map {S A B C} (f : C -> A -> M S A) (g : B -> C) (l : list B)
    (acc : A) :
  foldM f (map g l) acc = foldM (fun b => f (g b)) l acc.
Proof.
  revert acc. induction l as [|b l IH]; intros acc; [reflexivity|].
  cbn [map foldM]. apply bind_ext. intros a. apply IH.
Qed.

(** On an object, whose keys are distinct, [x[key]] is the value stored
    under [key]. *)
Lemma get_prop_In (props : list (string * value)) (k : string) (v : value) :
  NoDup (Object_keys props) -> In (k, v) props -> get_prop props k = v.
Proof.
  induction props as [|[k' v'] props IH]; [contradiction|].
  cbn [Object_keys map fst get_prop]. intros Hnd Hin.
  inversion Hnd as [|? ? Hk' Hnd']; subst.
  destruct Hin as [[= -> ->]|Hin].
  - now rewrite String.eqb_refl.
  - destruct (String.eqb_spec k' k) as [->|_].
    + exfalso. apply Hk'. unfold Object_keys in *.
      change k with (fst (k, v)). now apply in_map.
    + now apply IH.
Qed.

Lemma count_defined (props : list (string * value)) (count : Z) :
  foldM (S := sink)
        (fun p count => ret (if is_undefined (snd p) then count else count + 1))
        props count =
  ret (count + Z.of_nat (length (filter defined props))).
Proof.
  revert count. induction props as [|[k v] props IH]; intros count.
  - cbn. f_equal. lia.
  - cbn [foldM filter]. rewrite bind_ret_l, IH. unfold defined at 2.
    cbn [snd]. destruct (is_undefined v); cbn [negb length].
    + reflexivity.
    + f_equal. lia.
Qed.

Lemma each_filter_defined (f : string * value -> M sink unit)
    (props : list (string * value)) :
  each (fun p => if is_undefined (snd p) then ret tt else f p) props =
  each f (filter defined props).
Proof.
  unfold each. induction props as [|[k v] props IH]; [reflexivity|].
  cbn [foldM filter]. unfold defined at 1. cbn [snd].
  destruct (is_undefined v); cbn [negb].
  - rewrite bind_ret_l. exact IH.
  - cbn [foldM]. apply bind_ext. intros []. exact IH.
Qed.

Lemma pack_object (props : list (string * value)) (onError : option callback) :
  NoDup (Object_keys props) ->
  pack (VObject props) onError =
  (packMapHeader (Z.of_nat (length (filter defined props))) onError ;;
   each (pack_entry onError) (filter defined props)).
Proof.
  intros Hnd. unfold pack at 1. cbn [height].
  change (packable (S ?n) ?x ?oe) with (packable_body (packable n) x oe).
  cbn [packable_body]. rewrite bind_ret_l. cbv zeta.
  (* the counting loop *)
  rewrite (for_fold_nth
             (fun key count =>
                ret (if is_undefined (get_prop props key)
                     then count else count + 1))
             ""%string [] (Object_keys props) 0).
  unfold Object_keys at 1. rewrite foldM_map.
  rewrite (foldM_ext _
             (fun p count =>
                ret (if is_undefined (snd p) then count else count + 1))).
  2:{ intros [k v] a Hin. cbn [fst snd]. now rewrite (get_prop_In _ _ _ Hnd Hin). }
  rewrite count_defined, bind_ret_l, Z.add_0_l.
  apply bind_ext. intros _.
  (* the loop that writes the entries *)
  rewrite (for_loop_nth
             (fun key =>
                if is_undefined (get_prop props key) then ret tt
                else
                  packString key None ;;
                  f <- packable (S (list_max (map (fun p => height (snd p))
                                                  props)))
                                (get_prop props key) onError ;;
                  f)
             ""%string (Object_keys props)).
  rewrite <- each_filter_defined.
  unfold Object_keys, each. rewrite foldM_map.
  apply foldM_ext. intros [k v] _ Hin. cbn [fst snd].
  rewrite (get_prop_In _ _ _ Hnd Hin).
  destruct (is_undefined v); [reflexivity|].
  unfold pack_entry. cbn [fst snd]. apply bind_ext. intros _.
  apply pack_fuel. pose proof (height_In_props _ _ Hin). cbn [snd] in *. lia.
Qed.

Lemma filter_defined_idem (props : list (string * value)) :
  filter defined (filter defined props) = filter defined props.
Proof.
  induction props as [|p props IH]; [reflexivity|].
  cbn [filter]. destruct (defined p) eqn:E; [|exact IH].
  cbn [filter]. now rewrite E, IH.
Qed.

Lemma NoDup_keys_filter (f : string * value -> bool)
    (props : list (string * value)) :
  NoDup (Object_keys props) -> NoDup (Object_keys (filter f props)).
Proof.
  unfold Object_keys. induction props as [|p props IH]; [trivial|].
  cbn [map filter]. intros Hnd. inversion Hnd as [|? ? Hp Hnd']; subst.
  destruct (f p); [|now apply IH].
  cbn [map]. constructor; [|now apply IH].
  intros Hin. apply Hp. apply in_map_iff in Hin as (q & Hq & Hin).
  apply filter_In in Hin as [Hin _]. rewrite <- Hq. now apply in_map.
Qed.

(** ** C5: undefined map entries *)

(** C5. For every map input [m] (an object: its keys are distinct), packing
    [m] is the same computation, hence writes byte for byte the same
    output, as packing [m] with every entry whose value is [undefined]
    removed: the header declares the number of entries that are not
    [undefined], and the body consists of those entries only. *)
Theorem pack_map_filters_undefined
    (m : list (string * value)) (onError : option callback) :
  NoDup (Object_keys m) ->
  pack (VObject m) onError = pack (VObject (filter defined m)) onError /\
  pack (VObject m) onError =
    (packMapHeader (Z.of_nat (length (filter defined m))) onError ;;
     each (pack_entry onError) (filter defined m)).
Proof.
  intros Hnd. split; [|now apply pack_object].
  rewrite (pack_object _ onError Hnd).
  rewrite (pack_object _ onError (NoDup_keys_filter defined m Hnd)).
  now rewrite filter_defined_idem.
Qed.

Lemma pack_map_filters_undefined_witness :
  pack (VObject [("a"%string, VInteger (int 1)); ("b"%string, VUndefined)])
       None empty_sink
  = pack (VObject [("a"%string, VInteger (int 1))]) None empty_sink.
Proof.
  pose proof (pack_map_filters_undefined
                [("a"%string, VInteger (int 1)); ("b"%string, VUndefined)]
                None) as H.
  destruct H as [H _].
  - repeat constructor; cbn; intuition discriminate.
  - now rewrite H.
Defined.

(** ** Packing structures *)

Lemma pack_structure (signature : Z) (fields : list value)
    (onError : option callback) :
  pack (VStructure signature fields) onError =
  (packableFields <-
     foldM (fun x packableFields =>
              f <- packable (S (list_max (map height fields))) x onError ;;
              ret (packableFields ++ [f])) fields [] ;;
   packStructHeader (Z.of_nat (length packableFields)) signature None ;;
   each (fun f => f) packableFields).
Proof.
  unfold pack at 1. cbn [height].
  change (packable (S ?n) ?x ?oe) with (packable_body (packable n) x oe).
  cbn [packable_body]. rewrite bind_assoc.
  rewrite <- (for_fold_nth _ VUndefined [] fields []).
  apply bind_ext. intros packableFields. rewrite bind_ret_l.
  unfold packStruct. apply bind_ext. intros _.
  apply (for_loop_nth (fun f : thunk => f) not_callable packableFields).
Qed.

Lemma packable_null_fields (fuel n : nat) (onError : option callback)
    (acc : list thunk) :
  foldM (fun x packableFields =>
           f <- packable (S fuel) x onError ;;
           ret (packableFields ++ [f])) (repeat VNull n) acc =
  ret (acc ++ repeat (writeUInt8 NULL) n).
Proof.
  revert acc. induction n as [|n IH]; intros acc; cbn [repeat foldM].
  - now rewrite app_nil_r.
  - cbn [packable packable_body]. rewrite !bind_ret_l, IH.
    now rewrite <- app_assoc.
Qed.

(** A structure of [n] Null fields: the header, then [n] Null markers. *)
Lemma pack_structure_nulls (signature : Z) (n : nat)
    (onError : option callback) :
  pack (VStructure signature (repeat VNull n)) onError =
  (packStructHeader (Z.of_nat n) signature None ;;
   each (fun f : thunk => f) (repeat (writeUInt8 NULL) n)).
Proof.
  rewrite pack_structure, packable_null_fields, bind_ret_l.
  cbn [app]. now rewrite repeat_length.
Qed.

Lemma each_thunks_null (n : nat) :
  emits (each (fun f : thunk => f) (repeat (writeUInt8 NULL) n))
        (repeat NULL n).
Proof.
  eapply emits_eq.
  - apply (each_repeat_emits (fun f : thunk => f) (writeUInt8 NULL) [NULL] n).
    intro s. reflexivity.
  - induction n as [|n IH]; [reflexivity|]. cbn. now rewrite <- IH.
Qed.

(** In the 16-bit tier, the signature of a structure does not reach the
    channel. *)
Lemma pack_structure16_nulls (signature : Z) (n : nat)
    (onError : option callback) :
  0x100 <= Z.of_nat n < 0x10000 ->
  emits (pack (VStructure signature (repeat VNull n)) onError)
        (STRUCT_16 :: be_bytes 2 (Z.of_nat n) ++ repeat NULL n).
Proof.
  intros Hn. rewrite pack_structure_nulls.
  eapply emits_eq.
  - apply emits_bind; [apply packStructHeader_emits; lia|apply each_thunks_null].
  - destruct (Z.ltb_spec (Z.of_nat n) 0x10); [lia|].
    destruct (Z.ltb_spec (Z.of_nat n) 0x100); [lia|]. reflexivity.
Qed.

(** A structure of 65536 fields or more: [packStruct] is called without
    [onError], and [packStructHeader] calls [undefined]. *)
Lemma pack_structure_oversized (signature : Z) (n : nat)
    (onError : option callback) (s : sink) :
  0x10000 <= Z.of_nat n ->
  pack (VStructure signature (repeat VNull n)) onError s =
  Throw (TypeError "onError is not a function") s.
Proof.
  intros Hn. rewrite pack_structure_nulls. unfold bind, packStructHeader.
  destruct (Z.ltb_spec (Z.of_nat n) 0x10); [lia|].
  destruct (Z.ltb_spec (Z.of_nat n) 0x100); [lia|].
  destruct (Z.ltb_spec (Z.of_nat n) 0x10000); [lia|].
  reflexivity.
Qed.

Lemma pack_struct16_nulls_bytes (onError : option callback) (s : sink) :
  pack (VStructure 0x4E (repeat VNull 256)) onError s =
  Ok tt (mkSink (written s ++ [0xDD; 0x01; 0x00] ++ repeat 0xC0 256)
                (reported s)).
Proof.
  rewrite (pack_structure16_nulls 0x4E 256 onError) by (cbn; lia).
  reflexivity.
Qed.

(** ** C3: the 16-bit struct header *)

(** C3 (evaluation at the failing input). A Structure with signature 0x4E
    and 256 Null fields is packed as DD 01 00 followed by 256 Null
    markers: the 16-bit header is not followed by the signature byte
    0x4E. *)
Theorem pack_struct16_omits_signature (onError : option callback) (s : sink) :
  pack (VStructure 0x4E (repeat VNull 256)) onError s =
  Ok tt (mkSink (written s ++ [0xDD; 0x01; 0x00] ++ repeat 0xC0 256)
                (reported s)).
Proof. apply pack_struct16_nulls_bytes. Qed.

(** ** C7: errors on the pack path *)

(** C7 (evaluation at the failing input). Packing a Structure of 65536
    Null fields with a recording [onError] raises a TypeError: nothing is
    handed to the callback and nothing is written. *)
Theorem pack_oversized_struct_throws (s : sink) :
  pack (VStructure 0x4E (repeat VNull (Z.to_nat 65536))) (Some record_error) s =
  Throw (TypeError "onError is not a function") s.
Proof.
  apply pack_structure_oversized. rewrite Z2Nat.id; lia.
Qed.

(** ** C4: unknown markers *)

(** C4 (as stated, refuted). On the single byte 0xC4 the message of the
    error is "Unknown packed value with marker c4": the marker is not
    introduced by "0x". *)
Lemma unknown_marker_message_lacks_0x :
  exists message,
    unpack (fun _ => inr ""%string) no_mappers 1 [0xC4]
      = Throw (Neo4jError message) [] /\
    String.prefix "Unknown packed value with marker 0x" message = false.
Proof.
  exists "Unknown packed value with marker c4"%string.
  split; reflexivity.
Qed.

(** C4 (amended). For every single-byte input whose marker is not part of
    the grammar, [unpack] raises an error whose message is
    "Unknown packed value with marker " followed by the marker as two
    lower-case hexadecimal digits, without a "0x" prefix. *)
Theorem unpack_unknown_marker
    (ToString : value -> exn + string) (structMappers : Z -> option mapper)
    (fuel : nat) (marker : Z) :
  In marker unknown_markers ->
  unpack ToString structMappers (S fuel) [marker] =
  Throw (Neo4jError ("Unknown packed value with marker " ++ hex2 marker)) [].
Proof.
  intros Hin. cbn [unpack]. unfold unknown_markers in Hin. cbn [In] in Hin.
  repeat (destruct Hin as [<-|Hin]; [reflexivity|]). contradiction.
Qed.

Lemma unpack_unknown_marker_witness :
  unpack (fun _ => inr ""%string) no_mappers 1 [0xEF] =
  Throw (Neo4jError "Unknown packed value with marker ef") [].
Proof.
  apply (unpack_unknown_marker (fun _ => inr ""%string) no_mappers 0 0xEF).
  cbn. intuition.
Defined.

(** ** Unpacking sequences *)

Lemma collect_unpacks (u : M source value) (n : nat) (buf buf' : source)
    (vs acc : list value) :
  unpacks u n buf vs buf' ->
  foldM (fun (_ : unit) acc => v <- u ;; ret (acc ++ [v])) (repeat tt n) acc buf
  = Ok (acc ++ vs) buf'.
Proof.
  intros H. revert acc. induction H as [buf|n buf buf1 buf' v vs Hu _ IH];
    intros acc; cbn [repeat foldM].
  - now rewrite app_nil_r.
  - unfold bind at 1. unfold bind at 1. rewrite Hu. cbn.
    rewrite IH. now rewrite <- app_assoc.
Qed.

Lemma unpacks_length (u : M source value) (n : nat) (buf buf' : source)
    (vs : list value) :
  unpacks u n buf vs buf' -> length vs = n.
Proof. induction 1; cbn; congruence. Qed.

Lemma readUInt8_cons (b : Z) (rest : source) : readUInt8 (b :: rest) = Ok b rest.
Proof. reflexivity. Qed.

Section UnpackerFacts.

Variable ToString : value -> exn + string.
Variable structMappers : Z -> option mapper.

Lemma unpackList_unpacks (u : M source value) (size : Z)
    (buf buf' : source) (vs : list value) :
  unpacks u (Z.to_nat size) buf vs buf' ->
  unpackList u size buf = Ok (VArray vs) buf'.
Proof.
  intros H. unfold unpackList. rewrite for_fold_const.
  unfold bind at 1. now rewrite (collect_unpacks _ _ _ _ _ [] H).
Qed.

Lemma unpackStruct_unpacks (u : M source value) (size signature : Z)
    (rest buf' : source) (fields : list value) :
  structMappers signature = None ->
  unpacks u (Z.to_nat size) rest fields buf' ->
  unpackStruct structMappers u size (signature :: rest)
  = Ok (VStructure signature fields) buf'.
Proof.
  intros Hm H. unfold unpackStruct, bind at 1.
  rewrite readUInt8_cons, Hm, for_fold_const.
  unfold bind at 1. now rewrite (collect_unpacks _ _ _ _ _ [] H).
Qed.

(** The dispatch of [unpack] on the three struct headers. *)
Lemma unpack_struct_header (fuel : nat) (size : Z) (header : list Z)
    (rest : source) :
  struct_header size header ->
  unpack ToString structMappers (S fuel) (header ++ rest) =
  unpackStruct structMappers (unpack ToString structMappers fuel) size rest.
Proof.
  intros [n Hn|n Hn|hi lo Hhi Hlo]; cbn [unpack app].
  - assert (Hc : In n [0;1;2;3;4;5;6;7;8;9;10;11;12;13;14;15])
      by (cbn; lia).
    cbn [In] in Hc.
    repeat (destruct Hc as [<-|Hc]; [reflexivity|]). contradiction.
  - unfold unpack_body, bind at 1. rewrite readUInt8_cons.
    cbn -[unpackStruct readUInt8 bind].
    unfold bind at 1. now rewrite readUInt8_cons.
  - unfold unpack_body, bind at 1. rewrite readUInt8_cons.
    cbn -[unpackStruct readUInt16 bind].
    unfold bind at 1. unfold readUInt16, readUnsigned, bind, readBytes.
    cbn [length Nat.leb firstn skipn ret be_value fold_left].
    do 2 f_equal.
Qed.

End UnpackerFacts.

(** ** C6: mapper dispatch *)

(** C6. When [unpack] meets a structure (any of the three struct headers,
    then the signature byte): if a mapper is registered for the signature,
    the result of [unpack] is exactly what the mapper returns when it is
    called with the unpacker and the buffer; if none is registered, the
    result is a Structure with the decoded signature whose fields are the
    declared number of values unpacked recursively, in order. *)
Theorem unpack_struct_dispatch
    (ToString : value -> exn + string) (structMappers : Z -> option mapper)
    (fuel : nat) (size signature : Z) (header : list Z) (rest : source) :
  struct_header size header ->
  let this_unpack := unpack ToString structMappers fuel in
  let result :=
    unpack ToString structMappers (S fuel) (header ++ signature :: rest) in
  (forall mapper,
     structMappers signature = Some mapper ->
     result = mapper this_unpack rest) /\
  (structMappers signature = None ->
   forall fields rest',
     unpacks this_unpack (Z.to_nat size) rest fields rest' ->
     result = Ok (VStructure signature fields) rest' /\
     length fields = Z.to_nat size).
Proof.
  intros Hh this_unpack result. unfold result.
  rewrite (unpack_struct_header ToString structMappers fuel size header
             (signature :: rest) Hh).
  fold this_unpack. split.
  - intros mapper Hm. unfold unpackStruct, bind.
    now rewrite readUInt8_cons, Hm.
  - intros Hm fields rest' H. split.
    + now apply unpackStruct_unpacks.
    + now apply unpacks_length in H.
Qed.

Lemma unpack_struct_dispatch_witness :
  unpack (fun _ => inr ""%string) one_mapper 2 [0xB1; 0x4E; 0x01]
    = Ok (VArray [VInteger (int 1)]) [] /\
  unpack (fun _ => inr ""%string) one_mapper 2 [0xB1; 0x4F; 0x01]
    = Ok (VStructure 0x4F [VInteger (int 1)]) [].
Proof.
  split.
  - destruct (unpack_struct_dispatch (fun _ => inr ""%string) one_mapper 1
                1 0x4E _ [0x01] (struct_header_tiny 1 ltac:(lia)))
      as [H _].
    exact (H wrap_mapper eq_refl).
  - destruct (unpack_struct_dispatch (fun _ => inr ""%string) one_mapper 1
                1 0x4F _ [0x01] (struct_header_tiny 1 ltac:(lia)))
      as [_ H].
    apply (H eq_refl [VInteger (int 1)] []).
    econstructor; [reflexivity|constructor].
Defined.

(** ** Objects *)

Lemma existsb_eqb_In (k : string) (l : list string) :
  existsb (String.eqb k) l = true <-> In k l.
Proof.
  rewrite existsb_exists. split.
  - intros (x & Hx & Hk). apply String.eqb_eq in Hk. now subst.
  - intros H. exists k. split; [assumption|apply String.eqb_refl].
Qed.

Lemma has_own_property_In (o : list (string * value)) (k : string) :
  has_own_property o k = true <-> In k (Object_keys o).
Proof. apply existsb_eqb_In. Qed.

Lemma has_own_property_not_In (o : list (string * value)) (k : string) :
  has_own_property o k = false <-> ~ In k (Object_keys o).
Proof.
  rewrite <- has_own_property_In. now destruct (has_own_property o k).
Qed.

Lemma keys_replace_prop (o : list (string * value)) (k : string) (v : value) :
  Object_keys (replace_prop o k v) = Object_keys o.
Proof.
  unfold Object_keys. induction o as [|[k0 v0] o IH]; [reflexivity|].
  cbn [replace_prop]. destruct (String.eqb k0 k); cbn [map fst]; congruence.
Qed.

Lemma length_replace_prop (o : list (string * value)) (k : string)
    (v : value) :
  length (replace_prop o k v) = length o.
Proof.
  induction o as [|[k0 v0] o IH]; [reflexivity|].
  cbn [replace_prop]. destruct (String.eqb k0 k); cbn [length]; congruence.
Qed.

Lemma In_replace_prop (o : list (string * value)) (k : string) (v : value)
    (p : string * value) :
  In p (replace_prop o k v) -> p = (k, v) \/ In p o.
Proof.
  induction o as [|[k0 v0] o IH]; [contradiction|].
  cbn [replace_prop]. destruct (String.eqb_spec k0 k) as [->|_]; cbn [In].
  - intros [<-|H]; auto.
  - intros [<-|H]; auto. destruct (IH H); auto.
Qed.

Lemma get_replace_prop (o : list (string * value)) (k k' : string)
    (v : value) :
  In k (Object_keys o) ->
  get_prop (replace_prop o k v) k' =
  if String.eqb k k' then v else get_prop o k'.
Proof.
  unfold Object_keys. induction o as [|[k0 v0] o IH]; [contradiction|].
  cbn [map fst In replace_prop]. intros Hin.
  destruct (String.eqb_spec k0 k) as [->|Hk0]; cbn [get_prop].
  - now destruct (String.eqb k k').
  - destruct Hin as [Hin|Hin]; [contradiction|]. rewrite (IH Hin).
    destruct (String.eqb_spec k0 k') as [->|_]; [|reflexivity].
    destruct (String.eqb_spec k k') as [->|_]; [contradiction|reflexivity].
Qed.

Lemma insert_prop_perm (o : list (string * value)) (k : string) (v : value) :
  Permutation (insert_prop o k v) ((k, v) :: o).
Proof.
  induction o as [|[k0 v0] o IH]; [reflexivity|].
  cbn [insert_prop]. destruct (listed_before k k0); [reflexivity|].
  rewrite IH. apply perm_swap.
Qed.

Lemma get_insert_prop (o : list (string * value)) (k k' : string)
    (v : value) :
  ~ In k (Object_keys o) ->
  get_prop (insert_prop o k v) k' =
  if String.eqb k k' then v else get_prop o k'.
Proof.
  unfold Object_keys. induction o as [|[k0 v0] o IH]; [reflexivity|].
  cbn [map fst In insert_prop]. intros Hin.
  destruct (listed_before k k0); [reflexivity|].
  cbn [get_prop]. rewrite IH by tauto.
  destruct (String.eqb_spec k0 k') as [->|_]; [|reflexivity].
  destruct (String.eqb_spec k k') as [->|_]; [tauto|reflexivity].
Qed.

Lemma insert_prop_last (o : list (string * value)) (k : string) (v : value) :
  Forall (fun k0 => listed_before k k0 = false) (Object_keys o) ->
  insert_prop o k v = o ++ [(k, v)].
Proof.
  unfold Object_keys. induction o as [|[k0 v0] o IH]; [reflexivity|].
  cbn [map fst insert_prop app]. intros H.
  inversion H as [|? ? Hk0 Ho]; subst. rewrite Hk0, IH by assumption.
  reflexivity.
Qed.

Lemma get_define_prop (o : list (string * value)) (k k' : string)
    (v : value) :
  get_prop (define_prop o k v) k' =
  if String.eqb k k' then v else get_prop o k'.
Proof.
  unfold define_prop. destruct (has_own_property o k) eqn:E.
  - apply get_replace_prop. now apply has_own_property_In.
  - apply get_insert_prop. now apply has_own_property_not_In.
Qed.

Lemma In_define_prop (o : list (string * value)) (k : string) (v : value)
    (p : string * value) :
  In p (define_prop o k v) -> p = (k, v) \/ In p o.
Proof.
  unfold define_prop. destruct (has_own_property o k).
  - apply In_replace_prop.
  - intros H. apply (Permutation_in _ (insert_prop_perm o k v)) in H.
    destruct H as [<-|H]; auto.
Qed.

Lemma keys_define_prop (o : list (string * value)) (k : string) (v : value)
    (x : string) :
  In x (Object_keys (define_prop o k v)) <-> x = k \/ In x (Object_keys o).
Proof.
  unfold define_prop. destruct (has_own_property o k) eqn:E.
  - rewrite keys_replace_prop. apply has_own_property_In in E.
    split; [auto|]. now intros [->|H].
  - unfold Object_keys.
    pose proof (Permutation_map fst (insert_prop_perm o k v)) as Hp.
    cbn [map fst] in Hp. split.
    + intros H. apply (Permutation_in _ Hp) in H.
      destruct H as [<-|H]; auto.
    + intros H. apply (Permutation_in _ (Permutation_sym Hp)).
      destruct H as [->|H]; [now left|now right].
Qed.

Lemma NoDup_keys_define_prop (o : list (string * value)) (k : string)
    (v : value) :
  NoDup (Object_keys o) -> NoDup (Object_keys (define_prop o k v)).
Proof.
  intros Hnd. unfold define_prop. destruct (has_own_property o k) eqn:E.
  - now rewrite keys_replace_prop.
  - unfold Object_keys.
    apply (Permutation_NoDup
             (Permutation_sym (Permutation_map fst (insert_prop_perm o k v)))).
    cbn [map fst]. constructor; [|assumption].
    now apply has_own_property_not_In.
Qed.

Lemma length_define_prop (o : list (string * value)) (k : string)
    (v : value) :
  length (define_prop o k v) =
  if has_own_property o k then length o else S (length o).
Proof.
  unfold define_prop. destruct (has_own_property o k).
  - apply length_replace_prop.
  - now rewrite (Permutation_length (insert_prop_perm o k v)).
Qed.

(** Assignments. *)

Lemma set_prop_plain (o : object) (k : string) (v : value) :
  k <> "__proto__"%string ->
  set_prop o k v = mkObject (define_prop (own o) k v) (inherits_proto o).
Proof.
  intros Hk. unfold set_prop.
  destruct (String.eqb_spec k "__proto__"); [contradiction|reflexivity].
Qed.

Lemma set_prop_cases (o : object) (k : string) (v : value) :
  own (set_prop o k v) = own o /\ k = "__proto__"%string \/
  own (set_prop o k v) = define_prop (own o) k v.
Proof.
  unfold set_prop. destruct (String.eqb_spec k "__proto__") as [->|_];
    [|now right].
  destruct (inherits_proto o); [|now right].
  left. now destruct v.
Qed.

Lemma get_set_prop (o : object) (k k' : string) (v : value) :
  k' <> "__proto__"%string ->
  get_prop (own (set_prop o k v)) k' =
  if String.eqb k k' then v else get_prop (own o) k'.
Proof.
  intros Hk'. destruct (set_prop_cases o k v) as [[-> ->] | ->].
  - destruct (String.eqb_spec "__proto__" k') as [<-|_];
      [contradiction|reflexivity].
  - apply get_define_prop.
Qed.

Lemma In_set_prop (o : object) (k : string) (v : value)
    (p : string * value) :
  In p (own (set_prop o k v)) -> p = (k, v) \/ In p (own o).
Proof.
  destruct (set_prop_cases o k v) as [[-> _] | ->]; [auto|].
  apply In_define_prop.
Qed.

Lemma keys_set_prop (o : object) (k : string) (v : value) (x : string) :
  x <> "__proto__"%string ->
  In x (Object_keys (own (set_prop o k v))) <->
  x = k \/ In x (Object_keys (own o)).
Proof.
  intros Hx. destruct (set_prop_cases o k v) as [[-> ->] | ->].
  - split; [auto|]. now intros [->|H].
  - apply keys_define_prop.
Qed.

Lemma NoDup_keys_set_prop (o : object) (k : string) (v : value) :
  NoDup (Object_keys (own o)) -> NoDup (Object_keys (own (set_prop o k v))).
Proof.
  intros Hnd. destruct (set_prop_cases o k v) as [[-> _] | ->];
    [assumption|now apply NoDup_keys_define_prop].
Qed.

Lemma length_set_prop (o : object) (k : string) (v : value) :
  (length (own (set_prop o k v)) <= S (length (own o)))%nat /\
  (In k (Object_keys (own o)) ->
   length (own (set_prop o k v)) = length (own o)).
Proof.
  destruct (set_prop_cases o k v) as [[-> _] | ->]; [split; [lia|reflexivity]|].
  rewrite length_define_prop. split.
  - destruct (has_own_property (own o) k); lia.
  - intros Hin. apply has_own_property_In in Hin. now rewrite Hin.
Qed.

Lemma get_prop_app_notin (l rest : list (string * value)) (key : string) :
  ~ In key (Object_keys l) -> get_prop (l ++ rest) key = get_prop rest key.
Proof.
  unfold Object_keys. induction l as [|[k0 v0] l IH]; [reflexivity|].
  cbn [app get_prop map fst In]. intros Hin.
  destruct (String.eqb_spec k0 key) as [->|_]; [tauto|].
  apply IH. tauto.
Qed.

Lemma get_prop_app_in (l rest : list (string * value)) (key : string) :
  In key (Object_keys l) -> get_prop (l ++ rest) key = get_prop l key.
Proof.
  unfold Object_keys. induction l as [|[k0 v0] l IH]; [contradiction|].
  cbn [app get_prop map fst In]. intros Hin.
  destruct (String.eqb_spec k0 key) as [->|Hne]; [reflexivity|].
  apply IH. destruct Hin; [contradiction|assumption].
Qed.

(** A sequence of assignments. *)

Lemma get_fold_assign (entries : list (string * value)) (o : object)
    (key : string) :
  key <> "__proto__"%string ->
  get_prop (own (fold_left assign entries o)) key =
  if existsb (String.eqb key) (map fst entries)
  then last_value entries key
  else get_prop (own o) key.
Proof.
  intros Hkey. unfold last_value.
  revert o. induction entries as [|[k v] entries IH]; intros o;
    [reflexivity|].
  cbn [fold_left map existsb rev fst]. rewrite IH. clear IH.
  assert (Hkeys : In key (Object_keys (rev entries))
                  <-> existsb (String.eqb key) (map fst entries) = true).
  { unfold Object_keys. rewrite map_rev, <- in_rev. symmetry.
    apply existsb_eqb_In. }
  destruct (existsb (String.eqb key) (map fst entries)) eqn:E.
  - rewrite orb_true_r. rewrite get_prop_app_in; [reflexivity|].
    now apply Hkeys.
  - rewrite orb_false_r, get_prop_app_notin.
    + unfold assign. cbn [fst snd get_prop]. rewrite get_set_prop by assumption.
      rewrite (String.eqb_sym key).
      now destruct (String.eqb k key).
    + intros Hin. apply Hkeys in Hin. discriminate.
Qed.

Lemma keys_fold_assign (entries : list (string * value)) (o : object)
    (key : string) :
  key <> "__proto__"%string ->
  In key (Object_keys (own (fold_left assign entries o))) <->
  In key (Object_keys (own o)) \/ In key (map fst entries).
Proof.
  intros Hkey. revert o.
  induction entries as [|[k v] entries IH]; intros o; cbn [fold_left map fst].
  - cbn [In]. tauto.
  - rewrite IH. unfold assign at 1. cbn [fst snd In].
    rewrite keys_set_prop by assumption. intuition congruence.
Qed.

Lemma NoDup_keys_fold_assign (entries : list (string * value)) (o : object) :
  NoDup (Object_keys (own o)) ->
  NoDup (Object_keys (own (fold_left assign entries o))).
Proof.
  revert o. induction entries as [|e entries IH]; intros o Hnd;
    [assumption|].
  cbn [fold_left]. apply IH. now apply NoDup_keys_set_prop.
Qed.

Lemma length_fold_assign (entries : list (string * value)) (o : object) :
  (length (own (fold_left assign entries o))
   <= length (own o) + length entries)%nat.
Proof.
  revert o. induction entries as [|e entries IH]; intros o; cbn [fold_left length];
    [lia|].
  specialize (IH (assign o e)).
  pose proof (proj1 (length_set_prop o (fst e) (snd e))) as H.
  unfold assign in *. lia.
Qed.

Lemma length_fold_assign_own (entries : list (string * value)) (o : object)
    (key : string) :
  key <> "__proto__"%string ->
  In key (Object_keys (own o)) ->
  In key (map fst entries) ->
  (length (own (fold_left assign entries o))
   < length (own o) + length entries)%nat.
Proof.
  intros Hkey. revert o.
  induction entries as [|[k v] entries IH]; intros o Ho Hin; [contradiction|].
  cbn [fold_left length map fst In] in *.
  destruct (String.eqb_spec k key) as [->|Hne].
  - pose proof (length_fold_assign entries (assign o (key, v))) as H.
    pose proof (proj2 (length_set_prop o key v) Ho) as H'.
    unfold assign in *. cbn [fst snd] in *. lia.
  - destruct Hin as [Hin|Hin]; [contradiction|].
    assert (Ho' : In key (Object_keys (own (assign o (k, v))))).
    { unfold assign. cbn [fst snd]. apply keys_set_prop; auto. }
    specialize (IH _ Ho' Hin).
    pose proof (proj1 (length_set_prop o k v)) as H.
    unfold assign in *. cbn [fst snd] in *. lia.
Qed.

Lemma length_fold_assign_repeated (entries : list (string * value))
    (o : object) (key : string) :
  key <> "__proto__"%string ->
  (1 < count_occ string_dec (map fst entries) key)%nat ->
  (length (own (fold_left assign entries o))
   < length (own o) + length entries)%nat.
Proof.
  intros Hkey. revert o.
  induction entries as [|[k v] entries IH]; intros o Hcount;
    [cbn in Hcount; lia|].
  cbn [fold_left length map fst] in *.
  pose proof (proj1 (length_set_prop o k v)) as Hle.
  destruct (string_dec k key) as [->|Hne].
  - rewrite count_occ_cons_eq in Hcount by reflexivity.
    assert (Hin : In key (map fst entries)).
    { apply (count_occ_In string_dec). lia. }
    assert (Ho' : In key (Object_keys (own (assign o (key, v))))).
    { unfold assign. cbn [fst snd]. apply keys_set_prop; auto. }
    pose proof (length_fold_assign_own entries _ key Hkey Ho' Hin) as H.
    unfold assign in *. cbn [fst snd] in *. lia.
  - rewrite count_occ_cons_neq in Hcount by assumption.
    specialize (IH (assign o (k, v)) Hcount).
    unfold assign in *. cbn [fst snd] in *. lia.
Qed.

(** What the loop of [unpackMap] computes, when every key is converted. *)
Lemma collect_entries (ToString : value -> exn + string)
    (u : M source value) (n : nat) (buf buf' : source)
    (entries : list (value * value)) (names : list string) (o : object) :
  unpacks_entries u n buf entries buf' ->
  map (fun e => property_key ToString (fst e)) entries = map inr names ->
  foldM (fun (_ : unit) value =>
           key <- u ;; v <- u ;;
           name <- lift (property_key ToString key) ;;
           ret (set_prop value name v))
        (repeat tt n) o buf
  = Ok (fold_left assign (combine names (map snd entries)) o) buf'.
Proof.
  intros H. revert o names.
  induction H as [buf|n buf buf1 buf2 buf' key v entries Hk Hv _ IH];
    intros o names Hnames; cbn [repeat foldM map] in *.
  - destruct names; [reflexivity|discriminate].
  - destruct names as [|name names]; [discriminate|].
    cbn [map fst snd combine fold_left] in *.
    injection Hnames as Hname Hnames.
    unfold bind at 1. unfold bind at 1. rewrite Hk.
    unfold bind at 1. rewrite Hv.
    unfold bind at 1. rewrite Hname. cbn [lift ret]. now apply IH.
Qed.

Lemma unpacks_entries_length (u : M source value) (n : nat)
    (buf buf' : source) (entries : list (value * value)) :
  unpacks_entries u n buf entries buf' -> length entries = n.
Proof. induction 1; cbn; congruence. Qed.

(** ** Induction on values *)

(** Induction on values, through the lists they contain. *)
Lemma value_nested_ind (P : value -> Prop) :
  P VUndefined -> P VNull -> (forall b, P (VBool b)) ->
  (forall bits, P (VNumber bits)) -> (forall s, P (VString s)) ->
  (forall x, P (VInteger x)) ->
  (forall elems, Forall P elems -> P (VArray elems)) ->
  (forall signature fields, Forall P fields -> P (VStructure signature fields)) ->
  (forall props, Forall (fun p => P (snd p)) props -> P (VObject props)) ->
  forall v, P v.
Proof.
  intros Hu Hn Hb Hf Hs Hi Ha Hst Ho.
  fix IH 1. intros [| |b|bits|s|x|elems|signature fields|props];
    [exact Hu|exact Hn|apply Hb|apply Hf|apply Hs|apply Hi| | | ].
  - apply Ha. induction elems as [|e elems IHe]; constructor;
      [apply IH|exact IHe].
  - apply Hst. induction fields as [|e fields IHe]; constructor;
      [apply IH|exact IHe].
  - apply Ho. induction props as [|[k e] props IHe]; constructor;
      [apply IH|exact IHe].
Qed.

(** ** Reading what was written *)

Lemma readBytes_app (bytes rest : list Z) :
  readBytes (length bytes) (bytes ++ rest) = Ok bytes rest.
Proof.
  unfold readBytes.
  rewrite length_app, (proj2 (Nat.leb_le _ _)) by lia.
  now rewrite firstn_app, Nat.sub_diag, firstn_all, firstn_O, app_nil_r,
    skipn_app, Nat.sub_diag, skipn_all, skipn_O.
Qed.

Lemma readUnsigned_be_bytes (n : nat) (v : Z) (rest : list Z) :
  readUnsigned n (be_bytes n v ++ rest) = Ok (v mod 256 ^ Z.of_nat n) rest.
Proof.
  unfold readUnsigned, bind.
  rewrite <- (be_bytes_length n v) at 1.
  now rewrite readBytes_app, be_value_be_bytes.
Qed.

Lemma readSigned_be_bytes (n : nat) (v : Z) (rest : list Z) :
  readSigned n (be_bytes n v ++ rest)
  = Ok (signed (8 * Z.of_nat n) (v mod 256 ^ Z.of_nat n)) rest.
Proof.
  unfold readSigned, bind.
  rewrite <- (be_bytes_length n v) at 1.
  now rewrite readBytes_app, be_value_be_bytes.
Qed.

(** A value of the signed range of [n] bytes is read back unchanged. *)
Lemma signed_roundtrip (n : nat) (v : Z) :
  (0 < n)%nat ->
  - 2 ^ (8 * Z.of_nat n - 1) <= v < 2 ^ (8 * Z.of_nat n - 1) ->
  signed (8 * Z.of_nat n) (v mod 256 ^ Z.of_nat n) = v.
Proof.
  intros Hn Hv. unfold signed.
  assert (H256 : 256 ^ Z.of_nat n = 2 ^ (8 * Z.of_nat n)).
  { change 256 with (2 ^ 8). now rewrite <- Z.pow_mul_r by lia. }
  rewrite H256.
  assert (Hhalf : 2 ^ (8 * Z.of_nat n) = 2 * 2 ^ (8 * Z.of_nat n - 1)).
  { rewrite <- Z.pow_succ_r by lia. f_equal. lia. }
  assert (Hh : 0 < 2 ^ (8 * Z.of_nat n - 1)) by (apply Z.pow_pos_nonneg; lia).
  set (h := 2 ^ (8 * Z.of_nat n - 1)) in *.
  rewrite Hhalf.
  destruct (Z.ltb_spec 0 (v + 1)) as [Hpos|Hneg].
  - rewrite Z.mod_small by lia.
    destruct (Z.ltb_spec v h); lia.
  - replace (v mod (2 * h)) with (v + 2 * h).
    + destruct (Z.ltb_spec (v + 2 * h) h); lia.
    + apply Z.mod_unique with (q := -1); lia.
Qed.

Lemma int_Integer_toZ (x : Integer) : Integer_wf x -> int (Integer_toZ x) = x.
Proof.
  intros [Hl Hh]. unfold int32 in *. destruct x as [l h]. cbn [low high] in *.
  unfold int. rewrite Integer_toZ_split. cbn [low high].
  rewrite Z.div_add by lia.
  rewrite Z.div_small by (apply Z.mod_pos_bound; lia).
  rewrite Z.add_0_l, (toInt32_small h) by (unfold int32; lia).
  f_equal. unfold toInt32.
  replace (l mod 2 ^ 32 + h * 2 ^ 32 + 2 ^ 31)
    with (l mod 2 ^ 32 + 2 ^ 31 + h * 2 ^ 32) by lia.
  rewrite Z.mod_add by lia.
  rewrite Z.add_mod_idemp_l by lia.
  rewrite Z.mod_small by lia. lia.
Qed.

(** In the 32-bit range, the value of an [Integer] is its low half. *)
Lemma Integer_toZ_int32 (x : Integer) :
  Integer_wf x -> int32 (Integer_toZ x) -> Integer_toZ x = low x.
Proof.
  intros [Hl Hh] Hv. unfold int32 in *. rewrite Integer_toZ_split in *.
  destruct (Z.ltb_spec (low x) 0).
  - replace (low x mod 2 ^ 32) with (low x + 2 ^ 32) in *
      by (apply Z.mod_unique with (q := -1); lia).
    lia.
  - rewrite Z.mod_small in * by lia. lia.
Qed.

(** ** The dispatch of [unpack] on a marker *)

Ltac unfold_markers :=
  unfold NULL, TRUE, FALSE, FLOAT_64, INT_8, INT_16, INT_32, INT_64,
    STRING_8, STRING_16, STRING_32, LIST_8, LIST_16, LIST_32,
    MAP_8, MAP_16, MAP_32, STRUCT_8, STRUCT_16,
    TINY_STRING, TINY_LIST, TINY_MAP, TINY_STRUCT in *.

Ltac decide_test :=
  lazymatch goal with
  | |- (_ =? _) = true => apply Z.eqb_eq; lia
  | |- (_ =? _) = false => apply Z.eqb_neq; lia
  | |- (_ <=? _) && (_ <? _) = true =>
      apply andb_true_iff; split; [apply Z.leb_le|apply Z.ltb_lt]; lia
  | |- (_ <=? _) && (_ <? _) = false =>
      apply andb_false_iff;
      first [left; apply Z.leb_gt; lia|right; apply Z.ltb_ge; lia]
  end.

(** Resolve the first test of a ladder of [if]s by arithmetic. *)
Ltac ladder_step :=
  lazymatch goal with
  | |- context [if ?c then _ else _] =>
      first [replace c with false by (symmetry; decide_test)
            |replace c with true by (symmetry; decide_test)];
      cbv iota
  end.

Section Dispatch.

Variable ToString : value -> exn + string.
Variable structMappers : Z -> option mapper.

Local Notation U := (unpack ToString structMappers).

Lemma unpack_marker (fuel : nat) (marker : Z) (rest : source) :
  U (S fuel) (marker :: rest) =
  (unpack_body ToString structMappers (U fuel)) (marker :: rest).
Proof. reflexivity. Qed.

Lemma unpack_tiny_int (fuel : nat) (v : Z) (rest : source) :
  -16 <= v < 128 ->
  U (S fuel) (be_bytes 1 v ++ rest) = Ok (VInteger (int v)) rest.
Proof.
  intros Hv. rewrite be_bytes_1. cbn [app]. rewrite unpack_marker.
  unfold unpack_body, bind at 1. rewrite readUInt8_cons.
  unfold_markers.
  destruct (Z.ltb_spec v 0).
  - replace (v mod 256) with (v + 256)
      by (apply Z.mod_unique with (q := -1); lia).
    do 5 ladder_step. ladder_step. unfold ret. do 3 f_equal. lia.
  - rewrite Z.mod_small by lia.
    do 4 ladder_step. ladder_step. reflexivity.
Qed.

Lemma unpack_FLOAT_64 (fuel : nat) (rest : source) :
  U (S fuel) (FLOAT_64 :: rest) = (bits <- readFloat64 ;; ret (VNumber bits)) rest.
Proof. reflexivity. Qed.

Lemma unpack_INT_8 (fuel : nat) (rest : source) :
  U (S fuel) (INT_8 :: rest) = (b <- readInt8 ;; ret (VInteger (int b))) rest.
Proof. reflexivity. Qed.

Lemma unpack_INT_16 (fuel : nat) (rest : source) :
  U (S fuel) (INT_16 :: rest) = (b <- readInt16 ;; ret (VInteger (int b))) rest.
Proof. reflexivity. Qed.

Lemma unpack_INT_32 (fuel : nat) (rest : source) :
  U (S fuel) (INT_32 :: rest) = (b <- readInt32 ;; ret (VInteger (int b))) rest.
Proof. reflexivity. Qed.

Lemma unpack_INT_64 (fuel : nat) (rest : source) :
  U (S fuel) (INT_64 :: rest)
  = (high <- readInt32 ;; low <- readInt32 ;;
     ret (VInteger (mkInteger low high))) rest.
Proof. reflexivity. Qed.

Lemma unpack_STRING_8 (fuel : nat) (rest : source) :
  U (S fuel) (STRING_8 :: rest) = (n <- readUInt8 ;; utf8_decode n) rest.
Proof. reflexivity. Qed.

Lemma unpack_STRING_16 (fuel : nat) (rest : source) :
  U (S fuel) (STRING_16 :: rest) = (n <- readUInt16 ;; utf8_decode n) rest.
Proof. reflexivity. Qed.

Lemma unpack_STRING_32 (fuel : nat) (rest : source) :
  U (S fuel) (STRING_32 :: rest) = (n <- readUInt32 ;; utf8_decode n) rest.
Proof. reflexivity. Qed.

Lemma unpack_LIST_8 (fuel : nat) (rest : source) :
  U (S fuel) (LIST_8 :: rest) = (n <- readUInt8 ;; unpackList (U fuel) n) rest.
Proof. reflexivity. Qed.

Lemma unpack_LIST_16 (fuel : nat) (rest : source) :
  U (S fuel) (LIST_16 :: rest) = (n <- readUInt16 ;; unpackList (U fuel) n) rest.
Proof. reflexivity. Qed.

Lemma unpack_LIST_32 (fuel : nat) (rest : source) :
  U (S fuel) (LIST_32 :: rest) = (n <- readUInt32 ;; unpackList (U fuel) n) rest.
Proof. reflexivity. Qed.

Lemma unpack_MAP_8 (fuel : nat) (rest : source) :
  U (S fuel) (MAP_8 :: rest)
  = (n <- readUInt8 ;; unpackMap ToString (U fuel) n) rest.
Proof. reflexivity. Qed.

Lemma unpack_MAP_16 (fuel : nat) (rest : source) :
  U (S fuel) (MAP_16 :: rest)
  = (n <- readUInt16 ;; unpackMap ToString (U fuel) n) rest.
Proof. reflexivity. Qed.

Lemma unpack_MAP_32 (fuel : nat) (rest : source) :
  U (S fuel) (MAP_32 :: rest)
  = (n <- readUInt32 ;; unpackMap ToString (U fuel) n) rest.
Proof. reflexivity. Qed.

Lemma unpack_tiny_markers (fuel : nat) (n : Z) (rest : source) :
  0 <= n < 16 ->
  U (S fuel) (TINY_STRING + n :: rest) = utf8_decode n rest /\
  U (S fuel) (TINY_LIST + n :: rest) = unpackList (U fuel) n rest /\
  U (S fuel) (TINY_MAP + n :: rest) = unpackMap ToString (U fuel) n rest.
Proof.
  intros Hn.
  assert (Hc : In n [0;1;2;3;4;5;6;7;8;9;10;11;12;13;14;15]) by (cbn; lia).
  cbn [In] in Hc.
  repeat (destruct Hc as [<-|Hc]; [repeat split; reflexivity|]).
  contradiction.
Qed.

(** ** Integers *)

Lemma readInt8_signed (v : Z) (rest : source) :
  - 2 ^ 7 <= v < 2 ^ 7 -> readInt8 (be_bytes 1 v ++ rest) = Ok v rest.
Proof.
  intros Hv. unfold readInt8. rewrite readSigned_be_bytes.
  now rewrite signed_roundtrip by (cbn; lia).
Qed.

Lemma readInt16_signed (v : Z) (rest : source) :
  - 2 ^ 15 <= v < 2 ^ 15 -> readInt16 (be_bytes 2 v ++ rest) = Ok v rest.
Proof.
  intros Hv. unfold readInt16. rewrite readSigned_be_bytes.
  now rewrite signed_roundtrip by (cbn; lia).
Qed.

Lemma readInt32_signed (v : Z) (rest : source) :
  - 2 ^ 31 <= v < 2 ^ 31 -> readInt32 (be_bytes 4 v ++ rest) = Ok v rest.
Proof.
  intros Hv. unfold readInt32. rewrite readSigned_be_bytes.
  now rewrite signed_roundtrip by (cbn; lia).
Qed.

(** Every Int64 value is read back exactly, whatever tier it was written
    in. *)
Lemma unpack_integer (fuel : nat) (x : Integer) (rest : source) :
  Integer_wf x ->
  U (S fuel) (integer_tier (Integer_toZ x) ++ rest) = Ok (VInteger x) rest.
Proof.
  intros Hwf. pose proof (int_Integer_toZ x Hwf) as Hint.
  unfold integer_tier.
  destruct (Z.leb_spec (-16) (Integer_toZ x));
    destruct (Z.ltb_spec (Integer_toZ x) 128); cbn [andb];
    try (rewrite unpack_tiny_int by lia; now rewrite Hint).
  all: destruct (Z.leb_spec (-128) (Integer_toZ x));
    destruct (Z.ltb_spec (Integer_toZ x) (-16)); cbn [andb];
    try (cbn [app]; change 0xC8 with INT_8; rewrite unpack_INT_8; unfold bind;
         rewrite readInt8_signed by lia; unfold ret; now rewrite Hint).
  all: destruct (Z.leb_spec (- 2 ^ 15) (Integer_toZ x));
    destruct (Z.ltb_spec (Integer_toZ x) (2 ^ 15)); cbn [andb];
    try (cbn [app]; change 0xC9 with INT_16; rewrite unpack_INT_16; unfold bind;
         rewrite readInt16_signed by lia; unfold ret; now rewrite Hint).
  all: destruct (Z.leb_spec (- 2 ^ 31) (Integer_toZ x));
    destruct (Z.ltb_spec (Integer_toZ x) (2 ^ 31)); cbn [andb];
    try (cbn [app]; change 0xCA with INT_32; rewrite unpack_INT_32; unfold bind;
         rewrite readInt32_signed by lia; unfold ret; now rewrite Hint).
  all: cbn [app]; change 0xCB with INT_64; rewrite unpack_INT_64;
    rewrite <- be_bytes_high_low, <- app_assoc; unfold bind;
    destruct Hwf as [Hl Hh]; unfold int32 in *;
    rewrite !readInt32_signed by lia; unfold ret; now destruct x.
Qed.

(** ** Size headers *)

Lemma size_header_announces (tiny m8 m16 m32 : Z) (n : Z) :
  0 <= n < 2 ^ 32 ->
  announces tiny m8 m16 m32 n (size_header tiny m8 m16 m32 n).
Proof.
  intros Hn. unfold size_header.
  header_cases n; try lia; constructor; lia.
Qed.

Lemma unpack_announced (tiny m8 m16 m32 : Z) (k : Z -> M source value)
    (fuel : nat) :
  (forall n rest, 0 <= n < 16 -> U (S fuel) (tiny + n :: rest) = k n rest) ->
  (forall rest, U (S fuel) (m8 :: rest) = (n <- readUInt8 ;; k n) rest) ->
  (forall rest, U (S fuel) (m16 :: rest) = (n <- readUInt16 ;; k n) rest) ->
  (forall rest, U (S fuel) (m32 :: rest) = (n <- readUInt32 ;; k n) rest) ->
  forall n header rest,
    announces tiny m8 m16 m32 n header ->
    U (S fuel) (header ++ rest) = k n rest.
Proof.
  intros Ht H8 H16 H32 n header rest [m Hm|m Hm|m Hm|m Hm]; cbn [app].
  - now apply Ht.
  - rewrite H8. unfold bind. now rewrite readUInt8_cons.
  - rewrite H16. unfold bind, readUInt16.
    rewrite readUnsigned_be_bytes. now rewrite Z.mod_small by (cbn; lia).
  - rewrite H32. unfold bind, readUInt32.
    rewrite readUnsigned_be_bytes. now rewrite Z.mod_small by (cbn; lia).
Qed.

Lemma unpack_string_announced (fuel : nat) (n : Z) (header : list Z)
    (rest : source) :
  announces TINY_STRING STRING_8 STRING_16 STRING_32 n header ->
  U (S fuel) (header ++ rest) = utf8_decode n rest.
Proof.
  apply (unpack_announced TINY_STRING STRING_8 STRING_16 STRING_32
           utf8_decode).
  - intros m r Hm. now apply unpack_tiny_markers.
  - apply unpack_STRING_8.
  - apply unpack_STRING_16.
  - apply unpack_STRING_32.
Qed.

Lemma unpack_list_announced (fuel : nat) (n : Z) (header : list Z)
    (rest : source) :
  announces TINY_LIST LIST_8 LIST_16 LIST_32 n header ->
  U (S fuel) (header ++ rest) = unpackList (U fuel) n rest.
Proof.
  apply (unpack_announced TINY_LIST LIST_8 LIST_16 LIST_32
           (unpackList (U fuel))).
  - intros m r Hm. now apply unpack_tiny_markers.
  - apply unpack_LIST_8.
  - apply unpack_LIST_16.
  - apply unpack_LIST_32.
Qed.

Lemma unpack_map_announced (fuel : nat) (n : Z) (header : list Z)
    (rest : source) :
  announces TINY_MAP MAP_8 MAP_16 MAP_32 n header ->
  U (S fuel) (header ++ rest) = unpackMap ToString (U fuel) n rest.
Proof.
  apply (unpack_announced TINY_MAP MAP_8 MAP_16 MAP_32
           (unpackMap ToString (U fuel))).
  - intros m r Hm. now apply unpack_tiny_markers.
  - apply unpack_MAP_8.
  - apply unpack_MAP_16.
  - apply unpack_MAP_32.
Qed.

Lemma unpack_string_header (fuel : nat) (n : Z) (rest : source) :
  0 <= n < 2 ^ 32 ->
  U (S fuel) (string_header n ++ rest) = utf8_decode n rest.
Proof.
  intros Hn. apply unpack_string_announced.
  now apply size_header_announces.
Qed.

Lemma unpack_list_header (fuel : nat) (n : Z) (rest : source) :
  0 <= n < 2 ^ 32 ->
  U (S fuel) (list_header n ++ rest) = unpackList (U fuel) n rest.
Proof.
  intros Hn. apply unpack_list_announced.
  now apply size_header_announces.
Qed.

Lemma unpack_map_header (fuel : nat) (n : Z) (rest : source) :
  0 <= n < 2 ^ 32 ->
  U (S fuel) (map_header n ++ rest) = unpackMap ToString (U fuel) n rest.
Proof.
  intros Hn. apply unpack_map_announced.
  now apply size_header_announces.
Qed.

(** ** Strings and numbers *)

Lemma utf8_decode_encode (s : string) : utf8_decode_bytes (utf8_encode s) = s.
Proof.
  unfold utf8_decode_bytes, utf8_encode. rewrite map_map.
  rewrite (map_ext _ (fun c => c)), map_id.
  - apply string_of_list_ascii_of_string.
  - intros c. now rewrite N2Z.id, ascii_N_embedding.
Qed.

Lemma unpack_string (fuel : nat) (s : string) (rest : source) :
  Z.of_nat (length (utf8_encode s)) < 2 ^ 32 ->
  U (S fuel) (encode_string s ++ rest) = Ok (VString s) rest.
Proof.
  intros Hs. unfold encode_string. rewrite <- app_assoc.
  rewrite unpack_string_header by lia.
  unfold utf8_decode, bind. rewrite Nat2Z.id, readBytes_app.
  unfold ret. now rewrite utf8_decode_encode.
Qed.

Lemma unpack_number (fuel : nat) (bits : Z) (rest : source) :
  0 <= bits < 2 ^ 64 ->
  U (S fuel) (FLOAT_64 :: be_bytes 8 bits ++ rest) = Ok (VNumber bits) rest.
Proof.
  intros Hb. rewrite unpack_FLOAT_64. unfold bind, readFloat64.
  rewrite readUnsigned_be_bytes. now rewrite Z.mod_small by (cbn; lia).
Qed.

End Dispatch.

(** ** C8: undefined list elements *)

(** C8. For every list input, the Packer first writes a list header whose
    declared element count is the full length of the list, then packs
    every element in order, an element that is [undefined] being packed as
    Null (marker 0xC0): the length of the list is preserved, no element is
    filtered out. *)
Theorem pack_list_keeps_length (xs : list value) (onError : option callback) :
  Z.of_nat (length xs) < 2 ^ 32 ->
  pack (VArray xs) onError =
    (emit (list_header (Z.of_nat (length xs))) ;;
     each (fun x => pack (undefined_to_null x) onError) xs) /\
  (forall ToString structMappers fuel rest,
     unpack ToString structMappers (S fuel)
            (list_header (Z.of_nat (length xs)) ++ rest)
     = unpackList (unpack ToString structMappers fuel)
                  (Z.of_nat (length xs)) rest) /\
  undefined_to_null VUndefined = VNull /\
  emits (pack VNull onError) [0xC0] /\
  (forall k pre post,
     xs = pre ++ repeat VUndefined k ++ post ->
     pack (VArray xs) onError =
       (emit (list_header (Z.of_nat (length xs))) ;;
        each (fun x => pack (undefined_to_null x) onError) pre ;;
        emit (repeat 0xC0 k) ;;
        each (fun x => pack (undefined_to_null x) onError) post)).
Proof.
  intros Hlen.
  assert (Hhead : packListHeader (Z.of_nat (length xs)) onError
                  = emit (list_header (Z.of_nat (length xs)))).
  { extensionality s. unfold emit.
    apply (packListHeader_emits (Z.of_nat (length xs)) onError). lia. }
  assert (Hpack : pack (VArray xs) onError =
    (emit (list_header (Z.of_nat (length xs))) ;;
     each (fun x => pack (undefined_to_null x) onError) xs)).
  { now rewrite pack_array, Hhead. }
  split; [exact Hpack|].
  split; [intros; apply unpack_list_header; lia|].
  split; [reflexivity|]. split; [apply pack_null|].
  intros k pre post ->. rewrite Hpack.
  apply bind_ext. intros _.
  rewrite !each_app. apply bind_ext. intros _.
  f_equal. extensionality s.
  rewrite (each_repeat_emits
             (fun x => pack (undefined_to_null x) onError)
             VUndefined [NULL] k (pack_null onError) s).
  unfold emit. do 3 f_equal.
  clear. induction k as [|k IH]; [reflexivity|]. cbn. now rewrite <- IH.
Qed.

Lemma pack_list_keeps_length_witness :
  pack (VArray [VInteger (int 1); VUndefined; VUndefined]) None empty_sink
  = Ok tt (mkSink [0x93; 0x01; 0xC0; 0xC0] []).
Proof.
  pose proof (pack_list_keeps_length
                [VInteger (int 1); VUndefined; VUndefined] None) as H.
  destruct H as (H & _); [cbn; lia|].
  rewrite H. reflexivity.
Defined.


(** ** C10: duplicate keys in an encoded map *)

Lemma fst_combine {A B} (l : list A) (l' : list B) :
  length l = length l' -> map fst (combine l l') = l.
Proof.
  revert l'. induction l as [|a l IH]; intros [|b l'] H; try discriminate;
    [reflexivity|].
  cbn [combine map fst]. f_equal. apply IH. now injection H.
Qed.

(** C10 does not hold for the key [__proto__].  A map of two entries,
    both with the key [__proto__], the first with the value true and the
    second with the value false, is unpacked without failure, but
    [__proto__] is not bound to false, the value of its last occurrence:
    the object returned has no property at all. *)
Lemma unpackMap_proto_key_unbound :
  unpack (fun _ => inr EmptyString) no_mappers 2
         [0xA2;
          0x89; 0x5F; 0x5F; 0x70; 0x72; 0x6F; 0x74; 0x6F; 0x5F; 0x5F; 0xC3;
          0x89; 0x5F; 0x5F; 0x70; 0x72; 0x6F; 0x74; 0x6F; 0x5F; 0x5F; 0xC2]
  = Ok (VObject []) [] /\
  utf8_encode "__proto__" = [0x5F; 0x5F; 0x70; 0x72; 0x6F; 0x74; 0x6F; 0x5F; 0x5F] /\
  get_prop [] "__proto__" = VUndefined.
Proof. repeat split. Qed.

(** C10, amended.  When [unpack] meets a map (any of the four map headers)
    whose entries are decoded successfully and whose keys are strings, or
    values that the host converts to a property key, it does not fail,
    also when they contain the same key more than once: it returns an
    object whose keys are distinct and that has at most as many entries as
    the header declared.  For every key other than [__proto__]: the key is
    in the object exactly when it is the key of an entry, it is then bound
    to the value of its last occurrence in encoded order, and when it
    occurs more than once the object has fewer entries than the header
    declared. *)
Theorem unpackMap_last_occurrence_wins
    (ToString : value -> exn + string) (structMappers : Z -> option mapper)
    (fuel : nat) (size : Z) (header : list Z) (buf buf' : source)
    (entries : list (value * value)) (names : list string) :
  announces TINY_MAP MAP_8 MAP_16 MAP_32 size header ->
  unpacks_entries (unpack ToString structMappers fuel) (Z.to_nat size)
                  buf entries buf' ->
  map (fun e => property_key ToString (fst e)) entries = map inr names ->
  exists obj,
    unpack ToString structMappers (S fuel) (header ++ buf)
      = Ok (VObject obj) buf' /\
    NoDup (Object_keys obj) /\
    (length obj <= Z.to_nat size)%nat /\
    forall key, key <> "__proto__"%string ->
      (In key (Object_keys obj) <-> In key names) /\
      (In key names ->
       get_prop obj key = last_value (combine names (map snd entries)) key) /\
      ((1 < count_occ string_dec names key)%nat ->
       (length obj < Z.to_nat size)%nat).
Proof.
  intros Hheader H Hnames.
  set (named := combine names (map snd entries)).
  set (obj := own (assign_all named)).
  pose proof (unpacks_entries_length _ _ _ _ _ H) as Hlen.
  assert (Hln : length names = length (map snd entries)).
  { apply (f_equal (@length _)) in Hnames.
    now rewrite !length_map in *. }
  assert (Hfst : map fst named = names) by now apply fst_combine.
  assert (Hsize : length named = Z.to_nat size).
  { rewrite <- Hfst in Hln at 1. rewrite !length_map in Hln. congruence. }
  exists obj. split; [|split; [|split]].
  - rewrite (unpack_map_announced ToString structMappers fuel size header buf
               Hheader).
    unfold unpackMap. rewrite for_fold_const. unfold bind at 1.
    now rewrite (collect_entries ToString _ _ _ _ _ names empty_object H Hnames).
  - apply NoDup_keys_fold_assign. constructor.
  - pose proof (length_fold_assign named empty_object) as Hle.
    fold (assign_all named) in Hle. fold obj in Hle.
    cbn [own empty_object length] in Hle. lia.
  - intros key Hkey. split; [|split].
    + unfold obj, assign_all. rewrite keys_fold_assign by assumption.
      rewrite Hfst. cbn [own empty_object Object_keys map In]. tauto.
    + intros Hin. unfold obj, assign_all.
      rewrite get_fold_assign by assumption. rewrite Hfst.
      apply existsb_eqb_In in Hin. now rewrite Hin.
    + intros Hcount. rewrite <- Hfst in Hcount.
      pose proof (length_fold_assign_repeated named empty_object key Hkey
                    Hcount) as Hlt.
      fold (assign_all named) in Hlt. fold obj in Hlt.
      cbn [own empty_object length] in Hlt. lia.
Qed.

Lemma unpackMap_last_occurrence_wins_witness :
  exists obj,
    unpack (fun _ => inr ""%string) no_mappers 2
           [0xA2; 0x81; 0x61; 0x01; 0x81; 0x61; 0x02]
    = Ok (VObject obj) [] /\
    get_prop obj "a" = VInteger (int 2) /\
    (length obj < 2)%nat.
Proof.
  destruct (unpackMap_last_occurrence_wins (fun _ => inr ""%string)
              no_mappers 1 2 [0xA2]
              [0x81; 0x61; 0x01; 0x81; 0x61; 0x02] []
              [(VString "a", VInteger (int 1));
               (VString "a", VInteger (int 2))]
              ["a"%string; "a"%string]
              (announces_tiny _ _ _ _ 2 ltac:(lia)))
    as (obj & Hobj & _ & _ & Hkey).
  - change (Z.to_nat 2) with 2%nat.
    apply unpacks_entries_cons
      with (buf1 := [0x01; 0x81; 0x61; 0x02]) (buf2 := [0x81; 0x61; 0x02]);
      [reflexivity|reflexivity|].
    apply unpacks_entries_cons with (buf1 := [0x02]) (buf2 := []);
      [reflexivity|reflexivity|].
    apply unpacks_entries_nil.
  - reflexivity.
  - exists obj. destruct (Hkey "a"%string) as (_ & Hget & Hlt);
      [discriminate|].
    split; [exact Hobj|]. split.
    + apply Hget. now left.
    + apply Hlt. cbn. lia.
Defined.

(** ** Objects whose keys are listed as they were written *)

Lemma keys_in_order_weaken (last last' : Z) (keys : list string) :
  last' <= last -> keys_in_order last keys = true ->
  keys_in_order last' keys = true.
Proof.
  intros Hle. destruct keys as [|k keys]; [reflexivity|].
  cbn [keys_in_order]. destruct (array_index k) as [i|]; [|trivial].
  intros H. apply andb_true_iff in H as [H1 H2]. rewrite H2, andb_true_r.
  apply Z.ltb_lt in H1. apply Z.ltb_lt. lia.
Qed.

Lemma keys_in_order_index (last i : Z) (l rest : list string) (k : string) :
  keys_in_order last (l ++ k :: rest) = true ->
  array_index k = Some i -> last < i.
Proof.
  revert last. induction l as [|k0 l IH]; intros last; cbn [app keys_in_order].
  - intros H Hk. rewrite Hk in H. apply andb_true_iff in H as [H _].
    now apply Z.ltb_lt.
  - destruct (array_index k0) as [j|].
    + intros H Hk. apply andb_true_iff in H as [H1 H2].
      apply Z.ltb_lt in H1. specialize (IH _ H2 Hk). lia.
    + intros H Hk. rewrite forallb_app in H.
      apply andb_true_iff in H as [_ H]. cbn [forallb] in H.
      rewrite Hk in H. discriminate.
Qed.

Lemma keys_in_order_before (last : Z) (l rest : list string) (k : string) :
  keys_in_order last (l ++ k :: rest) = true ->
  Forall (fun k0 => listed_before k k0 = false) l.
Proof.
  revert last. induction l as [|k0 l IH]; intros last H; constructor.
  - cbn [app keys_in_order] in H. unfold listed_before.
    destruct (array_index k) as [i|] eqn:Hk; [|reflexivity].
    destruct (array_index k0) as [j|].
    + apply andb_true_iff in H as [_ H].
      pose proof (keys_in_order_index _ _ _ _ _ H Hk). apply Z.ltb_ge. lia.
    + rewrite forallb_app in H. apply andb_true_iff in H as [_ H].
      cbn [forallb] in H. rewrite Hk in H. discriminate.
  - cbn [app keys_in_order] in H. destruct (array_index k0) as [j|] eqn:Hk0.
    + apply andb_true_iff in H as [_ H]. now apply (IH j).
    + apply (IH last).
      destruct l as [|k1 l]; cbn [app keys_in_order forallb] in *.
      * destruct (array_index k); [discriminate|]. cbn in H. exact H.
      * destruct (array_index k1); [discriminate|]. cbn in H. exact H.
Qed.

Lemma keys_in_order_tail (last : Z) (k : string) (keys : list string) :
  keys_in_order last (k :: keys) = true ->
  exists last', keys_in_order last' keys = true.
Proof.
  cbn [keys_in_order]. destruct (array_index k) as [i|].
  - intros H. apply andb_true_iff in H as [_ H]. now exists i.
  - intros H. exists last. destruct keys as [|k1 keys]; [reflexivity|].
    cbn [forallb keys_in_order] in *.
    destruct (array_index k1); [discriminate|]. cbn in H. exact H.
Qed.

Lemma keys_in_order_drop (last : Z) (k : string) (keys : list string) :
  keys_in_order last (k :: keys) = true -> keys_in_order last keys = true.
Proof.
  cbn [keys_in_order]. destruct (array_index k) as [i|] eqn:Hk.
  - intros H. apply andb_true_iff in H as [H1 H2]. apply Z.ltb_lt in H1.
    apply (keys_in_order_weaken i); [lia|assumption].
  - intros H. destruct keys as [|k1 keys]; [reflexivity|].
    cbn [forallb keys_in_order] in *.
    destruct (array_index k1); [discriminate|]. cbn in H. exact H.
Qed.

Lemma keys_in_order_filter (f : string * value -> bool) (last : Z)
    (props : list (string * value)) :
  keys_in_order last (Object_keys props) = true ->
  keys_in_order last (Object_keys (filter f props)) = true.
Proof.
  unfold Object_keys. revert last.
  induction props as [|[k v] props IH]; intros last H; [reflexivity|].
  cbn [filter]. destruct (f (k, v)).
  - cbn [map fst keys_in_order] in *. destruct (array_index k) as [i|].
    + apply andb_true_iff in H as [H1 H2]. rewrite H1. now apply IH.
    + clear IH. induction props as [|[k1 v1] props IH]; [reflexivity|].
      cbn [filter map fst forallb] in *.
      apply andb_true_iff in H as [H1 H2].
      destruct (f (k1, v1)); cbn [map fst forallb]; [rewrite H1|]; now apply IH.
  - apply IH. now apply (keys_in_order_drop last k).
Qed.

(** Entries with distinct keys, none of them [__proto__], that are given
    in the order of [Object.keys], are added one after the other. *)
Lemma assign_in_order (entries : list (string * value)) (o : object)
    (last : Z) :
  NoDup (Object_keys (own o) ++ map fst entries) ->
  keys_in_order last (Object_keys (own o) ++ map fst entries) = true ->
  Forall (fun k => k <> "__proto__"%string) (map fst entries) ->
  own (fold_left assign entries o) = own o ++ entries.
Proof.
  revert o. induction entries as [|[k v] entries IH]; intros o Hnd Hord Hk.
  - cbn. now rewrite app_nil_r.
  - cbn [fold_left map fst] in *.
    inversion Hk as [|? ? Hk0 Hk']; subst.
    assert (Hnew : ~ In k (Object_keys (own o))).
    { intros Hin. apply NoDup_remove_2 in Hnd. apply Hnd.
      apply in_or_app. now left. }
    assert (Hown : own (assign o (k, v)) = own o ++ [(k, v)]).
    { unfold assign. cbn [fst snd]. rewrite set_prop_plain by assumption.
      cbn [own]. unfold define_prop.
      apply has_own_property_not_In in Hnew. rewrite Hnew.
      apply insert_prop_last. now apply (keys_in_order_before last _ (map fst entries)). }
    rewrite IH.
    + rewrite Hown, <- app_assoc. reflexivity.
    + rewrite Hown. unfold Object_keys in *.
      rewrite map_app, <- app_assoc. exact Hnd.
    + rewrite Hown. unfold Object_keys in *.
      rewrite map_app, <- app_assoc. exact Hord.
    + assumption.
Qed.

(** ** The round trip, by induction on the value *)

Section RoundTrip.

Variable ToString : value -> exn + string.
Variable structMappers : Z -> option mapper.

(** No mapper is registered. *)
Hypothesis no_mapper : forall signature, structMappers signature = None.

Local Notation U := (unpack ToString structMappers).
Local Notation reads_back := (reads_back_by ToString structMappers).

Lemma reread_defined (x : value) :
  x <> VUndefined -> undefined_to_null (reread x) = reread x.
Proof. now destruct x. Qed.

Lemma unpack_null (fuel : nat) (rest : source) :
  U (S fuel) (NULL :: rest) = Ok VNull rest.
Proof. reflexivity. Qed.

Lemma within_limits_defined (x : value) : within_limits x -> x <> VUndefined.
Proof. intros H ->. inversion H. Qed.

Lemma unpacks_elements (fuel : nat) (elems : list value) (rest : source) :
  Forall reads_back elems ->
  Forall (fun x => x = VUndefined \/ within_limits x) elems ->
  (list_max (map height elems) < fuel)%nat ->
  unpacks (U fuel) (length elems) (concat (map encode elems) ++ rest)
          (map (fun x => undefined_to_null (reread x)) elems) rest.
Proof.
  intros HIH Hwl. revert HIH.
  induction Hwl as [|x elems Hx _ IH]; intros HIH Hfuel; [constructor|].
  inversion HIH as [|? ? Hrx HIH']; subst.
  cbn [map] in Hfuel.
  change (list_max (?a :: ?l)) with (Nat.max a (list_max l)) in Hfuel.
  cbn [length map concat]. rewrite <- app_assoc.
  apply unpacks_cons with (buf1 := concat (map encode elems) ++ rest).
  - destruct Hx as [->|Hx].
    + destruct fuel as [|fuel]; [lia|]. reflexivity.
    + rewrite reread_defined by now apply within_limits_defined.
      apply Hrx; [assumption|lia].
  - apply IH; [assumption|lia].
Qed.

Lemma unpacks_fields (fuel : nat) (fields : list value) (rest : source) :
  Forall reads_back fields ->
  Forall within_limits fields ->
  (list_max (map height fields) < fuel)%nat ->
  unpacks (U fuel) (length fields) (concat (map encode fields) ++ rest)
          (map reread fields) rest.
Proof.
  intros HIH Hwl. revert HIH.
  induction Hwl as [|x fields Hx _ IH]; intros HIH Hfuel; [constructor|].
  inversion HIH as [|? ? Hrx HIH']; subst.
  cbn [map] in Hfuel.
  change (list_max (?a :: ?l)) with (Nat.max a (list_max l)) in Hfuel.
  cbn [length map concat]. rewrite <- app_assoc.
  apply unpacks_cons with (buf1 := concat (map encode fields) ++ rest).
  - apply Hrx; [assumption|lia].
  - apply IH; [assumption|lia].
Qed.

Lemma read_entries_length (props : list (string * value)) :
  length (read_entries props) = length (filter defined props).
Proof.
  unfold read_entries. induction props as [|p props IH]; [reflexivity|].
  cbn [flat_map filter]. destruct (defined p); cbn [length app]; congruence.
Qed.

Lemma unpacks_props (fuel : nat) (props : list (string * value))
    (rest : source) :
  Forall (fun p => reads_back (snd p)) props ->
  Forall (fun p => Z.of_nat (length (utf8_encode (fst p))) < 2 ^ 32 /\
                   (snd p = VUndefined \/ within_limits (snd p))) props ->
  (list_max (map (fun p => height (snd p)) props) < fuel)%nat ->
  unpacks_entries (U fuel) (length (read_entries props))
    (concat (map (fun p => if defined p
                           then encode_string (fst p) ++ encode (snd p)
                           else []) props) ++ rest)
    (read_entries props) rest.
Proof.
  intros HIH Hwl. revert HIH.
  induction Hwl as [|[k v] props [Hk Hv] _ IH]; intros HIH Hfuel;
    [constructor|].
  inversion HIH as [|? ? Hrv HIH']; subst.
  cbn [map snd] in Hfuel.
  change (list_max (?a :: ?l)) with (Nat.max a (list_max l)) in Hfuel.
  cbn [fst snd] in *. unfold read_entries. cbn [map flat_map concat].
  fold (read_entries props).
  destruct Hv as [->|Hv].
  - change (defined (k, VUndefined)) with false. cbn [app].
    apply IH; [assumption|lia].
  - pose proof (within_limits_defined v Hv) as Hdef.
    assert (Hd : defined (k, v) = true) by now destruct v.
    rewrite !Hd. cbn [fst snd app length]. rewrite <- !app_assoc.
    destruct fuel as [|fuel]; [lia|].
    eapply unpacks_entries_cons.
    + now apply unpack_string.
    + apply Hrv; [assumption|lia].
    + apply IH; [assumption|lia].
Qed.

Lemma read_entries_keys (props : list (string * value)) :
  map (fun e => property_key ToString (fst e)) (read_entries props)
  = map inr (Object_keys (filter defined props)).
Proof.
  unfold read_entries, Object_keys.
  induction props as [|p props IH]; [reflexivity|].
  cbn [flat_map filter].
  destruct (defined p); cbn [app map fst property_key]; congruence.
Qed.

Lemma read_entries_assigned (props : list (string * value)) (o : object) :
  fold_left assign
    (combine (Object_keys (filter defined props))
             (map snd (read_entries props))) o
  = fold_left (fun o p => if defined p
                          then set_prop o (fst p) (reread (snd p))
                          else o) props o.
Proof.
  unfold read_entries, Object_keys. revert o.
  induction props as [|p props IH]; intros o; [reflexivity|].
  cbn [flat_map filter fold_left].
  destruct (defined p); cbn [app map fst snd combine fold_left]; apply IH.
Qed.

Lemma unpack_encode (v : value) : reads_back v.
Proof.
  induction v as [| |b|bits|s|x|elems IH|signature fields IH|props IH]
    using value_nested_ind;
    intros Hwl fuel rest Hfuel; inversion Hwl; subst;
    (destruct fuel as [|fuel]; [lia|]); cbn [height] in Hfuel.
  - reflexivity.
  - now destruct b.
  - now apply unpack_number.
  - now apply unpack_string.
  - now apply unpack_integer.
  - (* lists *)
    cbn [encode reread]. rewrite <- app_assoc.
    rewrite unpack_list_header by lia.
    apply unpackList_unpacks. rewrite Nat2Z.id.
    apply unpacks_elements; [assumption|assumption|lia].
  - (* structures *)
    cbn [encode reread]. rewrite <- app_assoc.
    set (n := Z.of_nat (length fields)) in *.
    assert (Hh : struct_header n
                   (if n <? 0x10 then [TINY_STRUCT + n] else [STRUCT_8; n])).
    { destruct (Z.ltb_spec n 0x10); constructor; unfold n in *; lia. }
    replace ((if n <? 0x10 then [TINY_STRUCT + n; signature]
              else [STRUCT_8; n; signature])
             ++ concat (map encode fields) ++ rest)
      with ((if n <? 0x10 then [TINY_STRUCT + n] else [STRUCT_8; n])
            ++ signature :: concat (map encode fields) ++ rest)
      by now destruct (n <? 0x10).
    rewrite (unpack_struct_header ToString structMappers fuel n _ _ Hh).
    apply unpackStruct_unpacks; [apply no_mapper|].
    unfold n. rewrite Nat2Z.id.
    apply unpacks_fields; [assumption|assumption|lia].
  - (* maps *)
    cbn [encode reread]. rewrite <- app_assoc.
    pose proof (filter_length_le defined props) as Hcount.
    rewrite unpack_map_header by lia.
    unfold unpackMap. rewrite for_fold_const. unfold bind at 1.
    rewrite Nat2Z.id, <- read_entries_length.
    rewrite (collect_entries ToString (U fuel) _ _ rest
               (read_entries props) (Object_keys (filter defined props))
               empty_object).
    + unfold ret. do 3 f_equal. apply read_entries_assigned.
    + apply unpacks_props; [assumption|assumption|lia].
    + apply read_entries_keys.
Qed.

End RoundTrip.

(** ** Values that are read back as they were written *)

Lemma reread_entries (props : list (string * value)) (o : object) :
  fold_left (fun o p => if defined p
                        then set_prop o (fst p) (reread (snd p))
                        else o) props o
  = fold_left assign
      (flat_map (fun p => if defined p then [(fst p, reread (snd p))] else [])
                props) o.
Proof.
  revert o. induction props as [|p props IH]; intros o; [reflexivity|].
  cbn [flat_map fold_left]. destruct (defined p); cbn [app fold_left];
    apply IH.
Qed.

Lemma keys_flat_map_defined (f : value -> value)
    (props : list (string * value)) :
  map fst (flat_map (fun p => if defined p then [(fst p, f (snd p))] else [])
                    props)
  = Object_keys (filter defined props).
Proof.
  unfold Object_keys. induction props as [|p props IH]; [reflexivity|].
  cbn [flat_map filter]. destruct (defined p); cbn [app map fst]; congruence.
Qed.

Lemma flat_map_ext_on {A B} (f g : A -> list B) (l : list A) :
  (forall a, In a l -> f a = g a) -> flat_map f l = flat_map g l.
Proof.
  induction l as [|a l IH]; intros H; [reflexivity|].
  cbn [flat_map]. rewrite (H a) by now left.
  rewrite IH; [reflexivity|]. intros b Hb. apply H. now right.
Qed.

Lemma reread_normalize (v : value) :
  within_limits v -> plain_keys v = true -> reread v = normalize v.
Proof.
  induction v as [| |b|bits|s|x|elems IH|signature fields IH|props IH]
    using value_nested_ind;
    intros Hwl Hplain; try reflexivity; inversion Hwl; subst;
    cbn [reread normalize plain_keys] in *.
  - (* lists *)
    f_equal. apply map_ext_in. intros x Hx. f_equal.
    rewrite Forall_forall in *. rewrite forallb_forall in Hplain.
    match goal with H : forall x, In x elems -> _ \/ _ |- _ =>
      destruct (H x Hx) as [->|Hwx] end; [reflexivity|].
    now apply IH; [|assumption|apply Hplain].
  - (* structures *)
    f_equal. apply map_ext_in. intros x Hx.
    rewrite Forall_forall in *. rewrite forallb_forall in Hplain.
    apply IH; [assumption|auto|now apply Hplain].
  - (* maps *)
    apply andb_true_iff in Hplain as [Hord Hkeys].
    rewrite forallb_forall in Hkeys. rewrite Forall_forall in *.
    f_equal. rewrite reread_entries.
    rewrite (assign_in_order _ empty_object (-1)).
    + cbn [own empty_object app].
      apply flat_map_ext_on. intros p Hp.
      destruct (defined p) eqn:Hd; [|reflexivity].
      do 2 f_equal.
      match goal with H : forall x, In x props -> _ /\ _ |- _ =>
        destruct (H p Hp) as [_ [Hu|Hwp]] end.
      * unfold defined in Hd. rewrite Hu in Hd. discriminate.
      * apply IH; [assumption|assumption|].
        specialize (Hkeys p Hp). now apply andb_true_iff in Hkeys as [_ Hkeys].
    + cbn [own empty_object Object_keys map app].
      rewrite keys_flat_map_defined. now apply NoDup_keys_filter.
    + cbn [own empty_object Object_keys map app].
      rewrite keys_flat_map_defined. now apply keys_in_order_filter.
    + rewrite keys_flat_map_defined. unfold Object_keys.
      apply Forall_forall. intros k Hk. apply in_map_iff in Hk as (p & <- & Hp).
      apply filter_In in Hp as [Hp _]. specialize (Hkeys p Hp).
      apply andb_true_iff in Hkeys as [Hkeys _].
      apply negb_true_iff in Hkeys. now apply String.eqb_neq.
Qed.


(** ** What the Packer writes for a value within the limits *)

Lemma emits_each {B} (f : B -> M sink unit) (g : B -> list Z) (l : list B) :
  Forall (fun b => emits (f b) (g b)) l ->
  emits (each f l) (concat (map g l)).
Proof.
  unfold each. induction 1 as [|b l Hb _ IH]; cbn [foldM map concat].
  - apply emits_ret.
  - rewrite (bind_ext (f b) _ (fun _ => foldM (fun b _ => f b) l tt))
      by now intros [].
    now apply emits_bind.
Qed.

Lemma concat_filter_defined (g : string * value -> list Z)
    (props : list (string * value)) :
  concat (map g (filter defined props))
  = concat (map (fun p => if defined p then g p else []) props).
Proof.
  induction props as [|p props IH]; [reflexivity|].
  cbn [filter map concat]. destruct (defined p); cbn [map concat app];
    congruence.
Qed.

Lemma packable_structure (signature : Z) (fields : list value)
    (onError : option callback) :
  packable (S (height (VStructure signature fields)))
           (VStructure signature fields) onError =
  (packableFields <-
     foldM (fun x packableFields =>
              f <- packable (S (list_max (map height fields))) x onError ;;
              ret (packableFields ++ [f])) fields [] ;;
   ret (packStruct signature packableFields None)).
Proof.
  cbn [height].
  change (packable (S ?n) ?x ?oe) with (packable_body (packable n) x oe) at 1.
  cbn [packable_body].
  now rewrite <- (for_fold_nth _ VUndefined [] fields []).
Qed.

Lemma packStruct_each (signature : Z) (packableFields : list thunk) :
  packStruct signature packableFields None =
  (packStructHeader (Z.of_nat (length packableFields)) signature None ;;
   each (fun f : thunk => f) packableFields).
Proof.
  unfold packStruct. apply bind_ext. intros _.
  apply (for_loop_nth (fun f : thunk => f) not_callable packableFields).
Qed.

Lemma packable_fields (onError : option callback) (fuel : nat)
    (fields : list value) (acc : list thunk) :
  Forall (packs_to_encoding onError) fields ->
  Forall within_limits fields ->
  (list_max (map height fields) <= fuel)%nat ->
  exists ts,
    foldM (fun x packableFields =>
             f <- packable (S fuel) x onError ;;
             ret (packableFields ++ [f])) fields acc = ret (acc ++ ts) /\
    length ts = length fields /\
    Forall (fun p => emits (fst p) (encode (snd p))) (combine ts fields).
Proof.
  intros HIH Hwl. revert acc HIH.
  induction Hwl as [|x fields Hx _ IH]; intros acc HIH Hfuel.
  - exists []. cbn. now rewrite app_nil_r.
  - inversion HIH as [|? ? Hpx HIH']; subst.
    cbn [map] in Hfuel.
    change (list_max (?a :: ?l)) with (Nat.max a (list_max l)) in Hfuel.
    destruct (Hpx Hx) as (t & Ht & Hemits).
    destruct (IH (acc ++ [t]) HIH') as (ts & Hts & Hlen & Hall); [lia|].
    exists (t :: ts). cbn [foldM].
    rewrite (packable_fuel (S fuel) (S (height x))) by lia.
    rewrite Ht, !bind_ret_l, Hts, <- app_assoc.
    repeat split; [cbn; congruence|].
    cbn [combine]. now constructor.
Qed.

Lemma emits_each_thunks (ts : list thunk) (fields : list value) :
  length ts = length fields ->
  Forall (fun p => emits (fst p) (encode (snd p))) (combine ts fields) ->
  emits (each (fun f : thunk => f) ts) (concat (map encode fields)).
Proof.
  revert fields. unfold each.
  induction ts as [|t ts IH]; intros [|x fields] Hlen Hall;
    try discriminate; cbn [foldM map concat].
  - apply emits_ret.
  - cbn [combine] in Hall. inversion Hall as [|? ? Ht Hall']; subst.
    rewrite (bind_ext t _ (fun _ => foldM (fun (f : thunk) _ => f) ts tt))
      by now intros [].
    apply emits_bind; [exact Ht|]. apply IH; [|assumption].
    cbn in Hlen. congruence.
Qed.

Lemma packable_encode (onError : option callback) (v : value) :
  packs_to_encoding onError v.
Proof.
  induction v as [| |b|bits|s|x|elems IH|signature fields IH|props IH]
    using value_nested_ind; intros Hwl;
    inversion Hwl
      as [ | |? Hbits|? Hsize|? Hwf|? Hlen Hall|? ? Hsig Hlen Hall
          |? Hnd Hlen Hall]; subst.
  - exists (writeUInt8 NULL). split; [reflexivity|]. intro s. reflexivity.
  - destruct b; eexists; (split; [reflexivity|]); intro s; reflexivity.
  - exists (packFloat bits). split; [reflexivity|].
    unfold packFloat. cbn [encode]. repeat emits_step; reflexivity.
  - exists (packString s onError). split; [reflexivity|].
    now apply packString_emits.
  - exists (packInteger x). split; [reflexivity|]. apply packInteger_emits.
  - (* lists *)
    exists (pack (VArray elems) onError). split; [reflexivity|].
    rewrite pack_array. cbn [encode].
    apply emits_bind; [apply packListHeader_emits; lia|].
    apply emits_each. rewrite Forall_forall in *. intros x Hx.
    destruct (Hall x Hx) as [->|Hwx]; [apply pack_null|].
    destruct (IH x Hx Hwx) as (t & Ht & Hemits).
    replace (undefined_to_null x) with x by now destruct x.
    unfold pack. now rewrite Ht, bind_ret_l.
  - (* structures *)
    destruct (packable_fields onError (list_max (map height fields)) fields
                [] IH Hall)
      as (ts & Hts & Hlts & Hallts); [lia|].
    exists (packStruct signature ts None). split.
    + now rewrite packable_structure, Hts, bind_ret_l.
    + rewrite packStruct_each. cbn [encode]. rewrite Hlts.
      apply emits_bind; [|now apply emits_each_thunks].
      eapply emits_eq; [apply packStructHeader_emits; lia|].
      destruct (Z.ltb_spec (Z.of_nat (length fields)) 0x10).
      * now rewrite Z.mod_small by lia.
      * destruct (Z.ltb_spec (Z.of_nat (length fields)) 0x100); [|lia].
        now rewrite Z.mod_small by lia.
  - (* maps *)
    exists (pack (VObject props) onError). split; [reflexivity|].
    rewrite pack_object by assumption. cbn [encode].
    pose proof (filter_length_le defined props) as Hcount.
    apply emits_bind; [apply packMapHeader_emits; lia|].
    rewrite <- (concat_filter_defined
                  (fun p => encode_string (fst p) ++ encode (snd p))).
    apply emits_each. rewrite Forall_forall in *. intros [k v] Hin.
    apply filter_In in Hin as [Hin Hdef].
    destruct (Hall _ Hin) as [Hk [Hv|Hv]]; cbn [fst snd] in *.
    + subst v. discriminate.
    + unfold pack_entry. cbn [fst snd].
      apply emits_bind; [now apply packString_emits|].
      destruct (IH _ Hin Hv) as (t & Ht & Hemits). cbn [snd] in Ht.
      unfold pack. now rewrite Ht, bind_ret_l.
Qed.

Lemma pack_encode (onError : option callback) (v : value) :
  within_limits v -> emits (pack v onError) (encode v).
Proof.
  intros Hwl. destruct (packable_encode onError v Hwl) as (t & Ht & Hemits).
  unfold pack. now rewrite Ht, bind_ret_l.
Qed.

(** X1. Round trip.  For every value within the limits (structs of fewer than
    256 fields) whose maps are plain (no entry is named [__proto__], and
    the entries are in the order of [Object.keys], as they are in every
    object of the host), the Packer reports no error and writes
    [encode v], and a fresh Unpacker reads these bytes back as
    [normalize v], leaving what follows them unread.  The Int variants
    come back exactly: [normalize] is the identity on them. *)
Theorem roundtrip_within_limits
    (ToString : value -> exn + string) (onError : option callback) (v : value)
    (s : sink) (rest : source) (fuel : nat) :
  within_limits v ->
  plain_keys v = true ->
  (height v < fuel)%nat ->
  pack v onError s = Ok tt (mkSink (written s ++ encode v) (reported s)) /\
  unpack ToString no_mappers fuel (encode v ++ rest) = Ok (normalize v) rest.
Proof.
  intros Hwl Hplain Hfuel. split.
  - now apply pack_encode.
  - rewrite <- (reread_normalize v Hwl Hplain).
    now apply (unpack_encode ToString no_mappers (fun _ => eq_refl)).
Qed.

Lemma roundtrip_within_limits_witness :
  unpack (fun _ => inr ""%string) no_mappers 3
    (encode (VObject [("a"%string, VArray [VInteger (int (- 2 ^ 63)); VUndefined]);
                      ("b"%string, VUndefined)]))
  = Ok (VObject [("a"%string, VArray [VInteger (int (- 2 ^ 63)); VNull])]) [].
Proof.
  pose proof (roundtrip_within_limits (fun _ => inr ""%string) None
    (VObject [("a"%string, VArray [VInteger (int (- 2 ^ 63)); VUndefined]);
              ("b"%string, VUndefined)]) empty_sink [] 3) as H.
  destruct H as [_ H].
  - apply wl_object.
    + repeat constructor; cbn; intuition discriminate.
    + cbn. lia.
    + apply Forall_cons; [split; [cbn; lia|right]|].
      * apply wl_array; [cbn; lia|].
        apply Forall_cons; [right|].
        -- apply wl_integer. unfold Integer_wf, int32. vm_compute.
           intuition discriminate.
        -- apply Forall_cons; [now left|apply Forall_nil].
      * apply Forall_cons; [split; [cbn; lia|now left]|apply Forall_nil].
  - reflexivity.
  - cbn. lia.
  - rewrite app_nil_r in H. exact H.
Defined.

(** ** C1: round trip *)

(** Without a mapper, what [unpackStruct] returns carries the signature
    byte that it read. *)
Lemma unpackStruct_signature (this_unpack : M source value) (size signature : Z)
    (rest rest' : source) (v : value) :
  unpackStruct no_mappers this_unpack size (signature :: rest) = Ok v rest' ->
  exists fields, v = VStructure signature fields.
Proof.
  unfold unpackStruct, bind at 1. rewrite readUInt8_cons. cbn [no_mappers].
  unfold bind, ret.
  destruct (for_fold _ _ _ _ _) as [fields s| |]; intros [= <- <-].
  now exists fields.
Qed.

(** C1 (evaluation at the failing input). A Structure with signature 0x4E
    and 256 Null fields is within the size limits, yet unpacking what the
    Packer wrote for it does not give it back: the first Null marker is
    read as the signature, and the 256th field is read past the end of the
    input.  Whatever follows these bytes in the buffer, a value that
    [unpack] returns for them is a Structure of signature 0xC0. *)
Theorem roundtrip_fails_on_struct16 (ToString : value -> exn + string) :
  exists bytes,
    pack (VStructure 0x4E (repeat VNull 256)) None empty_sink
      = Ok tt (mkSink bytes []) /\
    unpack ToString no_mappers 2 bytes
      = Throw (RangeError "Index out of range") [] /\
    forall fuel rest v rest',
      unpack ToString no_mappers fuel (bytes ++ rest) = Ok v rest' ->
      exists fields, v = VStructure 0xC0 fields.
Proof.
  exists ([0xDD; 0x01; 0x00] ++ repeat 0xC0 256). split; [|split].
  - apply pack_struct16_nulls_bytes.
  - vm_compute. reflexivity.
  - intros [|fuel] rest v rest'; [discriminate|].
    change (([0xDD; 0x01; 0x00] ++ repeat 0xC0 256) ++ rest)
      with ([STRUCT_16; 1; 0] ++ 0xC0 :: repeat 0xC0 255 ++ rest).
    rewrite (unpack_struct_header ToString no_mappers fuel (1 * 256 + 0)
               [STRUCT_16; 1; 0] _ (struct_header_16 1 0 ltac:(lia) ltac:(lia))).
    apply unpackStruct_signature.
Qed.

(** * Further properties of the Unpacker *)

(** ** Fuel and termination *)

Lemma ab_ret {A} (k : nat) (a : A) : agree_below k (ret a) (ret a).
Proof.
  intros buf _. repeat split; [discriminate|].
  now intros a' rest [= _ <-].
Qed.

Lemma ab_throw {A} (k : nat) (e : exn) : agree_below k (@throw source A e) (throw e).
Proof. intros buf _. repeat split; discriminate. Qed.

Lemma ab_lift {A} (k : nat) (r : exn + A) :
  agree_below k (@lift source A r) (lift r).
Proof. destruct r; [apply ab_throw|apply ab_ret]. Qed.

Lemma ab_bind {A B} (k : nat) (m1 m2 : M source A) (f1 f2 : A -> M source B) :
  agree_below k m1 m2 ->
  (forall a, agree_below k (f1 a) (f2 a)) ->
  agree_below k (bind m1 f1) (bind m2 f2).
Proof.
  intros Hm Hf buf Hlen. destruct (Hm buf Hlen) as (Heq & Hfuel & Hshrink).
  unfold bind. rewrite <- Heq.
  destruct (m1 buf) as [a rest|e rest|]; [|repeat split; discriminate|easy].
  specialize (Hshrink a rest eq_refl).
  destruct (Hf a rest) as (Heq' & Hfuel' & Hshrink'); [lia|].
  repeat split; [assumption|assumption|].
  intros b rest' Hb. specialize (Hshrink' b rest' Hb). lia.
Qed.

Lemma ab_readBytes (k n : nat) : agree_below k (readBytes n) (readBytes n).
Proof.
  intros buf _. unfold readBytes.
  destruct (n <=? length buf)%nat; repeat split; try discriminate.
  intros a rest [= _ <-]. rewrite length_skipn. lia.
Qed.

Lemma ab_readUnsigned (k n : nat) :
  agree_below k (readUnsigned n) (readUnsigned n).
Proof.
  unfold readUnsigned. apply ab_bind; [apply ab_readBytes|].
  intros a. apply ab_ret.
Qed.

Lemma ab_readSigned (k n : nat) : agree_below k (readSigned n) (readSigned n).
Proof.
  unfold readSigned. apply ab_bind; [apply ab_readBytes|].
  intros a. apply ab_ret.
Qed.

Lemma ab_utf8_decode (k : nat) (n : Z) :
  agree_below k (utf8_decode n) (utf8_decode n).
Proof.
  unfold utf8_decode. apply ab_bind; [apply ab_readBytes|].
  intros a. apply ab_ret.
Qed.

Lemma ab_for_fold {A} (k : nat) (body1 body2 : nat -> A -> M source A)
    (start count : nat) (acc : A) :
  (forall i a, agree_below k (body1 i a) (body2 i a)) ->
  agree_below k (for_fold start count body1 acc)
              (for_fold start count body2 acc).
Proof.
  intros Hb. revert start acc.
  induction count as [|c IH]; intros start acc; cbn [for_fold].
  - apply ab_ret.
  - apply ab_bind; [apply Hb|]. intros a. apply IH.
Qed.

(** Reading the marker leaves a shorter buffer. *)
Lemma ab_marker {B} (k : nat) (f1 f2 : Z -> M source B) :
  (forall marker, agree_below k (f1 marker) (f2 marker)) ->
  agree_below (S k) (bind readUInt8 f1) (bind readUInt8 f2).
Proof.
  intros Hf [|b buf] Hlen.
  - repeat split; discriminate.
  - unfold bind. rewrite readUInt8_cons.
    destruct (Hf b buf) as (Heq & Hfuel & Hshrink); [cbn in Hlen; lia|].
    repeat split; [assumption|assumption|].
    intros a rest Ha. specialize (Hshrink a rest Ha). cbn [length]. lia.
Qed.

Section Termination.

Variable ToString : value -> exn + string.
Variable structMappers : Z -> option mapper.
Hypothesis mappers_ok : mappers_agree structMappers.

Lemma ab_unpackList (k : nat) (u1 u2 : M source value) (size : Z) :
  agree_below k u1 u2 ->
  agree_below k (unpackList u1 size) (unpackList u2 size).
Proof.
  intros Hu. unfold unpackList.
  apply ab_bind; [|intros a; apply ab_ret].
  apply ab_for_fold. intros _ acc.
  apply ab_bind; [exact Hu|]. intros v. apply ab_ret.
Qed.

Lemma ab_unpackMap (k : nat) (u1 u2 : M source value) (size : Z) :
  agree_below k u1 u2 ->
  agree_below k (unpackMap ToString u1 size) (unpackMap ToString u2 size).
Proof.
  intros Hu. unfold unpackMap.
  apply ab_bind; [|intros a; apply ab_ret].
  apply ab_for_fold. intros _ acc.
  apply ab_bind; [exact Hu|]. intros key.
  apply ab_bind; [exact Hu|]. intros v.
  apply ab_bind; [apply ab_lift|]. intros name. apply ab_ret.
Qed.

Lemma ab_unpackStruct (k : nat) (u1 u2 : M source value) (size : Z) :
  agree_below k u1 u2 ->
  agree_below k (unpackStruct structMappers u1 size)
              (unpackStruct structMappers u2 size).
Proof.
  intros Hu. unfold unpackStruct.
  apply ab_bind; [apply ab_readUnsigned|]. intros signature.
  destruct (structMappers signature) as [mp|] eqn:Hmp.
  - now apply (mappers_ok signature mp Hmp).
  - apply ab_bind; [|intros a; apply ab_ret].
    apply ab_for_fold. intros _ acc.
    apply ab_bind; [exact Hu|]. intros v. apply ab_ret.
Qed.

Ltac ab_leaf Hu :=
  repeat first
    [ apply ab_ret
    | apply ab_throw
    | apply ab_utf8_decode
    | apply ab_unpackList; exact Hu
    | apply ab_unpackMap; exact Hu
    | apply ab_unpackStruct; exact Hu
    | apply ab_readUnsigned
    | apply ab_readSigned
    | apply ab_bind; [|intros ?] ].

Lemma ab_ladder (k : nat) (u1 u2 : M source value) :
  agree_below k u1 u2 ->
  exists f1 f2,
    unpack_body ToString structMappers u1 = bind readUInt8 f1 /\
    unpack_body ToString structMappers u2 = bind readUInt8 f2 /\
    forall marker, agree_below k (f1 marker) (f2 marker).
Proof.
  intros Hu. unfold unpack_body.
  eexists. eexists. split; [reflexivity|]. split; [reflexivity|].
  intros marker. cbv beta zeta.
  unfold readUInt8, readInt8, readUInt16, readInt16, readUInt32, readInt32,
    readFloat64.
  repeat match goal with
         | |- agree_below _ (if ?c then _ else _) _ => destruct c
         end;
    ab_leaf Hu.
Qed.

Lemma ab_unpack_body (k : nat) (u1 u2 : M source value) :
  agree_below k u1 u2 ->
  agree_below (S k) (unpack_body ToString structMappers u1)
              (unpack_body ToString structMappers u2).
Proof.
  intros Hu. destruct (ab_ladder k u1 u2 Hu) as (f1 & f2 & E1 & E2 & Hf).
  rewrite E1, E2. now apply ab_marker.
Qed.

Lemma ab_unpack (n m : nat) :
  (n <= m)%nat ->
  agree_below n (unpack ToString structMappers n)
              (unpack ToString structMappers m).
Proof.
  revert m. induction n as [|n IH]; intros m Hnm.
  - intros buf Hlen. lia.
  - destruct m as [|m]; [lia|]. cbn [unpack].
    apply ab_unpack_body. apply IH. lia.
Qed.

(** A value takes at least its marker byte. *)
Lemma unpack_consumes (n : nat) (buf rest : source) (v : value) :
  (length buf < n)%nat ->
  unpack ToString structMappers n buf = Ok v rest ->
  (length rest < length buf)%nat.
Proof.
  destruct n as [|n]; [lia|]. intros Hlen. cbn [unpack].
  destruct (ab_ladder n _ _ (ab_unpack n n (le_n n)))
    as (f1 & f2 & E1 & _ & Hf).
  rewrite E1. destruct buf as [|b buf]; [discriminate|].
  unfold bind. rewrite readUInt8_cons. intros Hv.
  destruct (Hf b buf) as (_ & _ & Hshrink); [cbn in Hlen; lia|].
  specialize (Hshrink v rest Hv). cbn [length]. lia.
Qed.

End Termination.

(** X2. On a buffer of [n] bytes [unpack] terminates: with any fuel above
    [n] it has the outcome it has with fuel [n + 1], which is a value or
    an exception, and a value leaves strictly fewer bytes than there were.
    (The mappers must reach the buffer through the unpacker only.) *)
Theorem unpack_terminates
    (ToString : value -> exn + string) (structMappers : Z -> option mapper)
    (buf : source) (fuel : nat) :
  mappers_agree structMappers ->
  (length buf < fuel)%nat ->
  unpack ToString structMappers fuel buf
    = unpack ToString structMappers (S (length buf)) buf /\
  unpack ToString structMappers fuel buf <> OutOfFuel /\
  forall v rest,
    unpack ToString structMappers fuel buf = Ok v rest ->
    (length rest < length buf)%nat.
Proof.
  intros Hm Hfuel.
  destruct (ab_unpack ToString structMappers Hm (S (length buf)) fuel
              ltac:(lia) buf ltac:(lia)) as (Heq & Hfuel' & _).
  rewrite <- Heq. repeat split; [assumption|].
  intros v rest Hv.
  apply (unpack_consumes ToString structMappers Hm (S (length buf)) buf rest v);
    [lia|assumption].
Qed.

Lemma mappers_agree_one : mappers_agree one_mapper.
Proof.
  intros signature mp Hmp k u1 u2 Hu. unfold one_mapper in Hmp.
  destruct (signature =? 0x4E); [|discriminate].
  injection Hmp as <-. unfold wrap_mapper.
  apply ab_bind; [exact Hu|]. intros v. apply ab_ret.
Qed.

Lemma unpack_terminates_witness :
  unpack (fun _ => inr ""%string) one_mapper 10 [0x92; 0xB1; 0x4E; 0x01; 0x02]
  <> OutOfFuel.
Proof.
  apply (unpack_terminates (fun _ => inr ""%string) one_mapper
           [0x92; 0xB1; 0x4E; 0x01; 0x02] 10 mappers_agree_one).
  cbn. lia.
Defined.

(** ** No lookahead *)

Lemma ext_ret {A} (a : A) : extends (@ret source A a).
Proof. intros buf a' rest more [= <- <-]. reflexivity. Qed.

Lemma ext_throw {A} (e : exn) : extends (@throw source A e).
Proof. intros buf a rest more [=]. Qed.

Lemma ext_lift {A} (r : exn + A) : extends (@lift source A r).
Proof. destruct r; [apply ext_throw|apply ext_ret]. Qed.

Lemma ext_bind {A B} (m : M source A) (f : A -> M source B) :
  extends m -> (forall a, extends (f a)) -> extends (bind m f).
Proof.
  intros Hm Hf buf b rest more. unfold bind.
  destruct (m buf) as [a rest1|e rest1|] eqn:E; try discriminate.
  intros Hb. rewrite (Hm buf a rest1 more E). now apply Hf.
Qed.

Lemma ext_readBytes (n : nat) : extends (readBytes n).
Proof.
  intros buf a rest more. unfold readBytes.
  destruct (Nat.leb_spec n (length buf)) as [Hle|Hgt]; [|discriminate].
  intros [= <- <-]. rewrite length_app.
  rewrite (proj2 (Nat.leb_le _ _)) by lia.
  rewrite firstn_app, skipn_app.
  replace (n - length buf)%nat with 0%nat by lia.
  now rewrite firstn_O, skipn_O, app_nil_r.
Qed.

Lemma ext_readUnsigned (n : nat) : extends (readUnsigned n).
Proof.
  unfold readUnsigned. apply ext_bind; [apply ext_readBytes|].
  intros a. apply ext_ret.
Qed.

Lemma ext_readSigned (n : nat) : extends (readSigned n).
Proof.
  unfold readSigned. apply ext_bind; [apply ext_readBytes|].
  intros a. apply ext_ret.
Qed.

Lemma ext_utf8_decode (n : Z) : extends (utf8_decode n).
Proof.
  unfold utf8_decode. apply ext_bind; [apply ext_readBytes|].
  intros a. apply ext_ret.
Qed.

Lemma ext_for_fold {A} (body : nat -> A -> M source A) (start count : nat)
    (acc : A) :
  (forall i a, extends (body i a)) -> extends (for_fold start count body acc).
Proof.
  intros Hb. revert start acc.
  induction count as [|c IH]; intros start acc; cbn [for_fold].
  - apply ext_ret.
  - apply ext_bind; [apply Hb|]. intros a. apply IH.
Qed.

Section NoLookahead.

Variable ToString : value -> exn + string.
Variable structMappers : Z -> option mapper.
Hypothesis mappers_ok : mappers_extend structMappers.

Lemma ext_unpackList (u : M source value) (size : Z) :
  extends u -> extends (unpackList u size).
Proof.
  intros Hu. unfold unpackList.
  apply ext_bind; [|intros a; apply ext_ret].
  apply ext_for_fold. intros _ acc.
  apply ext_bind; [exact Hu|]. intros v. apply ext_ret.
Qed.

Lemma ext_unpackMap (u : M source value) (size : Z) :
  extends u -> extends (unpackMap ToString u size).
Proof.
  intros Hu. unfold unpackMap.
  apply ext_bind; [|intros a; apply ext_ret].
  apply ext_for_fold. intros _ acc.
  apply ext_bind; [exact Hu|]. intros key.
  apply ext_bind; [exact Hu|]. intros v.
  apply ext_bind; [apply ext_lift|]. intros name. apply ext_ret.
Qed.

Lemma ext_unpackStruct (u : M source value) (size : Z) :
  extends u -> extends (unpackStruct structMappers u size).
Proof.
  intros Hu. unfold unpackStruct.
  apply ext_bind; [apply ext_readUnsigned|]. intros signature.
  destruct (structMappers signature) as [mp|] eqn:Hmp.
  - now apply (mappers_ok signature mp Hmp).
  - apply ext_bind; [|intros a; apply ext_ret].
    apply ext_for_fold. intros _ acc.
    apply ext_bind; [exact Hu|]. intros v. apply ext_ret.
Qed.

Ltac ext_leaf Hu :=
  repeat first
    [ apply ext_ret
    | apply ext_throw
    | apply ext_utf8_decode
    | apply ext_unpackList; exact Hu
    | apply ext_unpackMap; exact Hu
    | apply ext_unpackStruct; exact Hu
    | apply ext_readUnsigned
    | apply ext_readSigned
    | apply ext_bind; [|intros ?] ].

Lemma ext_unpack_body (u : M source value) :
  extends u -> extends (unpack_body ToString structMappers u).
Proof.
  intros Hu. unfold unpack_body.
  apply ext_bind; [apply ext_readUnsigned|]. intros marker. cbv zeta.
  unfold readUInt8, readInt8, readUInt16, readInt16, readUInt32, readInt32,
    readFloat64.
  repeat match goal with
         | |- extends (if ?c then _ else _) => destruct c
         end;
    ext_leaf Hu.
Qed.

Lemma ext_unpack (fuel : nat) : extends (unpack ToString structMappers fuel).
Proof.
  induction fuel as [|fuel IH]; cbn [unpack].
  - intros buf a rest more [=].
  - now apply ext_unpack_body.
Qed.

End NoLookahead.

Lemma mappers_extend_one : mappers_extend one_mapper.
Proof.
  intros signature mp Hmp u Hu. unfold one_mapper in Hmp.
  destruct (signature =? 0x4E); [|discriminate].
  injection Hmp as <-. unfold wrap_mapper.
  apply ext_bind; [exact Hu|]. intros v. apply ext_ret.
Qed.

(** X3. [unpack] does not look past the value it reads: when it returns a
    value and leaves [rest], then on the same bytes followed by any others
    it returns the same value and leaves [rest] followed by those others.
    (The mappers must have the same property.) *)
Theorem unpack_no_lookahead
    (ToString : value -> exn + string) (structMappers : Z -> option mapper)
    (fuel : nat) (buf rest more : source) (v : value) :
  mappers_extend structMappers ->
  unpack ToString structMappers fuel buf = Ok v rest ->
  unpack ToString structMappers fuel (buf ++ more) = Ok v (rest ++ more).
Proof.
  intros Hm. apply (ext_unpack ToString structMappers Hm fuel).
Qed.

Lemma unpack_no_lookahead_witness :
  unpack (fun _ => inr ""%string) one_mapper 3 ([0xB1; 0x4E; 0x01] ++ [0xC4])
  = Ok (VArray [VInteger (int 1)]) ([] ++ [0xC4]).
Proof.
  apply (unpack_no_lookahead (fun _ => inr ""%string) one_mapper 3
           [0xB1; 0x4E; 0x01] [] [0xC4] (VArray [VInteger (int 1)])
           mappers_extend_one).
  reflexivity.
Defined.

Lemma mappers_agree_none : mappers_agree no_mappers.
Proof. intros signature mp [=]. Qed.

Lemma mappers_extend_none : mappers_extend no_mappers.
Proof. intros signature mp [=]. Qed.

(** ** Truncated input *)

(** X4. A truncated encoding is rejected: on a proper prefix of the
    encoding of a value within the limits, a fresh Unpacker raises an
    exception; it returns no value. *)
Theorem truncated_encoding_rejected
    (ToString : value -> exn + string) (v : value) (prefix dropped : list Z)
    (fuel : nat) :
  within_limits v ->
  encode v = prefix ++ dropped ->
  dropped <> [] ->
  (length prefix < fuel)%nat ->
  exists e s, unpack ToString no_mappers fuel prefix = Throw e s.
Proof.
  intros Hwl Henc Hdropped Hfuel.
  set (big := S (Nat.max (length (encode v)) (height v))).
  assert (Hlen : (length prefix <= length (encode v))%nat)
    by (rewrite Henc, length_app; lia).
  destruct (ab_unpack ToString no_mappers mappers_agree_none
              (S (length prefix)) fuel ltac:(lia) prefix ltac:(lia))
    as (Hsame & Hnofuel & _).
  destruct (ab_unpack ToString no_mappers mappers_agree_none
              (S (length prefix)) big ltac:(unfold big; lia) prefix ltac:(lia))
    as (Hbig & _ & _).
  rewrite <- Hsame. rewrite Hbig in *.
  destruct (unpack ToString no_mappers big prefix) as [v' rest|e s|] eqn:E.
  - exfalso.
    pose proof (ext_unpack ToString no_mappers mappers_extend_none big
                  prefix v' rest dropped E) as Hext.
    rewrite <- Henc in Hext.
    pose proof (unpack_encode ToString no_mappers (fun _ => eq_refl) v Hwl
                  big [] ltac:(unfold big; lia)) as Hrt.
    rewrite app_nil_r in Hrt. rewrite Hrt in Hext.
    injection Hext as _ Hrest. symmetry in Hrest.
    apply app_eq_nil in Hrest as [_ Hq]. contradiction.
  - now exists e, s.
  - contradiction.
Qed.

Lemma truncated_encoding_rejected_witness :
  exists e s,
    unpack (fun _ => inr ""%string) no_mappers 4 [0x92; 0x82; 0x61] = Throw e s.
Proof.
  apply (truncated_encoding_rejected (fun _ => inr ""%string)
           (VArray [VString "ab"; VNull]) [0x92; 0x82; 0x61] [0x62; 0xC0] 4).
  - apply wl_array; [cbn; lia|].
    apply Forall_cons; [right; apply wl_string; cbn; lia|].
    apply Forall_cons; [right; apply wl_null|apply Forall_nil].
  - reflexivity.
  - discriminate.
  - cbn. lia.
Defined.

(** ** Lists *)

Lemma collect_inv (u : M source value) (n : nat) (buf buf' : source)
    (acc acc' : list value) :
  foldM (fun (_ : unit) acc => v <- u ;; ret (acc ++ [v])) (repeat tt n) acc buf
  = Ok acc' buf' ->
  exists vs, acc' = acc ++ vs /\ unpacks u n buf vs buf'.
Proof.
  revert buf acc. induction n as [|n IH]; intros buf acc; cbn [repeat foldM].
  - intros [= <- <-]. exists []. split; [now rewrite app_nil_r|constructor].
  - unfold bind at 1. unfold bind at 1.
    destruct (u buf) as [v buf1|e s|] eqn:E; try discriminate.
    cbn [ret]. intros H. apply IH in H as (vs & -> & Hvs).
    exists (v :: vs). split; [now rewrite <- app_assoc|].
    econstructor; eassumption.
Qed.

Lemma collect_throw (u : M source value) (n k : nat) (buf buf1 s : source)
    (vs acc : list value) (e : exn) :
  unpacks u k buf vs buf1 ->
  u buf1 = Throw e s ->
  (k < n)%nat ->
  foldM (fun (_ : unit) acc => v <- u ;; ret (acc ++ [v])) (repeat tt n) acc buf
  = Throw e s.
Proof.
  intros H. revert n acc.
  induction H as [buf|k buf buf1 buf' v vs Hv _ IH]; intros n acc He Hk;
    (destruct n as [|n]; [lia|]); cbn [repeat foldM];
    unfold bind at 1; unfold bind at 1.
  - now rewrite He.
  - rewrite Hv. cbn [ret]. apply IH; [assumption|lia].
Qed.

(** X5. [unpack] of a list (any of the four list headers) returns a value
    exactly when the declared number of elements can be unpacked one after
    the other; the value is then the array of these elements in the order
    of the buffer.  When an element fails, the list fails with the
    exception of that element. *)
Theorem unpack_list_elements
    (ToString : value -> exn + string) (structMappers : Z -> option mapper)
    (fuel : nat) (size : Z) (header : list Z) (buf : source) :
  announces TINY_LIST LIST_8 LIST_16 LIST_32 size header ->
  let this_unpack := unpack ToString structMappers fuel in
  let result := unpack ToString structMappers (S fuel) (header ++ buf) in
  (forall v buf',
     result = Ok v buf' <->
     exists vs, v = VArray vs /\ length vs = Z.to_nat size /\
                unpacks this_unpack (Z.to_nat size) buf vs buf') /\
  (forall k vs buf1 e s,
     (k < Z.to_nat size)%nat ->
     unpacks this_unpack k buf vs buf1 ->
     this_unpack buf1 = Throw e s ->
     result = Throw e s).
Proof.
  intros Hh this_unpack result. unfold result.
  rewrite (unpack_list_announced ToString structMappers fuel size header buf Hh).
  fold this_unpack. unfold unpackList. rewrite for_fold_const. split.
  - intros v buf'. split.
    + unfold bind at 1.
      destruct (foldM _ _ _ _) as [acc s| |] eqn:E; try discriminate.
      intros [= <- <-]. apply collect_inv in E as (vs & -> & Hvs).
      exists vs. repeat split; [|assumption].
      now apply unpacks_length in Hvs.
    + intros (vs & -> & _ & Hvs). unfold bind at 1.
      now rewrite (collect_unpacks _ _ _ _ _ [] Hvs).
  - intros k vs buf1 e s Hk Hvs He. unfold bind at 1.
    now rewrite (collect_throw _ (Z.to_nat size) _ _ _ _ _ [] _ Hvs He Hk).
Qed.

Lemma unpack_list_elements_witness :
  unpack (fun _ => inr ""%string) no_mappers 2 [0x92; 0x01; 0xC4]
  = Throw (Neo4jError "Unknown packed value with marker c4") [].
Proof.
  refine (proj2 (unpack_list_elements (fun _ => inr ""%string) no_mappers 1 2
                   [0x92] [0x01; 0xC4] (announces_tiny _ _ _ _ 2 ltac:(lia)))
                1%nat [VInteger (int 1)] [0xC4] _ _ _ _ _).
  - cbn. lia.
  - apply unpacks_cons with (buf1 := [0xC4]); [reflexivity|constructor].
  - reflexivity.
Defined.

(** ** Maps with distinct keys *)

Lemma assign_fresh (entries : list (string * value)) (o : object) :
  NoDup (Object_keys (own o) ++ map fst entries) ->
  ~ In "__proto__"%string (map fst entries) ->
  Permutation (own (fold_left assign entries o)) (own o ++ entries).
Proof.
  revert o. induction entries as [|[k v] entries IH]; intros o Hnd Hk.
  - cbn. now rewrite app_nil_r.
  - cbn [fold_left map fst In] in *.
    assert (Hnew : ~ In k (Object_keys (own o))).
    { intros Hin. apply NoDup_remove_2 in Hnd. apply Hnd.
      apply in_or_app. now left. }
    assert (Hown : Permutation (own (assign o (k, v))) ((k, v) :: own o)).
    { unfold assign. cbn [fst snd]. rewrite set_prop_plain by tauto.
      cbn [own]. unfold define_prop.
      apply has_own_property_not_In in Hnew. rewrite Hnew.
      apply insert_prop_perm. }
    rewrite IH.
    + rewrite Hown. cbn [app]. apply Permutation_middle.
    + unfold Object_keys in *.
      apply (Permutation_NoDup (l := map fst (own o) ++ k :: map fst entries));
        [|assumption].
      rewrite (Permutation_map fst Hown). cbn [map fst app].
      symmetry. apply Permutation_middle.
    + tauto.
Qed.

Lemma keys_in_order_names (last : Z) (names : list string) :
  Forall (fun name => array_index name = None) names ->
  keys_in_order last names = true.
Proof.
  intros H. destruct H as [|name names Hname Hnames]; [reflexivity|].
  cbn [keys_in_order]. rewrite Hname. apply forallb_forall.
  rewrite Forall_forall in Hnames. intros k Hk. now rewrite (Hnames k Hk).
Qed.

(** X6. [unpack] of a map (any of the four map headers) whose keys are
    strings, or values that the host converts to a property key, that are
    distinct and none of which is [__proto__]: the object returned has
    exactly the decoded entries, as many as the header declares.  They
    are in encoded order when no key is an array index; otherwise the
    host lists the array indices first. *)
Theorem unpack_map_distinct_keys
    (ToString : value -> exn + string) (structMappers : Z -> option mapper)
    (fuel : nat) (size : Z) (header : list Z) (buf buf' : source)
    (entries : list (value * value)) (names : list string) :
  announces TINY_MAP MAP_8 MAP_16 MAP_32 size header ->
  unpacks_entries (unpack ToString structMappers fuel) (Z.to_nat size)
                  buf entries buf' ->
  map (fun e => property_key ToString (fst e)) entries = map inr names ->
  NoDup names ->
  ~ In "__proto__"%string names ->
  let named := combine names (map snd entries) in
  let obj := own (assign_all named) in
  unpack ToString structMappers (S fuel) (header ++ buf) = Ok (VObject obj) buf'
  /\ length obj = Z.to_nat size
  /\ Permutation obj named
  /\ (Forall (fun name => array_index name = None) names -> obj = named).
Proof.
  intros Hh H Hnames Hnd Hproto named obj.
  pose proof (unpacks_entries_length _ _ _ _ _ H) as Hlen.
  assert (Hln : length names = length (map snd entries)).
  { apply (f_equal (@length _)) in Hnames. now rewrite !length_map in *. }
  assert (Hfst : map fst named = names) by now apply fst_combine.
  assert (Hperm : Permutation obj named).
  { apply (assign_fresh named empty_object); cbn [own empty_object Object_keys map app];
      now rewrite Hfst. }
  split; [|split; [|split]].
  - rewrite (unpack_map_announced ToString structMappers fuel size header buf Hh).
    unfold unpackMap. rewrite for_fold_const. unfold bind at 1.
    now rewrite (collect_entries ToString _ _ _ _ _ names empty_object H Hnames).
  - rewrite (Permutation_length Hperm).
    rewrite <- Hfst in Hln at 1. rewrite !length_map in Hln. congruence.
  - exact Hperm.
  - intros Hplain.
    apply (assign_in_order named empty_object (-1));
      cbn [own empty_object Object_keys map app]; rewrite Hfst.
    + assumption.
    + now apply keys_in_order_names.
    + apply Forall_forall. intros k Hk ->. contradiction.
Qed.

Lemma unpack_map_distinct_keys_witness :
  unpack (fun _ => inr ""%string) no_mappers 2
         [0xA2; 0x81; 0x62; 0x01; 0x81; 0x31; 0x02]
  = Ok (VObject [("1"%string, VInteger (int 2)); ("b"%string, VInteger (int 1))])
       [].
Proof.
  refine (proj1 (unpack_map_distinct_keys (fun _ => inr ""%string)
                   no_mappers 1 2 [0xA2]
                   [0x81; 0x62; 0x01; 0x81; 0x31; 0x02] []
                   [(VString "b", VInteger (int 1));
                    (VString "1", VInteger (int 2))]
                   ["b"%string; "1"%string]
                   (announces_tiny _ _ _ _ 2 ltac:(lia)) _ eq_refl _ _)).
  - change (Z.to_nat 2) with 2%nat.
    apply unpacks_entries_cons
      with (buf1 := [0x01; 0x81; 0x31; 0x02]) (buf2 := [0x81; 0x31; 0x02]);
      [reflexivity|reflexivity|].
    apply unpacks_entries_cons with (buf1 := [0x02]) (buf2 := []);
      [reflexivity|reflexivity|].
    apply unpacks_entries_nil.
  - repeat constructor; cbn; intuition discriminate.
  - cbn. intuition discriminate.
Defined.

(** ** Integers of every tier *)

Lemma toInt32_range (z : Z) : int32 (toInt32 z).
Proof.
  unfold int32, toInt32.
  pose proof (Z.mod_pos_bound (z + 2 ^ 31) (2 ^ 32) ltac:(lia)). lia.
Qed.

Lemma toInt32_mod (z : Z) : toInt32 z mod 2 ^ 32 = z mod 2 ^ 32.
Proof.
  unfold toInt32.
  rewrite <- Zminus_mod_idemp_l, Z.mod_mod by lia.
  rewrite Zminus_mod_idemp_l. f_equal. lia.
Qed.

Lemma int_value (v : Z) :
  - 2 ^ 63 <= v < 2 ^ 63 -> Integer_toZ (int v) = v /\ Integer_wf (int v).
Proof.
  intros Hv. split.
  - rewrite Integer_toZ_split. unfold int. cbn [low high].
    rewrite toInt32_mod, toInt32_small.
    + rewrite (Z.div_mod v (2 ^ 32)) at 3 by lia. lia.
    + unfold int32. split.
      * apply Z.div_le_lower_bound; lia.
      * apply Z.div_lt_upper_bound; lia.
  - split; apply toInt32_range.
Qed.

Lemma signed32_toInt32 (v : Z) : signed 32 (v mod 2 ^ 32) = toInt32 v.
Proof.
  unfold signed, toInt32.
  pose proof (Z.mod_pos_bound v (2 ^ 32) ltac:(lia)) as Hu.
  rewrite <- (Z.add_mod_idemp_l v) by lia.
  change (2 ^ (32 - 1)) with (2 ^ 31).
  destruct (Z.ltb_spec (v mod 2 ^ 32) (2 ^ 31)).
  - rewrite (Z.mod_small (v mod 2 ^ 32 + 2 ^ 31)) by lia. lia.
  - replace ((v mod 2 ^ 32 + 2 ^ 31) mod 2 ^ 32)
      with (v mod 2 ^ 32 + 2 ^ 31 - 2 ^ 32)
      by (apply Z.mod_unique with (q := 1); lia).
    lia.
Qed.

Lemma readInt32_be_bytes (v : Z) (rest : source) :
  readInt32 (be_bytes 4 v ++ rest) = Ok (toInt32 v) rest.
Proof.
  unfold readInt32. rewrite readSigned_be_bytes.
  change (8 * Z.of_nat 4) with 32. change (256 ^ Z.of_nat 4) with (2 ^ 32).
  now rewrite signed32_toInt32.
Qed.

(** X7. The Unpacker accepts an integer in every tier that is wide enough
    for it, not only in the narrowest: after the marker of the 1, 2, 4 or
    8 byte tier, the big-endian two's-complement image of [v] is read as
    the Integer [int v], whose numeric value is [v], sign included. *)
Theorem unpack_integer_any_tier
    (ToString : value -> exn + string) (structMappers : Z -> option mapper)
    (fuel : nat) (n : nat) (marker v : Z) (rest : source) :
  In (n, marker) [(1%nat, INT_8); (2%nat, INT_16); (4%nat, INT_32);
                  (8%nat, INT_64)] ->
  - 2 ^ (8 * Z.of_nat n - 1) <= v < 2 ^ (8 * Z.of_nat n - 1) ->
  unpack ToString structMappers (S fuel) (marker :: be_bytes n v ++ rest)
    = Ok (VInteger (int v)) rest /\
  Integer_toZ (int v) = v.
Proof.
  intros Hin Hv. cbn [In] in Hin.
  destruct Hin as [[= <- <-]|[[= <- <-]|[[= <- <-]|[[= <- <-]|[]]]]];
    cbn in Hv; (split; [|apply int_value; lia]).
  - rewrite unpack_INT_8. unfold bind.
    now rewrite readInt8_signed by lia.
  - rewrite unpack_INT_16. unfold bind.
    now rewrite readInt16_signed by lia.
  - rewrite unpack_INT_32. unfold bind.
    now rewrite readInt32_signed by lia.
  - rewrite unpack_INT_64, (be_bytes_app 4 4), <- app_assoc. unfold bind.
    now rewrite !readInt32_be_bytes.
Qed.

Lemma unpack_integer_any_tier_witness :
  unpack (fun _ => inr ""%string) no_mappers 1 [0xCA; 0xFF; 0xFF; 0xFF; 0xFE]
  = Ok (VInteger (int (-2))) [].
Proof.
  refine (proj1 (unpack_integer_any_tier (fun _ => inr ""%string) no_mappers 0
                   4 INT_32 (-2) [] _ _)).
  - cbn. tauto.
  - cbn. lia.
Defined.

(** ** Strings of every tier *)

(** X8. The Unpacker accepts a string in every tier: after any of the four
    string headers announcing [n] bytes, the UTF-8 encoding of a string of
    [n] bytes is read back as this string and what follows is left unread;
    when fewer than [n] bytes remain, [unpack] fails with the error of the
    byte source. *)
Theorem unpack_string_any_tier
    (ToString : value -> exn + string) (structMappers : Z -> option mapper)
    (fuel : nat) (size : Z) (header : list Z) :
  announces TINY_STRING STRING_8 STRING_16 STRING_32 size header ->
  (forall s rest,
     Z.of_nat (length (utf8_encode s)) = size ->
     unpack ToString structMappers (S fuel) (header ++ utf8_encode s ++ rest)
     = Ok (VString s) rest) /\
  (forall bytes,
     Z.of_nat (length bytes) < size ->
     unpack ToString structMappers (S fuel) (header ++ bytes)
     = Throw (RangeError "Index out of range") bytes).
Proof.
  intros Hh. split.
  - intros s rest Hs.
    rewrite (unpack_string_announced ToString structMappers fuel size header
               _ Hh).
    unfold utf8_decode, bind. rewrite <- Hs, Nat2Z.id, readBytes_app.
    unfold ret. now rewrite utf8_decode_encode.
  - intros bytes Hlen.
    rewrite (unpack_string_announced ToString structMappers fuel size header
               _ Hh).
    unfold utf8_decode, bind, readBytes.
    now rewrite (proj2 (Nat.leb_gt _ _)) by lia.
Qed.

Lemma unpack_string_any_tier_witness :
  unpack (fun _ => inr ""%string) no_mappers 1 ([0xD2; 0; 0; 0; 2] ++ [0x61])
  = Throw (RangeError "Index out of range") [0x61].
Proof.
  refine (proj2 (unpack_string_any_tier (fun _ => inr ""%string) no_mappers 0 2
                   [0xD2; 0; 0; 0; 2]
                   (announces_32 _ _ _ _ 2 ltac:(lia))) [0x61] _).
  cbn. lia.
Defined.

(** * Further properties of the Packer *)

(** ** Sizes past the largest tier *)

(** X9. A size past the largest tier is reported and not encoded: for a
    list or a map of 2^32 entries or more and for a structure of 2^16
    fields or more, the header function writes nothing and calls [onError]
    once, with an error whose message names the size in decimal; when
    no [onError] was passed it raises a TypeError instead.  The sizes are
    below 2^53, the integers that the host counts and prints exactly. *)
Theorem header_size_not_supported (size fields signature : Z) :
  2 ^ 32 <= size < 2 ^ 53 ->
  2 ^ 16 <= fields < 2 ^ 53 ->
  (forall f : callback,
     packListHeader size (Some f) = f (newError
       ("Lists of size " ++ toString10 size ++ " are not supported")) /\
     packMapHeader size (Some f) = f (newError
       ("Maps of size " ++ toString10 size ++ " are not supported")) /\
     packStructHeader fields signature (Some f) = f (newError
       ("Structures of size " ++ toString10 fields ++ " are not supported"))) /\
  (forall s,
     packListHeader size (Some record_error) s
     = Ok tt (mkSink (written s)
                (reported s ++ [newError
                   ("Lists of size " ++ toString10 size
                      ++ " are not supported")])) /\
     packListHeader size None s
     = Throw (TypeError "onError is not a function") s /\
     packMapHeader size None s
     = Throw (TypeError "onError is not a function") s /\
     packStructHeader fields signature None s
     = Throw (TypeError "onError is not a function") s).
Proof.
  intros Hs Hq.
  assert (Hl : forall oe, packListHeader size oe
                          = call oe (not_supported "Lists" size)).
  { intros oe. unfold packListHeader. header_cases size; (lia || reflexivity). }
  assert (Hm : forall oe, packMapHeader size oe
                          = call oe (not_supported "Maps" size)).
  { intros oe. unfold packMapHeader. header_cases size; (lia || reflexivity). }
  assert (Hst : forall oe, packStructHeader fields signature oe
                = call oe (not_supported "Structures" fields)).
  { intros oe. unfold packStructHeader.
    destruct (Z.ltb_spec fields 0x10); [lia|].
    destruct (Z.ltb_spec fields 0x100); [lia|].
    destruct (Z.ltb_spec fields 0x10000); [lia|]. reflexivity. }
  split.
  - intros f. now rewrite Hl, Hm, Hst.
  - intros s. now rewrite !Hl, Hm, Hst.
Qed.

Lemma header_size_not_supported_witness :
  packListHeader 4294967296 (Some record_error) empty_sink
  = Ok tt (mkSink [] [Neo4jError "Lists of size 4294967296 are not supported"]).
Proof.
  destruct (header_size_not_supported 4294967296 65536 0x4E
              ltac:(lia) ltac:(lia)) as [_ H].
  destruct (H empty_sink) as [Hl _]. exact Hl.
Defined.

(** ** [packStruct] called directly *)

Lemma packStruct_runs (signature : Z) (packableFields : list thunk)
    (onError : option callback) :
  packStruct signature packableFields onError =
  (packStructHeader (Z.of_nat (length packableFields)) signature onError ;;
   each (fun f : thunk => f) packableFields).
Proof.
  unfold packStruct. apply bind_ext. intros _.
  apply (for_loop_nth (fun f : thunk => f) not_callable packableFields).
Qed.

Lemma emits_each_fst (l : list (thunk * list Z)) :
  Forall (fun p => emits (fst p) (snd p)) l ->
  emits (each (fun f : thunk => f) (map fst l)) (concat (map snd l)).
Proof.
  intros H. unfold each. rewrite foldM_map.
  now apply (emits_each fst snd l).
Qed.

(** X10. [packStruct], as a caller uses it with the functions that
    [packable] returned: for fewer than 256 fields it writes the struct
    header with the signature byte and then runs the fields in order.  For
    2^16 fields or more it reports the size through [onError] and writes
    no header, yet it still runs every field, so their bytes reach the
    channel after the error. *)
Theorem packStruct_fields_in_order
    (signature : Z) (fields : list (thunk * list Z))
    (onError : option callback) :
  Forall (fun p => emits (fst p) (snd p)) fields ->
  let n := Z.of_nat (length fields) in
  (n < 256 ->
   emits (packStruct signature (map fst fields) onError)
         ((if n <? 16 then [TINY_STRUCT + n; signature mod 256]
           else [STRUCT_8; n; signature mod 256])
          ++ concat (map snd fields))) /\
  (2 ^ 16 <= n ->
   forall s,
     packStruct signature (map fst fields) (Some record_error) s
     = Ok tt (mkSink (written s ++ concat (map snd fields))
                     (reported s ++ [newError
                        ("Structures of size " ++ toString10 n
                           ++ " are not supported")]))).
Proof.
  intros Hall n. pose proof (emits_each_fst fields Hall) as Hrun.
  split.
  - intros Hn. rewrite packStruct_runs, length_map. fold n.
    apply emits_bind; [|exact Hrun].
    eapply emits_eq; [apply packStructHeader_emits; unfold n; lia|].
    destruct (Z.ltb_spec n 0x10); [reflexivity|].
    now destruct (Z.ltb_spec n 0x100); [|lia].
  - intros Hn s. rewrite packStruct_runs, length_map. fold n.
    unfold bind, packStructHeader.
    destruct (Z.ltb_spec n 0x10); [lia|].
    destruct (Z.ltb_spec n 0x100); [lia|].
    destruct (Z.ltb_spec n 0x10000); [lia|].
    cbn [call record_error]. now rewrite Hrun.
Qed.

Lemma packStruct_fields_in_order_witness :
  packStruct 0x4E [writeUInt8 NULL; packInteger (int 1)] None empty_sink
  = Ok tt (mkSink [0xB2; 0x4E; 0xC0; 0x01] []).
Proof.
  refine (proj1 (packStruct_fields_in_order 0x4E
                   [(writeUInt8 NULL, [NULL]);
                    (packInteger (int 1), integer_tier (Integer_toZ (int 1)))]
                   None _) _ empty_sink).
  - apply Forall_cons; [intro s; reflexivity|].
    apply Forall_cons; [apply packInteger_emits|apply Forall_nil].
  - cbn. lia.
Defined.

(** ** Values that cannot be packed *)

Lemma logs_ret {A} (a : A) : logs (ret a) a [] 0.
Proof. intros [w r]. unfold ret. cbn. now rewrite !app_nil_r. Qed.

Lemma logs_bind {A B} (m : M sink A) (f : A -> M sink B) (a : A) (b : B)
    (bytes1 bytes2 : list Z) (n1 n2 : nat) :
  logs m a bytes1 n1 -> logs (f a) b bytes2 n2 ->
  logs (bind m f) b (bytes1 ++ bytes2) (n1 + n2).
Proof.
  intros Hm Hf s. unfold bind. rewrite Hm, Hf. cbn.
  now rewrite repeat_app, !app_assoc.
Qed.

Lemma logs_emits (m : M sink unit) (bytes : list Z) :
  emits m bytes -> logs m tt bytes 0.
Proof. intros H s. rewrite H. cbn. now rewrite app_nil_r. Qed.

Lemma logs_eq {A} (m : M sink A) (a : A) (bytes bytes' : list Z) (n n' : nat) :
  logs m a bytes n -> bytes = bytes' -> n = n' -> logs m a bytes' n'.
Proof. now intros H <- <-. Qed.

Lemma logs_each {B} (f : B -> M sink unit) (g : B -> list Z) (c : B -> nat)
    (l : list B) :
  Forall (fun b => logs (f b) tt (g b) (c b)) l ->
  logs (each f l) tt (concat (map g l)) (list_sum (map c l)).
Proof.
  unfold each. induction 1 as [|b l Hb _ IH]; cbn [foldM map concat list_sum].
  - apply logs_ret.
  - rewrite (bind_ext (f b) _ (fun _ => foldM (fun b _ => f b) l tt))
      by now intros [].
    eapply logs_bind; eassumption.
Qed.

Lemma list_sum_filter_defined (c : string * value -> nat)
    (props : list (string * value)) :
  list_sum (map c (filter defined props))
  = list_sum (map (fun p => if defined p then c p else 0%nat) props).
Proof.
  induction props as [|p props IH]; [reflexivity|].
  cbn [filter map]. destruct (defined p); cbn [map];
    change (list_sum (?a :: ?l)) with (a + list_sum l)%nat; lia.
Qed.

Section Reports.

Variable onError : option callback.
Variable w : nat.

(** What the last branch of [packable] does with [onError]. *)
Hypothesis report :
  logs (match onError with
        | Some f => f cannot_pack
        | None => ret tt
        end) tt [] w.

Lemma pack_logs (v : value) (t : thunk) :
  logs (packable (S (height v)) v onError) t [] (reported_early w v) ->
  logs t tt (wire v) (reported_late w v) ->
  logs (pack v onError) tt (wire v) (reported_early w v + reported_late w v).
Proof.
  intros H1 H2. unfold pack.
  eapply logs_eq; [eapply logs_bind; eassumption|reflexivity|reflexivity].
Qed.

Lemma packable_fields_logs (fuel : nat) (fields : list value)
    (acc : list thunk) :
  Forall (packs_and_reports onError w) fields ->
  Forall sized fields ->
  (list_max (map height fields) <= fuel)%nat ->
  exists ts,
    logs (foldM (fun x packableFields =>
                   f <- packable (S fuel) x onError ;;
                   ret (packableFields ++ [f])) fields acc)
         (acc ++ ts) [] (list_sum (map (reported_early w) fields)) /\
    length ts = length fields /\
    Forall (fun p => logs (fst p) tt (wire (snd p)) (reported_late w (snd p)))
           (combine ts fields).
Proof.
  intros HIH Hsz. revert acc HIH.
  induction Hsz as [|x fields Hx _ IH]; intros acc HIH Hfuel.
  - exists []. cbn [foldM map list_sum]. rewrite app_nil_r.
    repeat split; [apply logs_ret|constructor].
  - inversion HIH as [|? ? Hpx HIH']; subst.
    cbn [map] in Hfuel.
    change (list_max (?a :: ?l)) with (Nat.max a (list_max l)) in Hfuel.
    destruct (Hpx Hx) as (t & Ht & Hrun).
    destruct (IH (acc ++ [t]) HIH') as (ts & Hts & Hlen & Hall); [lia|].
    exists (t :: ts). cbn [foldM map list_sum].
    rewrite (packable_fuel (S fuel) (S (height x))) by lia.
    rewrite bind_assoc.
    repeat split; [|cbn; congruence|cbn [combine]; now constructor].
    eapply logs_eq;
      [eapply logs_bind; [exact Ht|]|reflexivity|reflexivity].
    rewrite bind_ret_l. rewrite <- app_assoc in Hts. exact Hts.
Qed.

Lemma logs_each_thunks (ts : list thunk) (fields : list value) :
  length ts = length fields ->
  Forall (fun p => logs (fst p) tt (wire (snd p)) (reported_late w (snd p)))
         (combine ts fields) ->
  logs (each (fun f : thunk => f) ts) tt (concat (map wire fields))
       (list_sum (map (reported_late w) fields)).
Proof.
  revert fields. unfold each.
  induction ts as [|t ts IH]; intros [|x fields] Hlen Hall;
    try discriminate; cbn [foldM map concat list_sum].
  - apply logs_ret.
  - cbn [combine] in Hall. inversion Hall as [|? ? Ht Hall']; subst.
    rewrite (bind_ext t _ (fun _ => foldM (fun (f : thunk) _ => f) ts tt))
      by now intros [].
    eapply logs_bind; [exact Ht|]. apply IH; [|assumption].
    cbn in Hlen. congruence.
Qed.

Lemma packable_reports (v : value) : packs_and_reports onError w v.
Proof.
  induction v as [| |b|bits|s|x|elems IH|signature fields IH|props IH]
    using value_nested_ind; intros Hsz;
    inversion Hsz
      as [ | | | |? Hsize| |? Hlen Hall|? ? Hlen Hall|? Hnd Hlen Hall]; subst.
  - exists (ret tt). split; [|apply logs_ret].
    cbn [packable packable_body height reported_early].
    pose proof (logs_bind _ (fun _ => ret (ret tt : thunk)) tt
                  (ret tt : thunk) [] [] w 0 report (logs_ret _)) as H.
    rewrite Nat.add_0_r in H. exact H.
  - exists (writeUInt8 NULL). split; [apply logs_ret|].
    apply logs_emits. intro s. reflexivity.
  - destruct b; eexists; (split; [apply logs_ret|]); apply logs_emits;
      intro s; reflexivity.
  - exists (packFloat bits). split; [apply logs_ret|]. apply logs_emits.
    unfold packFloat. cbn [wire]. repeat emits_step; reflexivity.
  - exists (packString s onError). split; [apply logs_ret|].
    apply logs_emits. now apply packString_emits.
  - exists (packInteger x). split; [apply logs_ret|].
    apply logs_emits. apply packInteger_emits.
  - (* lists *)
    exists (pack (VArray elems) onError).
    split; [apply logs_ret|].
    rewrite pack_array. cbn [wire reported_late].
    eapply logs_eq;
      [eapply logs_bind;
       [apply logs_emits, packListHeader_emits; lia|]
      |reflexivity|reflexivity].
    apply logs_each. rewrite Forall_forall in *. intros x Hx.
    destruct x; try (apply logs_emits, pack_null);
      (destruct (IH _ Hx (Hall _ Hx)) as (t & Ht & Hrun);
       now apply (pack_logs _ t)).
  - (* structures *)
    destruct (packable_fields_logs (list_max (map height fields)) fields
                [] IH Hall)
      as (ts & Hts & Hlts & Hallts); [lia|].
    exists (packStruct signature ts None). split.
    + rewrite packable_structure. cbn [reported_early].
      eapply logs_eq;
        [eapply logs_bind; [exact Hts|apply logs_ret]
        |reflexivity|apply Nat.add_0_r].
    + rewrite packStruct_each. cbn [wire reported_late]. rewrite Hlts.
      apply (logs_bind _ _ tt tt _ _ 0
               (list_sum (map (reported_late w) fields)));
        [|now apply logs_each_thunks].
      apply logs_emits.
      eapply emits_eq; [apply packStructHeader_emits; lia|].
      destruct (Z.ltb_spec (Z.of_nat (length fields)) 0x10); [reflexivity|].
      now destruct (Z.ltb_spec (Z.of_nat (length fields)) 0x100); [|lia].
  - (* maps *)
    exists (pack (VObject props) onError).
    split; [apply logs_ret|].
    rewrite pack_object by assumption. cbn [wire reported_late].
    pose proof (filter_length_le defined props) as Hcount.
    eapply logs_eq.
    + eapply (logs_bind _ _ tt tt _ _ 0
               (list_sum (map (fun p => (reported_early w (snd p)
                                         + reported_late w (snd p))%nat)
                              (filter defined props))));
        [apply logs_emits, packMapHeader_emits; lia|].
      apply (logs_each (pack_entry onError)
               (fun p => encode_string (fst p) ++ wire (snd p))).
      rewrite Forall_forall in *. intros [k v] Hin.
      apply filter_In in Hin as [Hin Hdef].
      destruct (Hall _ Hin) as [Hk Hv]. cbn [fst snd] in *.
      unfold pack_entry. cbn [fst snd].
      apply (logs_bind _ _ tt tt _ _ 0
               (reported_early w v + reported_late w v));
        [apply logs_emits, packString_emits; assumption|].
      destruct (IH _ Hin Hv) as (t & Ht & Hrun). cbn [snd] in *.
      now apply (pack_logs _ t).
    + f_equal. apply concat_filter_defined.
    + apply list_sum_filter_defined.
Qed.

End Reports.

Lemma report_recorded : logs (record_error cannot_pack) tt [] 1.
Proof. intros [wr r]. cbn. now rewrite app_nil_r. Qed.

Lemma report_dropped : logs (@ret sink unit tt) tt [] 0.
Proof. apply logs_ret. Qed.

Lemma reported_nothing (v : value) :
  reported_early 0 v = 0%nat /\ reported_late 0 v = 0%nat.
Proof.
  induction v as [| |b|bits|s|x|elems IH|signature fields IH|props IH]
    using value_nested_ind; cbn [reported_early reported_late];
    try (split; reflexivity).
  - split; [reflexivity|].
    induction IH as [|x elems [Hx1 Hx2] _ IHl]; [reflexivity|].
    cbn [map]. change (list_sum (?a :: ?l)) with (a + list_sum l)%nat.
    rewrite IHl, Hx1, Hx2. now destruct (is_undefined x).
  - split; induction IH as [|x fields [Hx1 Hx2] _ IHl]; try reflexivity;
      cbn [map]; change (list_sum (?a :: ?l)) with (a + list_sum l)%nat;
      rewrite IHl; lia.
  - split; [reflexivity|].
    induction IH as [|p props [Hp1 Hp2] _ IHl]; [reflexivity|].
    cbn [map]. change (list_sum (?a :: ?l)) with (a + list_sum l)%nat.
    rewrite IHl, Hp1, Hp2. now destruct (defined p).
Qed.

(** X11. With a recording [onError], packing a value whose sizes are
    within the limits never throws, also when [undefined] (a value that
    cannot be packed) occurs in it as a field of a structure or is the
    value itself: each such occurrence is reported once and contributes no
    byte, and the rest of the value is written as usual. *)
Theorem pack_reports_unencodable (v : value) (s : sink) :
  sized v ->
  pack v (Some record_error) s =
  Ok tt (mkSink (written s ++ wire v)
                (reported s ++ repeat cannot_pack (unencodable v))).
Proof.
  intros Hsz.
  destruct (packable_reports (Some record_error) 1 report_recorded v Hsz)
    as (t & Ht & Hrun).
  now apply (pack_logs (Some record_error) 1 v t).
Qed.

Lemma pack_reports_unencodable_witness :
  pack (VArray [VStructure 0x4E [VInteger (int 1); VUndefined]; VUndefined])
       (Some record_error) empty_sink
  = Ok tt (mkSink [0x92; 0xB2; 0x4E; 0x01; 0xC0] [cannot_pack]).
Proof.
  apply (pack_reports_unencodable
           (VArray [VStructure 0x4E [VInteger (int 1); VUndefined]; VUndefined])
           empty_sink).
  apply sz_array; [cbn; lia|].
  apply Forall_cons; [|apply Forall_cons; [apply sz_undefined|apply Forall_nil]].
  apply sz_structure; [cbn; lia|].
  apply Forall_cons; [apply sz_integer|].
  apply Forall_cons; [apply sz_undefined|apply Forall_nil].
Defined.

(** X15. Without an [onError], a value that cannot be packed is dropped
    silently: packing a value whose sizes are within the limits neither
    throws nor reports anything, and writes the same bytes as with an
    [onError], so a structure can declare more fields than are encoded
    after its header. *)
Theorem pack_drops_unencodable_silently (v : value) (s : sink) :
  sized v ->
  pack v None s = Ok tt (mkSink (written s ++ wire v) (reported s)) /\
  bytes_of (pack v None empty_sink)
    = bytes_of (pack v (Some record_error) empty_sink).
Proof.
  intros Hsz.
  destruct (packable_reports None 0 report_dropped v Hsz) as (t & Ht & Hrun).
  pose proof (pack_logs None 0 v t Ht Hrun) as Hnone.
  destruct (packable_reports (Some record_error) 1 report_recorded v Hsz)
    as (t' & Ht' & Hrun').
  pose proof (pack_logs (Some record_error) 1 v t' Ht' Hrun') as Hsome.
  destruct (reported_nothing v) as [He Hl].
  split.
  - rewrite Hnone, He, Hl. cbn [repeat Nat.add]. now rewrite app_nil_r.
  - now rewrite Hnone, Hsome.
Qed.

Lemma pack_drops_unencodable_silently_witness :
  pack (VStructure 0x4E [VUndefined; VNull]) None empty_sink
  = Ok tt (mkSink [0xB2; 0x4E; 0xC0] []).
Proof.
  refine (proj1 (pack_drops_unencodable_silently
                   (VStructure 0x4E [VUndefined; VNull]) empty_sink _)).
  apply sz_structure; [cbn; lia|].
  apply Forall_cons; [apply sz_undefined|].
  apply Forall_cons; [apply sz_null|apply Forall_nil].
Defined.

(** * The marker space *)

Lemma known_markers_checked
    (ToString : value -> exn + string) (structMappers : Z -> option mapper)
    (fuel : nat) :
  forallb (fun b => existsb (Z.eqb b) unknown_markers
                    || value_or_truncated
                         (unpack ToString structMappers (S (S fuel)) [b]))
          all_bytes = true.
Proof. vm_compute. reflexivity. Qed.

Lemma all_bytes_In (b : Z) : 0 <= b < 256 -> In b all_bytes.
Proof.
  intros Hb. unfold all_bytes. apply in_map_iff.
  exists (Z.to_nat b). split; [lia|]. apply in_seq. lia.
Qed.

(** X12. The 29 unknown markers are exactly the bytes that [unpack] does
    not accept as the first byte of a value.  On one of them it raises the
    unknown-marker error whatever follows, having consumed the marker
    only.  Every other byte, alone in the buffer, is read as a value or
    makes the byte source fail for lack of input. *)
Theorem unknown_markers_exact
    (ToString : value -> exn + string) (structMappers : Z -> option mapper)
    (fuel : nat) (marker : Z) :
  0 <= marker < 256 ->
  (In marker unknown_markers ->
   forall rest,
     unpack ToString structMappers (S fuel) (marker :: rest)
     = Throw (Neo4jError ("Unknown packed value with marker " ++ hex2 marker))
             rest) /\
  (~ In marker unknown_markers ->
   (exists v, unpack ToString structMappers (S (S fuel)) [marker] = Ok v []) \/
   unpack ToString structMappers (S (S fuel)) [marker]
   = Throw (RangeError "Index out of range") []).
Proof.
  intros Hb. split.
  - intros Hin rest. unfold unknown_markers in Hin. cbn [In] in Hin.
    repeat (destruct Hin as [<-|Hin]; [reflexivity|]). contradiction.
  - intros Hnot.
    pose proof (known_markers_checked ToString structMappers fuel) as H.
    rewrite forallb_forall in H. specialize (H marker (all_bytes_In marker Hb)).
    apply orb_true_iff in H as [H|H].
    + exfalso. apply Hnot. apply existsb_exists in H as (x & Hx & Heq).
      apply Z.eqb_eq in Heq. now subst.
    + unfold value_or_truncated in H.
      destruct (unpack ToString structMappers (S (S fuel)) [marker])
        as [v [|? ?]|[m|m|m] [|? ?]|]; try discriminate.
      * left. now exists v.
      * right. apply String.eqb_eq in H. now subst.
Qed.

Lemma unknown_markers_exact_witness :
  unpack (fun _ => inr ""%string) no_mappers 1 [0xDB; 0x01; 0x02]
  = Throw (Neo4jError "Unknown packed value with marker db") [0x01; 0x02].
Proof.
  refine (proj1 (unknown_markers_exact (fun _ => inr ""%string) no_mappers 0 0xDB
                   ltac:(lia)) _ [0x01; 0x02]).
  cbn. tauto.
Defined.

(** * Composition *)

(** X13. [packable] defers the writing.  For a value whose sizes are
    within the limits and a recording [onError], calling [packable] writes
    nothing: it only reports the fields of structures that cannot be
    packed, and returns a function.  Each call of this function writes the
    encoding of the value after what the channel holds, so the function
    can be handed to [packStruct] or called later. *)
Theorem packable_defers_writing (v : value) (fuel : nat) :
  sized v ->
  (height v < fuel)%nat ->
  exists t : thunk,
    (forall s,
       packable fuel v (Some record_error) s
       = Ok t (mkSink (written s)
                      (reported s ++ repeat cannot_pack (reported_early 1 v)))) /\
    (forall s,
       t s = Ok tt (mkSink (written s ++ wire v)
                           (reported s
                              ++ repeat cannot_pack (reported_late 1 v)))).
Proof.
  intros Hsz Hfuel.
  destruct (packable_reports (Some record_error) 1 report_recorded v Hsz)
    as (t & Ht & Hrun).
  exists t. split; [|exact Hrun].
  intros s. rewrite (packable_fuel fuel (S (height v))) by lia.
  rewrite Ht. now rewrite app_nil_r.
Qed.

Lemma packable_defers_writing_witness :
  exists t : thunk,
    packable 2 (VStructure 0x4E [VUndefined; VNull]) (Some record_error)
             empty_sink
    = Ok t (mkSink [] [cannot_pack]) /\
    t (mkSink [0x01] []) = Ok tt (mkSink [0x01; 0xB2; 0x4E; 0xC0] []).
Proof.
  destruct (packable_defers_writing (VStructure 0x4E [VUndefined; VNull]) 2)
    as (t & Ht & Hrun).
  - apply sz_structure; [cbn; lia|].
    apply Forall_cons; [apply sz_undefined|].
    apply Forall_cons; [apply sz_null|apply Forall_nil].
  - cbn. lia.
  - exists t. split; [apply Ht|apply Hrun].
Defined.

(** X14. Values that are packed one after the other on the same channel
    are unpacked one after the other from the bytes written: for values
    within the limits whose maps are plain (no entry named [__proto__],
    entries in the order of [Object.keys]), the channel receives the
    concatenation of their encodings, and successive calls of [unpack] on
    these bytes return the values in order (up to the two rules about
    [undefined]) and leave what follows unread. *)
Theorem stream_roundtrip
    (ToString : value -> exn + string) (onError : option callback)
    (vs : list value) (rest : source) (fuel : nat) :
  Forall within_limits vs ->
  forallb plain_keys vs = true ->
  (list_max (map height vs) < fuel)%nat ->
  emits (each (fun v => pack v onError) vs) (concat (map encode vs)) /\
  unpacks (unpack ToString no_mappers fuel) (length vs)
          (concat (map encode vs) ++ rest) (map normalize vs) rest.
Proof.
  intros Hall Hplain Hfuel. split.
  - apply emits_each. rewrite Forall_forall in *. intros v Hv.
    now apply pack_encode, Hall.
  - rewrite <- (map_ext_in reread normalize).
    + apply unpacks_fields; [|assumption|assumption].
      rewrite Forall_forall. intros v _.
      apply (unpack_encode ToString no_mappers (fun _ => eq_refl)).
    + rewrite Forall_forall in Hall. rewrite forallb_forall in Hplain.
      intros v Hv. apply reread_normalize; auto.
Qed.

Lemma stream_roundtrip_witness :
  unpacks (unpack (fun _ => inr ""%string) no_mappers 2) 2
          ([0x91; 0xC0; 0x81; 0x61] ++ [0xC4])
          [VArray [VNull]; VString "a"] [0xC4].
Proof.
  refine (proj2 (stream_roundtrip (fun _ => inr ""%string) None
                   [VArray [VUndefined]; VString "a"] [0xC4] 2 _ _ _)).
  - apply Forall_cons.
    + apply wl_array; [cbn; lia|].
      apply Forall_cons; [now left|apply Forall_nil].
    + apply Forall_cons; [apply wl_string; cbn; lia|apply Forall_nil].
  - reflexivity.
  - cbn. lia.
Defined.

(** ** The encoding determines the value *)

Lemma app_eq_length {A} (a a' x x' : list A) :
  length a = length a' -> a ++ x = a' ++ x' -> a = a' /\ x = x'.
Proof.
  revert a'. induction a as [|h a IH]; intros [|h' a'] Hlen; try discriminate;
    cbn [app].
  - now split.
  - intros [= -> H]. destruct (IH a') as [-> ->]; [now injection Hlen|exact H|].
    now split.
Qed.

Lemma cons_inj {A} (a a' : A) (l l' : list A) :
  a :: l = a' :: l' -> a = a' /\ l = l'.
Proof. now intros [= -> ->]. Qed.

Lemma be_bytes_inj (k : nat) (n n' : Z) (x x' : list Z) :
  0 <= n < 256 ^ Z.of_nat k -> 0 <= n' < 256 ^ Z.of_nat k ->
  be_bytes k n ++ x = be_bytes k n' ++ x' -> n = n' /\ x = x'.
Proof.
  intros Hn Hn' H.
  apply app_eq_length in H as [H ->]; [|now rewrite !be_bytes_length].
  split; [|reflexivity].
  apply (f_equal be_value) in H. rewrite !be_value_be_bytes in H.
  now rewrite !Z.mod_small in H by assumption.
Qed.

Lemma map_header_inj (n n' : Z) (x x' : list Z) :
  0 <= n < 2 ^ 32 -> 0 <= n' < 2 ^ 32 ->
  map_header n ++ x = map_header n' ++ x' -> n = n' /\ x = x'.
Proof.
  intros Hn Hn'. unfold map_header, size_header, TINY_MAP, MAP_8, MAP_16, MAP_32.
  header_cases n; try lia; header_cases n'; try lia; cbn [app];
    intros He; apply cons_inj in He as [Hm He]; try lia.
  - split; [lia|assumption].
  - now apply cons_inj in He.
  - apply (be_bytes_inj 2); [cbn; lia|cbn; lia|exact He].
  - apply (be_bytes_inj 4); [cbn; lia|cbn; lia|exact He].
Qed.

Lemma encode_reread (v v' : value) (r r' : list Z) :
  within_limits v -> within_limits v' ->
  encode v ++ r = encode v' ++ r' -> reread v = reread v' /\ r = r'.
Proof.
  intros Hv Hv' He.
  set (fuel := S (Nat.max (height v) (height v'))).
  pose proof (unpack_encode (fun _ => inr EmptyString) no_mappers
                (fun _ => eq_refl) v Hv fuel r ltac:(unfold fuel; lia)) as H.
  pose proof (unpack_encode (fun _ => inr EmptyString) no_mappers
                (fun _ => eq_refl) v' Hv' fuel r' ltac:(unfold fuel; lia)) as H'.
  rewrite He, H' in H. now injection H as -> ->.
Qed.

Lemma encode_null (v' : value) (r r' : list Z) :
  within_limits v' ->
  encode VNull ++ r = encode v' ++ r' -> normalize v' = VNull /\ r = r'.
Proof.
  intros Hv' He.
  destruct (encode_reread VNull v' r r' wl_null Hv' He) as [Hre ->].
  split; [|reflexivity].
  destruct v'; cbn [reread] in Hre; try discriminate. reflexivity.
Qed.

Lemma encode_undefined_to_null (x : value) :
  encode (undefined_to_null x) = encode x.
Proof. now destruct x. Qed.

Lemma within_limits_undefined_to_null (x : value) :
  x = VUndefined \/ within_limits x -> within_limits (undefined_to_null x).
Proof.
  intros [->|H]; [apply wl_null|].
  now destruct x; try assumption; inversion H.
Qed.

Lemma normalize_null (x : value) :
  undefined_to_null (normalize (undefined_to_null x))
  = undefined_to_null (normalize x).
Proof. now destruct x. Qed.

(** The encodings of the elements of a list, one after the other,
    determine the elements up to the two rules about [undefined], when
    the encoding of each element does. *)
Lemma elements_determined (elems elems' : list value) (r r' : list Z) :
  Forall (fun v => within_limits v -> forall v' r r',
            within_limits v' -> encode v ++ r = encode v' ++ r' ->
            normalize v = normalize v') elems ->
  Forall (fun x => x = VUndefined \/ within_limits x) elems ->
  Forall (fun x => x = VUndefined \/ within_limits x) elems' ->
  length elems = length elems' ->
  concat (map encode elems) ++ r = concat (map encode elems') ++ r' ->
  map (fun x => undefined_to_null (normalize x)) elems
  = map (fun x => undefined_to_null (normalize x)) elems'.
Proof.
  intros HIH. revert elems' r r'.
  induction HIH as [|x elems Hx _ IH]; intros [|x' elems'] r r' Hwl Hwl' Hlen He;
    try discriminate; [reflexivity|].
  inversion Hwl as [|? ? Hwx Hwl1]; subst.
  inversion Hwl' as [|? ? Hwx' Hwl1']; subst.
  cbn [map concat] in *. rewrite <- !app_assoc in He.
  rewrite <- (encode_undefined_to_null x), <- (encode_undefined_to_null x')
    in He.
  pose proof (within_limits_undefined_to_null x Hwx) as Hy.
  pose proof (within_limits_undefined_to_null x' Hwx') as Hy'.
  destruct (encode_reread _ _ _ _ Hy Hy' He) as [_ Htail].
  f_equal.
  - rewrite <- (normalize_null x), <- (normalize_null x').
    destruct Hwx as [->|Hwx].
    + cbn [undefined_to_null is_undefined] in *.
      destruct (encode_null _ _ _ Hy' He) as [-> _]. reflexivity.
    + assert (Hd : undefined_to_null x = x)
        by (destruct x; try reflexivity; inversion Hwx).
      rewrite Hd in *. f_equal. now apply (Hx Hwx _ _ _ Hy' He).
  - apply (IH elems' r r'); auto.
Qed.

Lemma entries_determined (props props' : list (string * value))
    (r r' : list Z) :
  Forall (fun p => within_limits (snd p) -> forall v' r r',
            within_limits v' -> encode (snd p) ++ r = encode v' ++ r' ->
            normalize (snd p) = normalize v') props ->
  Forall (fun p => Z.of_nat (length (utf8_encode (fst p))) < 2 ^ 32 /\
                   within_limits (snd p)) props ->
  Forall (fun p => Z.of_nat (length (utf8_encode (fst p))) < 2 ^ 32 /\
                   within_limits (snd p)) props' ->
  length props = length props' ->
  concat (map (fun p => encode_string (fst p) ++ encode (snd p)) props) ++ r
  = concat (map (fun p => encode_string (fst p) ++ encode (snd p)) props')
    ++ r' ->
  map (fun p => (fst p, normalize (snd p))) props
  = map (fun p => (fst p, normalize (snd p))) props'.
Proof.
  intros HIH. revert props' r r'.
  induction HIH as [|[k x] props Hx _ IH];
    intros [|[k' x'] props'] r r' Hwl Hwl' Hlen He;
    try discriminate; [reflexivity|].
  inversion Hwl as [|? ? [Hk Hwx] Hwl1]; subst.
  inversion Hwl' as [|? ? [Hk' Hwx'] Hwl1']; subst.
  cbn [map concat fst snd] in *. rewrite <- !app_assoc in He.
  destruct (encode_reread (VString k) (VString k') _ _
              (wl_string k Hk) (wl_string k' Hk') He) as [[= <-] He1].
  destruct (encode_reread _ _ _ _ Hwx Hwx' He1) as [_ He2].
  rewrite (Hx Hwx _ _ _ Hwx' He1). f_equal.
  apply (IH props' r r'); auto.
Qed.

Lemma normalize_object (props : list (string * value)) :
  normalize (VObject props)
  = VObject (map (fun p => (fst p, normalize (snd p))) (filter defined props)).
Proof.
  cbn [normalize]. f_equal.
  induction props as [|p props IH]; [reflexivity|].
  cbn [flat_map filter]. destruct (defined p); cbn [app map]; congruence.
Qed.

Lemma within_limits_entries (props : list (string * value)) :
  Forall (fun p => Z.of_nat (length (utf8_encode (fst p))) < 2 ^ 32 /\
                   (snd p = VUndefined \/ within_limits (snd p))) props ->
  Forall (fun p => Z.of_nat (length (utf8_encode (fst p))) < 2 ^ 32 /\
                   within_limits (snd p)) (filter defined props).
Proof.
  rewrite !Forall_forall. intros H p Hp.
  apply filter_In in Hp as [Hp Hd]. destruct (H p Hp) as [Hk [Hu|Hw]].
  - unfold defined in Hd. rewrite Hu in Hd. discriminate.
  - now split.
Qed.

Lemma encode_determines (v : value) :
  within_limits v ->
  forall v' r r',
    within_limits v' -> encode v ++ r = encode v' ++ r' ->
    normalize v = normalize v'.
Proof.
  induction v as [| |b|bits|s|x|elems IH|signature fields IH|props IH]
    using value_nested_ind;
    intros Hwl v' r r' Hwl' He;
    destruct (encode_reread _ _ _ _ Hwl Hwl' He) as [Hre _];
    try (destruct v'; cbn [reread] in Hre; try discriminate;
         cbn [normalize]; congruence).
  - (* lists *)
    destruct v' as [| | | | | |elems'| |]; cbn [reread] in Hre;
      try discriminate.
    injection Hre as Hre.
    assert (Hlen : length elems = length elems').
    { apply (f_equal (@length _)) in Hre. now rewrite !length_map in Hre. }
    inversion Hwl; inversion Hwl'; subst.
    cbn [encode normalize] in *. rewrite Hlen, <- !app_assoc in He.
    apply app_inv_head in He. f_equal.
    now apply (elements_determined elems elems' r r').
  - (* structures *)
    destruct v' as [| | | | | | |signature' fields'|]; cbn [reread] in Hre;
      try discriminate.
    injection Hre as <- Hre.
    assert (Hlen : length fields = length fields').
    { apply (f_equal (@length _)) in Hre. now rewrite !length_map in Hre. }
    inversion Hwl; inversion Hwl'; subst.
    cbn [encode normalize] in *. rewrite Hlen, <- !app_assoc in He.
    apply app_inv_head in He. f_equal.
    assert (Hn : forall l, Forall within_limits l ->
              map normalize l
              = map (fun x => undefined_to_null (normalize x)) l).
    { intros l Hl. apply map_ext_in. intros y Hy.
      rewrite Forall_forall in Hl. specialize (Hl y Hy).
      destruct y; try reflexivity. inversion Hl. }
    rewrite !Hn by assumption.
    apply (elements_determined fields fields' r r'); try assumption;
      eapply Forall_impl; try eassumption; cbn; auto.
  - (* maps *)
    destruct v' as [| | | | | | | |props']; cbn [reread] in Hre;
      try discriminate.
    clear Hre. inversion Hwl; inversion Hwl'; subst.
    rewrite !normalize_object. cbn [encode] in He.
    rewrite <- !app_assoc in He.
    pose proof (filter_length_le defined props).
    pose proof (filter_length_le defined props').
    apply map_header_inj in He as [Hlen He]; [|lia|lia].
    rewrite <- !(concat_filter_defined
                   (fun p => encode_string (fst p) ++ encode (snd p))) in He.
    f_equal.
    apply (entries_determined _ _ r r'); try (now apply within_limits_entries);
      [|lia|exact He].
    rewrite Forall_forall in *. intros p Hp.
    apply filter_In in Hp as [Hp _]. now apply IH.
Qed.

(** X16. Different values have different encodings: when the Packer
    writes the same bytes for two values within the limits, the two values
    are equal up to the two rules about [undefined]. *)
Theorem pack_injective (v v' : value) (onError : option callback) :
  within_limits v ->
  within_limits v' ->
  bytes_of (pack v onError empty_sink) = bytes_of (pack v' onError empty_sink) ->
  normalize v = normalize v'.
Proof.
  intros Hv Hv'. rewrite (pack_encode onError v Hv), (pack_encode onError v' Hv').
  cbn [bytes_of written empty_sink app]. intros [= Henc].
  apply (encode_determines v Hv v' [] [] Hv'). now rewrite Henc.
Qed.

Lemma pack_injective_witness :
  normalize (VArray [VUndefined]) = normalize (VArray [VNull]).
Proof.
  apply (pack_injective (VArray [VUndefined]) (VArray [VNull]) None).
  - apply wl_array; [cbn; lia|].
    apply Forall_cons; [now left|apply Forall_nil].
  - apply wl_array; [cbn; lia|].
    apply Forall_cons; [right; apply wl_null|apply Forall_nil].
  - reflexivity.
Defined.

(** * What the Unpacker returns *)

Lemma ret_returns {A} (P : A -> Prop) (a : A) : P a -> returns P (ret a).
Proof. intros Ha buf a' rest Hb [= <- <-]. now split. Qed.

Lemma throw_returns {A} (P : A -> Prop) (e : exn) : returns P (@throw source A e).
Proof. intros buf a rest _ [=]. Qed.

Lemma bind_returns {A B} (P : A -> Prop) (Q : B -> Prop)
    (m : M source A) (f : A -> M source B) :
  returns P m -> (forall a, P a -> returns Q (f a)) -> returns Q (bind m f).
Proof.
  intros Hm Hf buf b rest Hbuf. unfold bind.
  destruct (m buf) as [a rest1|e rest1|] eqn:E; try discriminate.
  destruct (Hm buf a rest1 Hbuf E) as [Ha Hrest1].
  now apply Hf.
Qed.

Lemma Forall_take {A} (P : A -> Prop) (n : nat) (l : list A) :
  Forall P l -> Forall P (firstn n l).
Proof.
  intros H. revert n. induction H; intros [|n]; cbn; constructor; auto.
Qed.

Lemma Forall_drop {A} (P : A -> Prop) (n : nat) (l : list A) :
  Forall P l -> Forall P (skipn n l).
Proof.
  intros H. revert n. induction H; intros [|n]; cbn; auto.
Qed.

Lemma readBytes_returns (n : nat) :
  returns (fun bytes => Forall byte bytes /\ length bytes = n) (readBytes n).
Proof.
  intros buf a rest Hbuf. unfold readBytes.
  destruct (Nat.leb_spec n (length buf)) as [Hle|Hgt]; [|discriminate].
  intros [= <- <-]. repeat split.
  - now apply Forall_take.
  - rewrite length_firstn. lia.
  - now apply Forall_drop.
Qed.

Lemma be_value_bound (bytes : list Z) :
  Forall byte bytes -> 0 <= be_value bytes < 256 ^ Z.of_nat (length bytes).
Proof.
  induction 1 as [|b bytes Hb _ IH].
  - cbn. lia.
  - rewrite be_value_cons. cbn [length].
    rewrite Nat2Z.inj_succ, Z.pow_succ_r by lia. unfold byte in Hb.
    assert (0 < 256 ^ Z.of_nat (length bytes)) by (apply Z.pow_pos_nonneg; lia).
    nia.
Qed.

Lemma readUnsigned_returns (n : nat) :
  returns (fun v => 0 <= v < 256 ^ Z.of_nat n) (readUnsigned n).
Proof.
  unfold readUnsigned.
  eapply bind_returns; [apply readBytes_returns|].
  intros bytes [Hb Hlen]. apply ret_returns.
  rewrite <- Hlen. now apply be_value_bound.
Qed.

Lemma signed_range (n : nat) (v : Z) :
  (0 < n)%nat ->
  0 <= v < 256 ^ Z.of_nat n ->
  - 2 ^ (8 * Z.of_nat n - 1) <= signed (8 * Z.of_nat n) v
    < 2 ^ (8 * Z.of_nat n - 1).
Proof.
  intros Hn Hv. unfold signed.
  assert (H256 : 256 ^ Z.of_nat n = 2 ^ (8 * Z.of_nat n)).
  { change 256 with (2 ^ 8). now rewrite <- Z.pow_mul_r by lia. }
  assert (Hhalf : 2 ^ (8 * Z.of_nat n) = 2 * 2 ^ (8 * Z.of_nat n - 1)).
  { rewrite <- Z.pow_succ_r by lia. f_equal. lia. }
  rewrite H256, Hhalf in *.
  destruct (Z.ltb_spec v (2 ^ (8 * Z.of_nat n - 1))); lia.
Qed.

Lemma readSigned_returns (n : nat) :
  (0 < n)%nat ->
  returns (fun v => - 2 ^ (8 * Z.of_nat n - 1) <= v < 2 ^ (8 * Z.of_nat n - 1))
          (readSigned n).
Proof.
  intros Hn. unfold readSigned.
  eapply bind_returns; [apply readBytes_returns|].
  intros bytes [Hb Hlen]. apply ret_returns.
  apply signed_range; [assumption|].
  rewrite <- Hlen. now apply be_value_bound.
Qed.

Lemma returns_weaken {A} (P Q : A -> Prop) (m : M source A) :
  (forall a, P a -> Q a) -> returns P m -> returns Q m.
Proof.
  intros HPQ Hm buf a rest Hbuf E. destruct (Hm buf a rest Hbuf E). auto.
Qed.

Lemma utf8_decode_returns (n : Z) : returns decoded (utf8_decode n).
Proof.
  unfold utf8_decode.
  eapply bind_returns; [apply readBytes_returns|].
  intros bytes _. apply ret_returns. constructor.
Qed.

Lemma for_fold_returns {A} (I : A -> Prop) (body : nat -> A -> M source A)
    (start count : nat) (acc : A) :
  (forall i a, I a -> returns I (body i a)) ->
  I acc ->
  returns I (for_fold start count body acc).
Proof.
  intros Hb. revert start acc.
  induction count as [|c IH]; intros start acc Hacc; cbn [for_fold].
  - now apply ret_returns.
  - eapply bind_returns; [now apply Hb|]. intros a Ha. now apply IH.
Qed.

Lemma decoded_set_prop (o : object) (k : string) (v : value) :
  Forall (fun p => decoded (snd p)) (own o) -> decoded v ->
  Forall (fun p => decoded (snd p)) (own (set_prop o k v)).
Proof.
  rewrite !Forall_forall. intros Ho Hv p Hp.
  apply In_set_prop in Hp as [->|Hp]; [exact Hv|now apply Ho].
Qed.

Lemma lift_returns {A} (r : exn + A) : returns (fun _ => True) (lift r).
Proof. destruct r; [apply throw_returns|now apply ret_returns]. Qed.

Section Decoded.

Variable ToString : value -> exn + string.
Variable structMappers : Z -> option mapper.
Hypothesis mappers_ok : mappers_decode structMappers.

Lemma unpackList_returns (u : M source value) (size : Z) :
  returns decoded u -> returns decoded (unpackList u size).
Proof.
  intros Hu. unfold unpackList.
  eapply bind_returns with (P := Forall decoded).
  - apply for_fold_returns; [|constructor].
    intros _ acc Hacc. eapply bind_returns; [exact Hu|].
    intros v Hv. apply ret_returns.
    apply Forall_app. split; [assumption|now constructor].
  - intros vs Hvs. apply ret_returns. now constructor.
Qed.

Lemma unpackMap_returns (u : M source value) (size : Z) :
  returns decoded u -> returns decoded (unpackMap ToString u size).
Proof.
  intros Hu. unfold unpackMap.
  eapply bind_returns
    with (P := fun o => NoDup (Object_keys (own o))
                        /\ Forall (fun p => decoded (snd p)) (own o)).
  - apply for_fold_returns; [|split; constructor].
    intros _ acc [Hnd Hacc]. eapply bind_returns; [exact Hu|].
    intros key _. eapply bind_returns; [exact Hu|].
    intros v Hv. eapply bind_returns; [apply lift_returns|].
    intros name _. apply ret_returns. split.
    + now apply NoDup_keys_set_prop.
    + now apply decoded_set_prop.
  - intros o [Hnd Ho]. apply ret_returns. now constructor.
Qed.

Lemma unpackStruct_returns (u : M source value) (size : Z) :
  returns decoded u -> returns decoded (unpackStruct structMappers u size).
Proof.
  intros Hu. unfold unpackStruct.
  eapply bind_returns; [apply (readUnsigned_returns 1)|].
  intros signature Hsig.
  destruct (structMappers signature) as [mp|] eqn:Hmp.
  - now apply (mappers_ok signature mp Hmp).
  - eapply bind_returns with (P := Forall decoded).
    + apply for_fold_returns; [|constructor].
      intros _ acc Hacc. eapply bind_returns; [exact Hu|].
      intros v Hv. apply ret_returns.
      apply Forall_app. split; [assumption|now constructor].
    + intros vs Hvs. apply ret_returns. now constructor.
Qed.

Lemma decoded_int (v : Z) : decoded (VInteger (int v)).
Proof. constructor. split; apply toInt32_range. Qed.

Lemma unpack_body_returns (u : M source value) :
  returns decoded u -> returns decoded (unpack_body ToString structMappers u).
Proof.
  intros Hu. unfold unpack_body.
  eapply bind_returns; [apply (readUnsigned_returns 1)|].
  intros marker _. cbv zeta.
  repeat match goal with
         | |- returns _ (if ?c then _ else _) => destruct c
         end;
    try (apply ret_returns; first [apply decoded_int | now constructor]);
    try apply throw_returns;
    try apply utf8_decode_returns;
    try (apply unpackList_returns; exact Hu);
    try (apply unpackMap_returns; exact Hu);
    try (apply unpackStruct_returns; exact Hu).
  - eapply bind_returns; [apply (readUnsigned_returns 8)|].
    intros bits Hbits. apply ret_returns. constructor.
    change (256 ^ Z.of_nat 8) with (2 ^ 64) in Hbits. exact Hbits.
  - eapply bind_returns; [apply (readSigned_returns 1); lia|].
    intros b _. apply ret_returns, decoded_int.
  - eapply bind_returns; [apply (readSigned_returns 2); lia|].
    intros b _. apply ret_returns, decoded_int.
  - eapply bind_returns; [apply (readSigned_returns 4); lia|].
    intros b _. apply ret_returns, decoded_int.
  - eapply bind_returns; [apply (readSigned_returns 4); lia|].
    intros hi Hhi.
    eapply bind_returns; [apply (readSigned_returns 4); lia|].
    intros lo Hlo. apply ret_returns. constructor.
    change (8 * Z.of_nat 4 - 1) with 31 in Hhi, Hlo.
    split; unfold int32; cbn [low high]; assumption.
  - eapply bind_returns; [apply (readUnsigned_returns 1)|].
    intros n _. apply utf8_decode_returns.
  - eapply bind_returns; [apply (readUnsigned_returns 2)|].
    intros n _. apply utf8_decode_returns.
  - eapply bind_returns; [apply (readUnsigned_returns 4)|].
    intros n _. apply utf8_decode_returns.
  - eapply bind_returns; [apply (readUnsigned_returns 1)|].
    intros n _. now apply unpackList_returns.
  - eapply bind_returns; [apply (readUnsigned_returns 2)|].
    intros n _. now apply unpackList_returns.
  - eapply bind_returns; [apply (readUnsigned_returns 4)|].
    intros n _. now apply unpackList_returns.
  - eapply bind_returns; [apply (readUnsigned_returns 1)|].
    intros n _. now apply unpackMap_returns.
  - eapply bind_returns; [apply (readUnsigned_returns 2)|].
    intros n _. now apply unpackMap_returns.
  - eapply bind_returns; [apply (readUnsigned_returns 4)|].
    intros n _. now apply unpackMap_returns.
  - eapply bind_returns; [apply (readUnsigned_returns 1)|].
    intros n _. now apply unpackStruct_returns.
  - eapply bind_returns; [apply (readUnsigned_returns 2)|].
    intros n _. now apply unpackStruct_returns.
Qed.

Lemma unpack_returns (fuel : nat) :
  returns decoded (unpack ToString structMappers fuel).
Proof.
  induction fuel as [|fuel IH]; cbn [unpack].
  - intros buf a rest _ [=].
  - now apply unpack_body_returns.
Qed.

End Decoded.

Lemma mappers_decode_one : mappers_decode one_mapper.
Proof.
  intros signature mp Hmp u Hu. unfold one_mapper in Hmp.
  destruct (signature =? 0x4E); [|discriminate].
  injection Hmp as <-. unfold wrap_mapper.
  eapply bind_returns; [exact Hu|].
  intros v Hv. apply ret_returns. now repeat constructor.
Qed.

(** X17. Whatever the bytes of the buffer, a value that [unpack] returns
    is a value of the grammar: [undefined] occurs nowhere in it, every
    Integer has 32-bit halves, every number is a binary64 image, every
    signature is a byte and the keys of every map are distinct.  (The
    mappers must return such values when the unpacker they are given
    does.) *)
Theorem unpack_returns_grammar_values
    (ToString : value -> exn + string) (structMappers : Z -> option mapper)
    (fuel : nat) (buf rest : source) (v : value) :
  mappers_decode structMappers ->
  Forall byte buf ->
  unpack ToString structMappers fuel buf = Ok v rest ->
  decoded v /\ Forall byte rest.
Proof.
  intros Hm Hbuf. now apply (unpack_returns ToString structMappers Hm fuel).
Qed.

Lemma unpack_returns_grammar_values_witness :
  decoded (VArray [VInteger (int 1)]) /\ Forall byte [0xC4].
Proof.
  apply (unpack_returns_grammar_values (fun _ => inr ""%string) one_mapper 3
           [0xB1; 0x4E; 0x01; 0xC4] [0xC4] (VArray [VInteger (int 1)])
           mappers_decode_one).
  - repeat constructor; unfold byte; lia.
  - reflexivity.
Defined.
